(** * cache2go: the expiring cache table

    A shallow embedding of the [cache2go] package (the cache item of
    [cacheitem.go], the cache table, and the two error values) together
    with the properties of its expiration sweep, its lookup and mutation
    operations and its ranking query.

    Conventions of the embedding.
    - A [*CacheItem] is a location in a heap of items; the table maps keys
      to locations, so that an item reached through the table and the same
      item held by a caller are one object.
    - [time.Duration] and [int64] are integers of 64 bits: the values are
      kept in [Z] and every operation that can leave the range wraps
      ([int64]).  [time.Time] is an instant in nanoseconds; [Time.Sub]
      saturates as the Go library documents.
    - [time.Now()] reads a clock: the n-th reading of a run is [clock n].
    - The program is run by one goroutine.  Mutex operations are left out
      of the sequential operations; the entry lock of [KeepAlive] is
      modelled on its own, as the transition system [entry_step], and the
      calls on the lock of the table are put back in the functions named
      [..._mu], which compute what the sequential operations compute.
    - Callbacks and the data loader are opaque to the package.  A call of
      one of them is recorded in the [history] of the run, in program
      order, together with the mutations of the entry map and the entries
      into [expirationCheck].  Callbacks do not call back into the table;
      the loader may allocate and change items, not the table.
    - The timer of the table is its duration and whether it is pending;
      its firing, which starts [expirationCheck] in a goroutine of its
      own, is a call of [expirationCheck] like any other.
    - Dereferencing a location that holds no item is the run-time panic of
      Go ([None] in the monad [M]).  Diagnostic logging is left out.

    The packages [geecache/lru] and [geecache] of the repository follow,
    in the modules [lru] and [geecache], each with its conventions at its
    head. *)

From stdpp Require Import base option list gmap strings sorting.
From Stdlib Require Import ZArith Lia.

Local Open Scope Z_scope.

(** ** Machine integers and time *)

Abbreviation Time := Z (only parsing).
Abbreviation Duration := Z (only parsing).
Abbreviation loc := positive (only parsing).
Abbreviation callback := nat (only parsing).

Definition minDuration : Z := - 2 ^ 63.
Definition maxDuration : Z := 2 ^ 63 - 1.

(** The value of an [int64] expression whose mathematical value is [z]. *)
Definition int64 (z : Z) : Z := (z + 2 ^ 63) mod 2 ^ 64 - 2 ^ 63.

Definition in_int64 (z : Z) : Prop := minDuration <= z <= maxDuration.

(** [t.Sub(u)]: the duration [t - u], saturated to the range of
    [Duration]. *)
Definition Time_Sub (t u : Time) : Duration :=
  Z.max minDuration (Z.min maxDuration (t - u)).

(** ** errors.go *)

Inductive error : Type :=
  | ErrCacheNotFound
  | ErrCacheNotFoundOrLoadable.

(** ** cacheitem.go and the table record *)

Section cache2go.

Context {K : Type} `{Countable K}.
Context {V : Type}.
Context {Arg : Type}.

Record CacheItem : Type := mkCacheItem {
  key : K;
  data : V;
  lifeSpan : Duration;
  createTime : Time;
  accessedTime : Time;
  accessCount : Z;
  aboutToExpire : list callback;
}.

(** A [*time.Timer]: the duration it was created with and whether it is
    still pending. *)
Record Timer : Type := mkTimer {
  timer_duration : Duration;
  timer_pending : bool;
}.

Definition Timer_Stop (t : Timer) : Timer :=
  {| timer_duration := timer_duration t; timer_pending := false |}.

Definition time_AfterFunc (d : Duration) : Timer :=
  {| timer_duration := d; timer_pending := true |}.

(** The data loader may allocate and change items; it answers with a
    location or with nil. *)
Definition Loader : Type :=
  K → list Arg → gmap loc CacheItem → option loc * gmap loc CacheItem.

Record CacheTable : Type := mkCacheTable {
  name : string;
  items : gmap K loc;
  cleanupTimer : option Timer;
  cleanupDuration : Duration;
  loadData : option Loader;
  addedItem : list callback;
  deletedItem : list callback;
}.

Inductive Event : Type :=
  | CallAdded (cb : callback) (item : loc)
  | CallDeleted (cb : callback) (item : loc)
  | CallAboutToExpire (cb : callback) (k : K)
  | CallLoadData (k : K) (args : list Arg)
  | CallExpirationCheck
  | MapStore (k : K) (item : loc)
  | MapDelete (k : K)
  | MapReset.

Record CacheItemPair : Type := mkCacheItemPair {
  Key : K;
  AccessCount : Z;
}.

(** [p.Less(i, j)], on the elements at [i] and [j]. *)
Definition Less (a b : CacheItemPair) : bool :=
  AccessCount b <? AccessCount a.

Record World : Type := mkWorld {
  heap : gmap loc CacheItem;
  tbl : CacheTable;
  history : list Event;
  ticks : nat;
}.

(** *** Field updates *)

Definition with_heap (h : gmap loc CacheItem) (w : World) : World :=
  {| heap := h; tbl := tbl w; history := history w; ticks := ticks w |}.

Definition with_tbl (t : CacheTable) (w : World) : World :=
  {| heap := heap w; tbl := t; history := history w; ticks := ticks w |}.

Definition with_items (m : gmap K loc) (t : CacheTable) : CacheTable :=
  {| name := name t; items := m; cleanupTimer := cleanupTimer t;
     cleanupDuration := cleanupDuration t; loadData := loadData t;
     addedItem := addedItem t; deletedItem := deletedItem t |}.

Definition with_cleanupTimer (tm : option Timer) (t : CacheTable) : CacheTable :=
  {| name := name t; items := items t; cleanupTimer := tm;
     cleanupDuration := cleanupDuration t; loadData := loadData t;
     addedItem := addedItem t; deletedItem := deletedItem t |}.

Definition with_cleanupDuration (d : Duration) (t : CacheTable) : CacheTable :=
  {| name := name t; items := items t; cleanupTimer := cleanupTimer t;
     cleanupDuration := d; loadData := loadData t;
     addedItem := addedItem t; deletedItem := deletedItem t |}.

(** ** The monad of the runs: state and panic *)

Definition M (A : Type) : Type := World → option (A * World).

Definition ret {A} (a : A) : M A := λ w, Some (a, w).

Definition bind {A B} (m : M A) (f : A → M B) : M B :=
  λ w, match m w with
       | Some (a, w') => f a w'
       | None => None
       end.

Definition gets {A} (f : World → A) : M A := λ w, Some (f w, w).

Definition modify (f : World → World) : M unit := λ w, Some (tt, f w).

Definition modify_tbl (f : CacheTable → CacheTable) : M unit :=
  modify (λ w, with_tbl (f (tbl w)) w).

Notation "'do' x <- m ; k" := (bind m (λ x, k))
  (at level 10, x name, m at level 100, k at level 200).
Notation "m >> k" := (bind m (λ _, k))
  (at level 100, k at level 200, right associativity).

(** A call that the package cannot look into: it is recorded. *)
Definition emit (e : Event) : M unit :=
  modify (λ w, {| heap := heap w; tbl := tbl w;
                  history := history w ++ [e]; ticks := ticks w |}).

(** [for _, x := range l { f x }] over a slice. *)
Fixpoint for_each {A} (l : list A) (f : A → M unit) : M unit :=
  match l with
  | [] => ret tt
  | x :: l' => f x >> for_each l' f
  end.

(** [*p]: the item at a location. *)
Definition deref (p : loc) : M CacheItem :=
  λ w, match heap w !! p with
       | Some it => Some (it, w)
       | None => None
       end.

Definition store (p : loc) (it : CacheItem) : M unit :=
  modify (λ w, with_heap (<[p := it]> (heap w)) w).

(** [&CacheItem{...}]: a new object, at a location not in use. *)
Definition alloc (it : CacheItem) : M loc :=
  λ w, let p := fresh (dom (heap w)) in
       Some (p, with_heap (<[p := it]> (heap w)) w).

Section operations.

(** The readings of the clock, the order in which [range] visits a map,
    and [sort.Sort]: the three come from outside the package. *)
Variable clock : nat → Time.
Variable range : gmap K loc → list (K * loc).
Variable sort_Sort : list CacheItemPair → list CacheItemPair.

Definition time_Now : M Time :=
  λ w, Some (clock (ticks w),
             {| heap := heap w; tbl := tbl w; history := history w;
                ticks := S (ticks w) |}).

(** *** cacheitem.go *)

Definition NewCacheItem (k : K) (value : V) (ls : Duration) : M loc :=
  do now <- time_Now;
  alloc {| key := k; data := value; lifeSpan := ls; createTime := now;
           accessedTime := now; accessCount := 0; aboutToExpire := [] |}.

(** The two assignments of [KeepAlive]. *)
Definition bump_accessCount (ci : CacheItem) : CacheItem :=
  {| key := key ci; data := data ci; lifeSpan := lifeSpan ci;
     createTime := createTime ci; accessedTime := accessedTime ci;
     accessCount := int64 (accessCount ci + 1);
     aboutToExpire := aboutToExpire ci |}.

Definition set_accessedTime (now : Time) (ci : CacheItem) : CacheItem :=
  {| key := key ci; data := data ci; lifeSpan := lifeSpan ci;
     createTime := createTime ci; accessedTime := now;
     accessCount := accessCount ci;
     aboutToExpire := aboutToExpire ci |}.

Definition KeepAlive (ci : loc) : M unit :=
  do it <- deref ci;
  store ci (bump_accessCount it) >>
  do now <- time_Now;
  do it' <- deref ci;
  store ci (set_accessedTime now it').

(** [KeepAlive] under the lock of the entry.  The [sync.RWMutex] of an
    entry is free, held by readers, or held by a run of [KeepAlive] that
    is at one of its program points; a step is a step of one goroutine. *)
Inductive KeepAlive_pc : Type :=
  | AfterLock
  | AfterIncrement
  | AfterAssign.

Inductive RWMutex : Type :=
  | Unlocked
  | RLocked (others : nat)
  | Locked (pc : KeepAlive_pc).

Inductive entry_step : CacheItem * RWMutex → CacheItem * RWMutex → Prop :=
  | step_Lock it :
      entry_step (it, Unlocked) (it, Locked AfterLock)
  | step_increment it :
      entry_step (it, Locked AfterLock)
                 (bump_accessCount it, Locked AfterIncrement)
  | step_assign it now :
      entry_step (it, Locked AfterIncrement)
                 (set_accessedTime now it, Locked AfterAssign)
  | step_Unlock it :
      entry_step (it, Locked AfterAssign) (it, Unlocked)
  | step_RLock_first it :
      entry_step (it, Unlocked) (it, RLocked 0)
  | step_RLock it n :
      entry_step (it, RLocked n) (it, RLocked (S n))
  | step_RUnlock it n :
      entry_step (it, RLocked (S n)) (it, RLocked n)
  | step_RUnlock_last it :
      entry_step (it, RLocked 0) (it, Unlocked).

(** One whole call of [KeepAlive], at some reading of the clock. *)
Definition kept_alive (it it' : CacheItem) : Prop :=
  ∃ now, it' = set_accessedTime now (bump_accessCount it).

(** *** The table *)

Definition Count : M nat := gets (λ w, size (items (tbl w))).

Definition Exists (k : K) : M bool :=
  gets (λ w, bool_decide (is_Some (items (tbl w) !! k))).

(** The table callbacks come first, the callbacks of the entry second,
    the removal from the map last.  (On a key that is absent the function
    returns at once; the table lock it holds at that point is outside this
    model.) *)
Definition deleteInternal (k : K) : M (option loc * option error) :=
  do t <- gets tbl;
  match items t !! k with
  | None => ret (None, Some ErrCacheNotFound)
  | Some item =>
      for_each (deletedItem t) (λ cb, emit (CallDeleted cb item)) >>
      do it <- deref item;
      for_each (aboutToExpire it) (λ cb, emit (CallAboutToExpire cb k)) >>
      modify_tbl (λ t, with_items (delete k (items t)) t) >>
      emit (MapDelete k) >>
      ret (Some item, None)
  end.

Definition Delete (k : K) : M (option loc * option error) :=
  deleteInternal k.

(** [curDuration] of the sweep. *)
Definition curDuration (now : Time) (it : CacheItem) : Duration :=
  int64 (lifeSpan it - Time_Sub now (accessedTime it)).

(** The body of the loop of [expirationCheck], from one value of
    [smallestDuration] to the next. *)
Definition sweep_entry (now : Time) (smallest : Duration) (kv : K * loc)
  : M Duration :=
  do it <- deref kv.2;
  if lifeSpan it =? 0 then ret smallest
  else
    let cur := curDuration now it in
    if cur <=? 0 then
      do _ <- deleteInternal kv.1; ret smallest
    else if (cur <? smallest) || (smallest =? 0) then ret cur
    else ret smallest.

(** The loop over [range ct.items]: the only entry a step removes is the
    one it visits, so that the entries still to visit are those of the
    map at the start of the loop. *)
Fixpoint sweep (now : Time) (smallest : Duration) (l : list (K * loc))
  : M Duration :=
  match l with
  | [] => ret smallest
  | kv :: l' =>
      do smallest' <- sweep_entry now smallest kv;
      sweep now smallest' l'
  end.

Definition expirationCheck : M unit :=
  emit CallExpirationCheck >>
  modify_tbl (λ t, with_cleanupTimer (Timer_Stop <$> cleanupTimer t) t) >>
  do now <- time_Now;
  do entries <- gets (λ w, range (items (tbl w)));
  do smallestDuration <- sweep now 0 entries;
  modify_tbl (with_cleanupDuration smallestDuration) >>
  if 0 <? smallestDuration then
    modify_tbl (with_cleanupTimer (Some (time_AfterFunc smallestDuration)))
  else ret tt.

Definition addInternal (item : loc) : M unit :=
  do it <- deref item;
  modify_tbl (λ t, with_items (<[key it := item]> (items t)) t) >>
  emit (MapStore (key it) item) >>
  do expDur <- gets (λ w, cleanupDuration (tbl w));
  do added <- gets (λ w, addedItem (tbl w));
  for_each added (λ cb, emit (CallAdded cb item)) >>
  do it <- deref item;
  if (0 <? lifeSpan it) && ((expDur =? 0) || (lifeSpan it <? expDur))
  then expirationCheck
  else ret tt.

Definition Add (k : K) (d : V) (ls : Duration) : M loc :=
  do item <- NewCacheItem k d ls;
  addInternal item >>
  ret item.

Definition NotFoundAdd (k : K) (ls : Duration) (d : V) : M bool :=
  do t <- gets tbl;
  match items t !! k with
  | Some _ => ret false
  | None =>
      do item <- NewCacheItem k d ls;
      addInternal item >>
      ret true
  end.

(** The call [loadData(key, args...)]. *)
Definition call_loader (f : Loader) (k : K) (args : list Arg)
  : M (option loc) :=
  emit (CallLoadData k args) >>
  λ w, let '(r, h) := f k args (heap w) in Some (r, with_heap h w).

Definition Value (k : K) (args : list Arg) : M (option loc * option error) :=
  do t <- gets tbl;
  match items t !! k with
  | Some r => KeepAlive r >> ret (Some r, None)
  | None =>
      match loadData t with
      | Some f =>
          do item <- call_loader f k args;
          match item with
          | Some item =>
              do it <- deref item;
              do _ <- Add k (data it) (lifeSpan it);
              ret (Some item, None)
          | None => ret (None, Some ErrCacheNotFoundOrLoadable)
          end
      | None => ret (None, Some ErrCacheNotFound)
      end
  end.

Definition Flush : M unit :=
  modify_tbl (with_items ∅) >>
  emit MapReset >>
  modify_tbl (with_cleanupDuration 0) >>
  modify_tbl (λ t, with_cleanupTimer (Timer_Stop <$> cleanupTimer t) t).

(** The first loop of [MostAccessed]: one pair for each entry. *)
Fixpoint snapshot (l : list (K * loc)) : M (list CacheItemPair) :=
  match l with
  | [] => ret []
  | kv :: l' =>
      do it <- deref kv.2;
      do p <- snapshot l';
      ret ({| Key := kv.1; AccessCount := accessCount it |} :: p)
  end.

(** The second loop: [c] counts the pairs visited, at most [len(p)] of
    them, so that [c++] cannot wrap. *)
Fixpoint collect (count c : Z) (p : list CacheItemPair) (r : list loc)
  : M (list loc) :=
  match p with
  | [] => ret r
  | v :: p' =>
      if count <=? c then ret r
      else
        do item <- gets (λ w, items (tbl w) !! Key v);
        collect count (c + 1) p'
          (match item with Some i => r ++ [i] | None => r end)
  end.

Definition MostAccessed (count : Z) : M (list loc) :=
  do entries <- gets (λ w, range (items (tbl w)));
  do p <- snapshot entries;
  collect count 0 (sort_Sort p) [].

(** *** Vocabulary of the properties *)

(** The duration the pending timer of the table was armed for, if a timer
    is pending. *)
Definition armed (t : CacheTable) : option Duration :=
  match cleanupTimer t with
  | Some tm => if timer_pending tm then Some (timer_duration tm) else None
  | None => None
  end.

(** Every pointer of the table is a pointer to an item. *)
Definition valid (w : World) : Prop :=
  ∀ k p, items (tbl w) !! k = Some p → is_Some (heap w !! p).

(** The test of the sweep on one item: time-bounded and due. *)
Definition expired (now : Time) (it : CacheItem) : bool :=
  negb (lifeSpan it =? 0) && (curDuration now it <=? 0).

Definition expired_at (now : Time) (h : gmap loc CacheItem) (p : loc) : bool :=
  match h !! p with
  | Some it => expired now it
  | None => false
  end.

(** The entry under [k] is the time-bounded item [it]. *)
Definition time_bounded (w : World) (k : K) (it : CacheItem) : Prop :=
  ∃ p, items (tbl w) !! k = Some p ∧ heap w !! p = Some it
       ∧ lifeSpan it ≠ 0.

(** The item at [p] is time-bounded and not due at [now]: it stays, with
    [c] its remaining time. *)
Definition live (now : Time) (h : gmap loc CacheItem) (p : loc) (c : Duration)
  : Prop :=
  ∃ it, h !! p = Some it ∧ lifeSpan it ≠ 0 ∧ curDuration now it = c ∧ 0 < c.

(** The table a run of [expirationCheck] leaves, from the entries [m] that
    stay and the smallest remaining time [d]. *)
Definition swept_tbl (t : CacheTable) (m : gmap K loc) (d : Duration)
  : CacheTable :=
  {| name := name t; items := m;
     cleanupTimer := if 0 <? d then Some (time_AfterFunc d)
                     else Timer_Stop <$> cleanupTimer t;
     cleanupDuration := d; loadData := loadData t;
     addedItem := addedItem t; deletedItem := deletedItem t |}.

(** The access count of the item at [p]. *)
Definition accessCount_at (h : gmap loc CacheItem) (p : loc) : Z :=
  match h !! p with
  | Some it => accessCount it
  | None => 0
  end.

(** The pair the first loop of [MostAccessed] builds for an entry. *)
Definition pair_of (h : gmap loc CacheItem) (kv : K * loc) : CacheItemPair :=
  {| Key := kv.1; AccessCount := accessCount_at h kv.2 |}.

(** What a deletion adds to the history. *)
Definition delete_events (t : CacheTable) (k : K) (p : loc) (it : CacheItem)
  : list Event :=
  map (λ cb, CallDeleted cb p) (deletedItem t)
  ++ map (λ cb, CallAboutToExpire cb k) (aboutToExpire it)
  ++ [MapDelete k].

Definition is_check (e : Event) : bool :=
  match e with CallExpirationCheck => true | _ => false end.

Definition is_load (e : Event) : bool :=
  match e with CallLoadData _ _ => true | _ => false end.

Definition is_delete_callback (e : Event) : bool :=
  match e with CallDeleted _ _ => true | _ => false end.

Definition is_expire_callback (e : Event) : bool :=
  match e with CallAboutToExpire _ _ => true | _ => false end.

(** The events of a sweep: callbacks of deletions and removals from the
    map. *)
Definition is_sweep_event (e : Event) : bool :=
  match e with
  | CallDeleted _ _ | CallAboutToExpire _ _ | MapDelete _ => true
  | _ => false
  end.

(** [all_before P Q h]: in [h] no event of kind [P] comes after an event
    of kind [Q]. *)
Fixpoint all_before (P Q : Event → bool) (h : list Event) : bool :=
  match h with
  | [] => true
  | e :: h' =>
      (if Q e then forallb (λ e', negb (P e')) h' else true)
      && all_before P Q h'
  end.

(** The item [NewCacheItem] builds at the instant [now]. *)
Definition new_item (now : Time) (k : K) (d : V) (ls : Duration) : CacheItem :=
  {| key := k; data := d; lifeSpan := ls; createTime := now;
     accessedTime := now; accessCount := 0; aboutToExpire := [] |}.

(** The test at the end of [addInternal]. *)
Definition add_triggers (ls : Duration) (w : World) : bool :=
  (0 <? ls)
  && ((cleanupDuration (tbl w) =? 0) || (ls <? cleanupDuration (tbl w))).

(** The world of [Add] after the insertion and the added-item callbacks,
    before the test. *)
Definition inserted (k : K) (d : V) (ls : Duration) (w : World) : World :=
  let p := fresh (dom (heap w)) in
  {| heap := <[p := new_item (clock (ticks w)) k d ls]> (heap w);
     tbl := with_items (<[k := p]> (items (tbl w))) (tbl w);
     history := history w ++ MapStore k p
                  :: map (λ cb, CallAdded cb p) (addedItem (tbl w));
     ticks := S (ticks w) |}.

(** The number of entries into [expirationCheck] in a history. *)
Definition checks (h : list Event) : nat := length (filter is_check h).

Definition add_events (es : list Event) (w : World) : World :=
  {| heap := heap w; tbl := tbl w; history := history w ++ es;
     ticks := ticks w |}.

(** *** The rest of the package: registration of callbacks and loader *)

Definition with_loadData (f : option Loader) (t : CacheTable) : CacheTable :=
  {| name := name t; items := items t; cleanupTimer := cleanupTimer t;
     cleanupDuration := cleanupDuration t; loadData := f;
     addedItem := addedItem t; deletedItem := deletedItem t |}.

Definition with_addedItem (l : list callback) (t : CacheTable) : CacheTable :=
  {| name := name t; items := items t; cleanupTimer := cleanupTimer t;
     cleanupDuration := cleanupDuration t; loadData := loadData t;
     addedItem := l; deletedItem := deletedItem t |}.

Definition with_deletedItem (l : list callback) (t : CacheTable) : CacheTable :=
  {| name := name t; items := items t; cleanupTimer := cleanupTimer t;
     cleanupDuration := cleanupDuration t; loadData := loadData t;
     addedItem := addedItem t; deletedItem := l |}.

Definition with_aboutToExpire (l : list callback) (ci : CacheItem) : CacheItem :=
  {| key := key ci; data := data ci; lifeSpan := lifeSpan ci;
     createTime := createTime ci; accessedTime := accessedTime ci;
     accessCount := accessCount ci; aboutToExpire := l |}.

(** [SetDataLoader(f)]; [f] may be nil. *)
Definition SetDataLoader (f : option Loader) : M unit :=
  modify_tbl (with_loadData f).

Definition RemoveAddedItemCallBack : M unit :=
  modify_tbl (with_addedItem []).

Definition SetAddedItemCallback (f : callback) : M unit :=
  do n <- gets (λ w, length (addedItem (tbl w)));
  (if (0 <? n)%nat then RemoveAddedItemCallBack else ret tt) >>
  modify_tbl (λ t, with_addedItem (addedItem t ++ [f]) t).

Definition AddAddedItemCallback (f : callback) : M unit :=
  modify_tbl (λ t, with_addedItem (addedItem t ++ [f]) t).

Definition RemoveDeleteItemCallback : M unit :=
  modify_tbl (with_deletedItem []).

Definition SetDeleteItemCallback (f : callback) : M unit :=
  do n <- gets (λ w, length (deletedItem (tbl w)));
  (if (0 <? n)%nat then RemoveDeleteItemCallback else ret tt) >>
  modify_tbl (λ t, with_deletedItem (deletedItem t ++ [f]) t).

Definition AddDeleteItemCallback (f : callback) : M unit :=
  modify_tbl (λ t, with_deletedItem (deletedItem t ++ [f]) t).

(** cacheitem.go: the callbacks of an entry. *)
Definition RemoveAboutToExpireCallBack (ci : loc) : M unit :=
  do it <- deref ci;
  store ci (with_aboutToExpire [] it).

Definition SetAboutToExpireCallback (ci : loc) (f : callback) : M unit :=
  do it <- deref ci;
  (if (0 <? length (aboutToExpire it))%nat
   then RemoveAboutToExpireCallBack ci else ret tt) >>
  do it' <- deref ci;
  store ci (with_aboutToExpire (aboutToExpire it' ++ [f]) it').

Definition AddAboutToExpireCallback (ci : loc) (f : callback) : M unit :=
  do it <- deref ci;
  store ci (with_aboutToExpire (aboutToExpire it ++ [f]) it).

(** *** Vocabulary of the further properties *)

Definition is_added_callback (e : Event) : bool :=
  match e with CallAdded _ _ => true | _ => false end.

(** The events a sweep at [now] adds for the entries [l] it visits: the
    events of a deletion for each entry that is due, in the order of the
    visit. *)
Definition sweep_events (now : Time) (h : gmap loc CacheItem) (t : CacheTable)
    (l : list (K * loc)) : list Event :=
  concat (map (λ kv : K * loc,
                 match h !! kv.2 with
                 | Some it => if expired now it
                              then delete_events t kv.1 kv.2 it else []
                 | None => []
                 end) l).

(** Every entry is stored under the key its item carries. *)
Definition keyed (w : World) : Prop :=
  ∀ k p it, items (tbl w) !! k = Some p → heap w !! p = Some it → key it = k.

(** A timer is pending exactly when [cleanupDuration] is positive, and
    then for that duration. *)
Definition timer_ok (t : CacheTable) : Prop :=
  0 ≤ cleanupDuration t
  ∧ armed t = if 0 <? cleanupDuration t then Some (cleanupDuration t) else None.

(** A loader that only allocates: it leaves the items that exist as they
    are and answers with nil or with an item. *)
Definition loader_ok (f : Loader) : Prop :=
  ∀ k args h, h ⊆ (f k args h).2
              ∧ ∀ p, (f k args h).1 = Some p → is_Some ((f k args h).2 !! p).


(** *** Programs over one table

    A call of the package by a client, or the firing of the timer, which
    starts [expirationCheck]. *)
Inductive Op : Type :=
  | OpAdd (k : K) (d : V) (ls : Duration)
  | OpNotFoundAdd (k : K) (ls : Duration) (d : V)
  | OpValue (k : K) (args : list Arg)
  | OpDelete (k : K)
  | OpExists (k : K)
  | OpCount
  | OpMostAccessed (count : Z)
  | OpFlush
  | OpTimerFires
  | OpSetDataLoader (f : option Loader)
  | OpSetAddedItemCallback (f : callback)
  | OpAddAddedItemCallback (f : callback)
  | OpRemoveAddedItemCallBack
  | OpSetDeleteItemCallback (f : callback)
  | OpAddDeleteItemCallback (f : callback)
  | OpRemoveDeleteItemCallback.

Definition run_op (o : Op) : M unit :=
  match o with
  | OpAdd k d ls => Add k d ls >> ret tt
  | OpNotFoundAdd k ls d => NotFoundAdd k ls d >> ret tt
  | OpValue k args => Value k args >> ret tt
  | OpDelete k => Delete k >> ret tt
  | OpExists k => Exists k >> ret tt
  | OpCount => Count >> ret tt
  | OpMostAccessed count => MostAccessed count >> ret tt
  | OpFlush => Flush
  | OpTimerFires => expirationCheck
  | OpSetDataLoader f => SetDataLoader f
  | OpSetAddedItemCallback f => SetAddedItemCallback f
  | OpAddAddedItemCallback f => AddAddedItemCallback f
  | OpRemoveAddedItemCallBack => RemoveAddedItemCallBack
  | OpSetDeleteItemCallback f => SetDeleteItemCallback f
  | OpAddDeleteItemCallback f => AddDeleteItemCallback f
  | OpRemoveDeleteItemCallback => RemoveDeleteItemCallback
  end.

Fixpoint run_ops (l : list Op) : M unit :=
  match l with
  | [] => ret tt
  | o :: l' => run_op o >> run_ops l'
  end.

(** The loaders a program installs only allocate. *)
Definition op_ok (o : Op) : Prop :=
  match o with
  | OpSetDataLoader (Some f) => loader_ok f
  | _ => True
  end.

(** The invariant of the table. *)
Definition table_inv (w : World) : Prop :=
  valid w ∧ keyed w ∧ timer_ok (tbl w)
  ∧ ∀ f, loadData (tbl w) = Some f → loader_ok f.

(** The table [Cache] creates, in a world with the items [h]. *)
Definition new_table (n : string) : CacheTable :=
  {| name := n; items := ∅; cleanupTimer := None; cleanupDuration := 0;
     loadData := None; addedItem := []; deletedItem := [] |}.

Definition new_world (n : string) (h : gmap loc CacheItem) : World :=
  {| heap := h; tbl := new_table n; history := []; ticks := 0 |}.


(** *** The lock of the table, for one goroutine

    [ct.Lock()] and [ct.RLock()] do not return while the lock is held for
    writing; the flag says whether the goroutine holds it. *)
Inductive Outcome (A : Type) : Type :=
  | Returns (a : A) (w : World) (locked : bool)
  | Blocks
  | Panics.

Arguments Returns {A} a w locked.
Arguments Blocks {A}.
Arguments Panics {A}.

(** A function that first takes the lock of the table, for reading or for
    writing, and has released every lock it took when it returns. *)
Definition when_free {A} (m : M A) (w : World) (locked : bool) : Outcome A :=
  if locked then Blocks
  else match m w with
       | Some (a, w') => Returns a w' false
       | None => Panics
       end.

(** [deleteInternal] with its lock: [ct.Lock()] first; the return for a
    key that is absent comes before any [ct.Unlock()]. *)
Definition locked_deleteInternal (k : K) (w : World) (locked : bool)
  : Outcome (option loc * option error) :=
  if locked then Blocks
  else match deleteInternal k w with
       | Some ((r, Some e), w') => Returns (r, Some e) w' true
       | Some ((r, None), w') => Returns (r, None) w' false
       | None => Panics
       end.

Definition locked_run_op (o : Op) (w : World) (locked : bool) : Outcome unit :=
  match o with
  | OpDelete k =>
      match locked_deleteInternal k w locked with
      | Returns _ w' l => Returns tt w' l
      | Blocks => Blocks
      | Panics => Panics
      end
  | _ => when_free (run_op o) w locked
  end.

(** *** cache.go: the directory of the tables *)

Record Registry : Type := mkRegistry {
  tables : gmap loc CacheTable;
  cache : gmap string loc;
}.

Definition Cache (table : string) (r : Registry) : loc * Registry :=
  match cache r !! table with
  | Some t => (t, r)
  | None =>
      let t := fresh (dom (tables r)) in
      (t, {| tables := <[t := new_table table]> (tables r);
             cache := <[table := t]> (cache r) |})
  end.

Definition no_tables : Registry := {| tables := ∅; cache := ∅ |}.

(** Every name of the directory leads to a table of that name. *)
Definition registry_ok (r : Registry) : Prop :=
  ∀ n t, cache r !! n = Some t → ∃ T, tables r !! t = Some T ∧ name T = n.


(** A program, run by one goroutine that holds no lock at the start. *)
Fixpoint locked_run_ops (l : list Op) (w : World) (locked : bool)
  : Outcome unit :=
  match l with
  | [] => Returns tt w locked
  | o :: l' =>
      match locked_run_op o w locked with
      | Returns _ w' locked' => locked_run_ops l' w' locked'
      | Blocks => Blocks
      | Panics => Panics
      end
  end.

(** *** The calls on the lock of the table

    The functions of the table once more, with their calls of [ct.Lock],
    [ct.Unlock], [ct.RLock] and [ct.RUnlock] in the places the source has
    them, for the goroutine that runs.  The lock is free, held by that
    goroutine for reading ([n + 1] times), or held by it for writing.
    [Lock] does not return while the lock is held, [RLock] does not
    return while it is held for writing; [Unlock] and [RUnlock] of a lock
    that is not held are fatal errors of the run time. *)
Inductive Mutex : Type :=
  | Free
  | Reading (n : nat)
  | Writing.

Inductive Step (A : Type) : Type :=
  | Done (a : A) (w : World) (mu : Mutex)
  | Blocked
  | Fatal.

Arguments Done {A} a w mu.
Arguments Blocked {A}.
Arguments Fatal {A}.

Definition L (A : Type) : Type := World → Mutex → Step A.

Definition lret {A} (a : A) : L A := λ w mu, Done a w mu.

Definition lbind {A B} (m : L A) (f : A → L B) : L B :=
  λ w mu, match m w mu with
          | Done a w' mu' => f a w' mu'
          | Blocked => Blocked
          | Fatal => Fatal
          end.

Notation "'ldo' x <- m ; k" := (lbind m (λ x, k))
  (at level 10, x name, m at level 100, k at level 200).
Notation "m >>> k" := (lbind m (λ _, k))
  (at level 100, k at level 200, right associativity).

(** A statement that takes no lock. *)
Definition lift {A} (m : M A) : L A :=
  λ w mu, match m w with
          | Some (a, w') => Done a w' mu
          | None => Fatal
          end.

Definition ct_Lock : L unit :=
  λ w mu, match mu with
          | Free => Done tt w Writing
          | _ => Blocked
          end.

Definition ct_Unlock : L unit :=
  λ w mu, match mu with
          | Writing => Done tt w Free
          | _ => Fatal
          end.

Definition ct_RLock : L unit :=
  λ w mu, match mu with
          | Free => Done tt w (Reading 0)
          | Reading n => Done tt w (Reading (S n))
          | Writing => Blocked
          end.

Definition ct_RUnlock : L unit :=
  λ w mu, match mu with
          | Reading 0 => Done tt w Free
          | Reading (S n) => Done tt w (Reading n)
          | _ => Fatal
          end.

(** [ct.Lock(); defer ct.Unlock()] and [ct.RLock(); defer ct.RUnlock()]
    around the rest of a function. *)
Definition with_Lock {A} (body : L A) : L A :=
  ct_Lock >>> ldo a <- body; ct_Unlock >>> lret a.

Definition with_RLock {A} (body : L A) : L A :=
  ct_RLock >>> ldo a <- body; ct_RUnlock >>> lret a.

Definition Count_mu : L nat := with_RLock (lift Count).

Definition Exists_mu (k : K) : L bool := with_RLock (lift (Exists k)).

(** The return for a key that is absent comes before [ct.Unlock()]. *)
Definition deleteInternal_mu (k : K) : L (option loc * option error) :=
  ct_Lock >>>
  ldo t <- lift (gets tbl);
  match items t !! k with
  | None => lret (None, Some ErrCacheNotFound)
  | Some item =>
      lift (for_each (deletedItem t) (λ cb, emit (CallDeleted cb item))) >>>
      ldo it <- lift (deref item);
      lift (for_each (aboutToExpire it)
              (λ cb, emit (CallAboutToExpire cb k))) >>>
      lift (modify_tbl (λ t, with_items (delete k (items t)) t)) >>>
      lift (emit (MapDelete k)) >>>
      ct_Unlock >>>
      lret (Some item, None)
  end.

Definition Delete_mu (k : K) : L (option loc * option error) :=
  deleteInternal_mu k.

(** The sweep gives the lock up around each deletion. *)
Definition sweep_entry_mu (now : Time) (smallest : Duration) (kv : K * loc)
  : L Duration :=
  ldo it <- lift (deref kv.2);
  if lifeSpan it =? 0 then lret smallest
  else
    let cur := curDuration now it in
    if cur <=? 0 then
      ct_Unlock >>>
      ldo _ <- deleteInternal_mu kv.1;
      ct_Lock >>>
      lret smallest
    else if (cur <? smallest) || (smallest =? 0) then lret cur
    else lret smallest.

Fixpoint sweep_mu (now : Time) (smallest : Duration) (l : list (K * loc))
  : L Duration :=
  match l with
  | [] => lret smallest
  | kv :: l' =>
      ldo smallest' <- sweep_entry_mu now smallest kv;
      sweep_mu now smallest' l'
  end.

Definition expirationCheck_mu : L unit :=
  lift (emit CallExpirationCheck) >>>
  ct_Lock >>>
  lift (modify_tbl (λ t, with_cleanupTimer (Timer_Stop <$> cleanupTimer t) t))
  >>>
  ldo now <- lift time_Now;
  ldo entries <- lift (gets (λ w, range (items (tbl w))));
  ldo smallestDuration <- sweep_mu now 0 entries;
  lift (modify_tbl (with_cleanupDuration smallestDuration)) >>>
  (if 0 <? smallestDuration then
     lift (modify_tbl
             (with_cleanupTimer (Some (time_AfterFunc smallestDuration))))
   else lret tt) >>>
  ct_Unlock.

Definition addInternal_mu (item : loc) : L unit :=
  ct_Lock >>>
  ldo it <- lift (deref item);
  lift (modify_tbl (λ t, with_items (<[key it := item]> (items t)) t)) >>>
  lift (emit (MapStore (key it) item)) >>>
  ldo expDur <- lift (gets (λ w, cleanupDuration (tbl w)));
  ldo added <- lift (gets (λ w, addedItem (tbl w)));
  ct_Unlock >>>
  lift (for_each added (λ cb, emit (CallAdded cb item))) >>>
  ldo it <- lift (deref item);
  if (0 <? lifeSpan it) && ((expDur =? 0) || (lifeSpan it <? expDur))
  then expirationCheck_mu
  else lret tt.

Definition Add_mu (k : K) (d : V) (ls : Duration) : L loc :=
  ldo item <- lift (NewCacheItem k d ls);
  addInternal_mu item >>>
  lret item.

Definition NotFoundAdd_mu (k : K) (ls : Duration) (d : V) : L bool :=
  ct_Lock >>>
  ldo t <- lift (gets tbl);
  match items t !! k with
  | Some _ => ct_Unlock >>> lret false
  | None =>
      ct_Unlock >>>
      ldo item <- lift (NewCacheItem k d ls);
      addInternal_mu item >>>
      lret true
  end.

Definition Value_mu (k : K) (args : list Arg)
  : L (option loc * option error) :=
  ct_RLock >>>
  ldo t <- lift (gets tbl);
  ct_RUnlock >>>
  match items t !! k with
  | Some r => lift (KeepAlive r) >>> lret (Some r, None)
  | None =>
      match loadData t with
      | Some f =>
          ldo item <- lift (call_loader f k args);
          match item with
          | Some item =>
              ldo it <- lift (deref item);
              ldo _ <- Add_mu k (data it) (lifeSpan it);
              lret (Some item, None)
          | None => lret (None, Some ErrCacheNotFoundOrLoadable)
          end
      | None => lret (None, Some ErrCacheNotFound)
      end
  end.

Definition Flush_mu : L unit := with_Lock (lift Flush).

Definition MostAccessed_mu (count : Z) : L (list loc) :=
  with_RLock (lift (MostAccessed count)).

Definition SetDataLoader_mu (f : option Loader) : L unit :=
  with_Lock (lift (SetDataLoader f)).

Definition RemoveAddedItemCallBack_mu : L unit :=
  with_Lock (lift RemoveAddedItemCallBack).

Definition SetAddedItemCallback_mu (f : callback) : L unit :=
  ldo n <- lift (gets (λ w, length (addedItem (tbl w))));
  (if (0 <? n)%nat then RemoveAddedItemCallBack_mu else lret tt) >>>
  with_Lock (lift (modify_tbl (λ t, with_addedItem (addedItem t ++ [f]) t))).

Definition AddAddedItemCallback_mu (f : callback) : L unit :=
  with_Lock (lift (AddAddedItemCallback f)).

Definition RemoveDeleteItemCallback_mu : L unit :=
  with_Lock (lift RemoveDeleteItemCallback).

Definition SetDeleteItemCallback_mu (f : callback) : L unit :=
  ldo n <- lift (gets (λ w, length (deletedItem (tbl w))));
  (if (0 <? n)%nat then RemoveDeleteItemCallback_mu else lret tt) >>>
  with_Lock
    (lift (modify_tbl (λ t, with_deletedItem (deletedItem t ++ [f]) t))).

Definition AddDeleteItemCallback_mu (f : callback) : L unit :=
  with_Lock (lift (AddDeleteItemCallback f)).

Definition run_op_mu (o : Op) : L unit :=
  match o with
  | OpAdd k d ls => Add_mu k d ls >>> lret tt
  | OpNotFoundAdd k ls d => NotFoundAdd_mu k ls d >>> lret tt
  | OpValue k args => Value_mu k args >>> lret tt
  | OpDelete k => Delete_mu k >>> lret tt
  | OpExists k => Exists_mu k >>> lret tt
  | OpCount => Count_mu >>> lret tt
  | OpMostAccessed count => MostAccessed_mu count >>> lret tt
  | OpFlush => Flush_mu
  | OpTimerFires => expirationCheck_mu
  | OpSetDataLoader f => SetDataLoader_mu f
  | OpSetAddedItemCallback f => SetAddedItemCallback_mu f
  | OpAddAddedItemCallback f => AddAddedItemCallback_mu f
  | OpRemoveAddedItemCallBack => RemoveAddedItemCallBack_mu
  | OpSetDeleteItemCallback f => SetDeleteItemCallback_mu f
  | OpAddDeleteItemCallback f => AddDeleteItemCallback_mu f
  | OpRemoveDeleteItemCallback => RemoveDeleteItemCallback_mu
  end.

Fixpoint run_ops_mu (l : list Op) : L unit :=
  match l with
  | [] => lret tt
  | o :: l' => run_op_mu o >>> run_ops_mu l'
  end.

(** The lock when a call made with the lock free has returned: only a
    [Delete] of a key that is absent leaves it held. *)
Definition lock_after (o : Op) (w : World) : Mutex :=
  match o with
  | OpDelete k =>
      match items (tbl w) !! k with
      | Some _ => Free
      | None => Writing
      end
  | _ => Free
  end.

(** ** Properties *)

(** The visit of a map by [range] reaches every entry once, in an order
    that is not specified. *)
Hypothesis range_perm : ∀ m : gmap K loc, range m ≡ₚ map_to_list m.

(** *** Running the monad *)

Lemma bind_run {A B} (m : M A) (f : A → M B) (w w1 : World) (a : A) :
  m w = Some (a, w1) → bind m f w = f a w1.
Proof. intros E. unfold bind. rewrite E. reflexivity. Qed.

Lemma deref_run (p : loc) (it : CacheItem) (w : World) :
  heap w !! p = Some it → deref p w = Some (it, w).
Proof. intros E. unfold deref. rewrite E. reflexivity. Qed.

Lemma add_events_nil (w : World) : add_events [] w = w.
Proof. destruct w. unfold add_events. cbn. rewrite app_nil_r. reflexivity. Qed.

Lemma for_each_emit {A} (f : A → Event) (l : list A) (w : World) :
  for_each l (λ x, emit (f x)) w = Some (tt, add_events (map f l) w).
Proof.
  revert w. induction l as [|x l IH]; intros w.
  - cbn. unfold ret. rewrite add_events_nil. reflexivity.
  - cbn [for_each map]. erewrite bind_run by reflexivity.
    rewrite IH. unfold add_events. cbn. rewrite <- app_assoc. reflexivity.
Qed.

(** *** Deletion *)

Lemma deleteInternal_present (k : K) (p : loc) (it : CacheItem) (w : World) :
  items (tbl w) !! k = Some p →
  heap w !! p = Some it →
  deleteInternal k w
  = Some ((Some p, None),
          {| heap := heap w;
             tbl := with_items (delete k (items (tbl w))) (tbl w);
             history := history w ++ delete_events (tbl w) k p it;
             ticks := ticks w |}).
Proof.
  intros Hk Hp. unfold deleteInternal.
  erewrite bind_run by reflexivity. rewrite Hk.
  erewrite bind_run by apply for_each_emit.
  erewrite bind_run by (apply deref_run; exact Hp).
  erewrite bind_run by apply for_each_emit.
  cbn. unfold delete_events. rewrite <- !app_assoc. reflexivity.
Qed.

Lemma deleteInternal_absent (k : K) (w : World) :
  items (tbl w) !! k = None →
  deleteInternal k w = Some ((None, Some ErrCacheNotFound), w).
Proof.
  intros Hk. unfold deleteInternal.
  erewrite bind_run by reflexivity. rewrite Hk. reflexivity.
Qed.

Lemma delete_events_sweep (t : CacheTable) (k : K) (p : loc) (it : CacheItem) :
  Forall (λ e, is_sweep_event e = true) (delete_events t k p it).
Proof.
  unfold delete_events. rewrite !Forall_app. repeat split.
  - apply Forall_forall. intros e [cb [-> _]]%list_elem_of_fmap. reflexivity.
  - apply Forall_forall. intros e [cb [-> _]]%list_elem_of_fmap. reflexivity.
  - repeat constructor.
Qed.

(** *** The sweep *)

Lemma world_eta (w : World) :
  w = {| heap := heap w; tbl := with_items (items (tbl w)) (tbl w);
         history := history w ++ []; ticks := ticks w |}.
Proof. destruct w as [h [] hs n]. cbn. rewrite app_nil_r. reflexivity. Qed.

Lemma sweep_run (now : Time) (l : list (K * loc)) :
  ∀ (s : Duration) (w : World),
    NoDup l.*1 →
    (∀ k p, (k, p) ∈ l → items (tbl w) !! k = Some p) →
    valid w →
    0 ≤ s →
    ∃ s' m es,
      sweep now s l w
      = Some (s', {| heap := heap w; tbl := with_items m (tbl w);
                     history := history w ++ es; ticks := ticks w |})
      ∧ Forall (λ e, is_sweep_event e = true) es
      ∧ (∀ k p, m !! k = Some p → items (tbl w) !! k = Some p)
      ∧ (∀ k p, (k, p) ∈ l → expired_at now (heap w) p = true → m !! k = None)
      ∧ (∀ k p, items (tbl w) !! k = Some p →
                expired_at now (heap w) p = false → m !! k = Some p)
      ∧ 0 ≤ s'
      ∧ (s' = s ∨ ∃ k p, (k, p) ∈ l ∧ live now (heap w) p s')
      ∧ (∀ k p c, (k, p) ∈ l → live now (heap w) p c → 0 < s' ≤ c)
      ∧ (0 < s → 0 < s' ≤ s).
Proof.
  induction l as [|[k0 p0] l IH]; intros s w Hnd Hin Hv Hs.
  - exists s, (items (tbl w)), []. cbn [sweep]. unfold ret.
    rewrite <- world_eta. split_and!; auto; try lia.
    + intros k p Hkp. inversion Hkp.
    + intros k p c Hkp. inversion Hkp.
  - apply NoDup_cons in Hnd as [Hk0 Hnd]. cbn [fst] in Hk0.
    assert (Hk0p : items (tbl w) !! k0 = Some p0) by (apply Hin; left).
    destruct (Hv _ _ Hk0p) as [it Hit].
    assert (Hne : ∀ k p, (k, p) ∈ l → k ≠ k0).
    { intros k p Hkp ->. apply Hk0. apply list_elem_of_fmap.
      exists (k0, p). split; [reflexivity | exact Hkp]. }
    cbn [sweep]. unfold sweep_entry at 1. cbn [fst snd].
    unfold bind at 1. unfold bind at 1. rewrite (deref_run _ _ _ Hit).
    destruct (Z.eqb_spec (lifeSpan it) 0) as [Hz|Hnz].
    { (* exempt *)
      unfold ret at 1.
      destruct (IH s w Hnd) as (s' & m & es & Hrun & Hes & Hsub & Hexp & Hkeep
                                & Hs' & Hatt & Hlow & Hup); auto.
      { intros k p Hkp. apply Hin. right. exact Hkp. }
      exists s', m, es. split; [exact Hrun|]. split_and!; auto; try lia.
      - intros k p [Heq|Hkp]%elem_of_cons Hx; [|eauto].
        inversion Heq; subst. unfold expired_at, expired in Hx.
        rewrite Hit in Hx. destruct (Z.eqb_spec (lifeSpan it) 0); [|lia].
        discriminate.
      - destruct Hatt as [->|(k & p & Hkp & Hl)]; [left; reflexivity|].
        right. exists k, p. split; [right; exact Hkp | exact Hl].
      - intros k p c [Heq|Hkp]%elem_of_cons Hl; [|eapply Hlow; eauto].
        inversion Heq; subst. destruct Hl as (it' & Hit' & Hn & _).
        congruence. }
    destruct (Z.leb_spec (curDuration now it) 0) as [Hdue|Hlive].
    { (* due: the entry is deleted *)
      unfold bind at 1.
      rewrite (deleteInternal_present _ _ _ _ Hk0p Hit). unfold ret at 1.
      set (w1 := {| heap := heap w;
                    tbl := with_items (delete k0 (items (tbl w))) (tbl w);
                    history := history w ++ delete_events (tbl w) k0 p0 it;
                    ticks := ticks w |}).
      destruct (IH s w1 Hnd) as (s' & m & es & Hrun & Hes & Hsub & Hexp & Hkeep
                                 & Hs' & Hatt & Hlow & Hup); auto.
      { intros k p Hkp. cbn. rewrite lookup_delete_ne by (intros ->; eapply Hne; eauto).
        apply Hin. right. exact Hkp. }
      { intros k p. cbn. intros Hkp. apply lookup_delete_Some in Hkp as [_ Hkp].
        eapply Hv; eauto. }
      exists s', m, (delete_events (tbl w) k0 p0 it ++ es).
      split.
      { rewrite Hrun. cbn. rewrite <- app_assoc. reflexivity. }
      cbn in Hsub, Hexp, Hkeep, Hatt, Hlow.
      split_and!; auto; try lia.
      - apply Forall_app. split; [apply delete_events_sweep | exact Hes].
      - intros k p Hm. apply Hsub in Hm. apply lookup_delete_Some in Hm as [_ Hm].
        exact Hm.
      - intros k p [Heq|Hkp]%elem_of_cons Hx; [|eauto].
        inversion Heq; subst. destruct (m !! k0) as [q|] eqn:Hm; [|reflexivity].
        apply Hsub in Hm. rewrite lookup_delete_eq in Hm. discriminate.
      - intros k p Hkp Hx. apply Hkeep; [|exact Hx].
        rewrite lookup_delete_ne; [exact Hkp|].
        intros <-. rewrite Hk0p in Hkp. inversion Hkp; subst.
        unfold expired_at, expired in Hx. rewrite Hit in Hx.
        destruct (Z.eqb_spec (lifeSpan it) 0); [lia|].
        destruct (Z.leb_spec (curDuration now it) 0); [|lia]. discriminate.
      - destruct Hatt as [->|(k & p & Hkp & Hl)]; [left; reflexivity|].
        right. exists k, p. split; [right; exact Hkp | exact Hl].
      - intros k p c [Heq|Hkp]%elem_of_cons Hl; [|eapply Hlow; eauto].
        inversion Heq; subst. destruct Hl as (it' & Hit' & _ & Hc & Hpos).
        assert (it' = it) by congruence. subst. lia. }
    (* live: the entry bounds the next timer *)
    set (s1 := if (curDuration now it <? s) || (s =? 0)
               then curDuration now it else s).
    assert (Hs1 : 0 < s1 ∧ s1 ≤ curDuration now it
                  ∧ (s1 = s ∨ s1 = curDuration now it) ∧ (0 < s → s1 ≤ s)).
    { unfold s1. destruct (Z.ltb_spec (curDuration now it) s);
        destruct (Z.eqb_spec s 0); cbn; lia. }
    destruct Hs1 as (Hs1pos & Hs1le & Hs1or & Hs1up).
    replace ((if (curDuration now it <? s) || (s =? 0)
              then ret (curDuration now it) else ret s) w)
      with (Some (s1, w)).
    2:{ unfold s1. destruct ((curDuration now it <? s) || (s =? 0)); reflexivity. }
    destruct (IH s1 w Hnd) as (s' & m & es & Hrun & Hes & Hsub & Hexp & Hkeep
                               & Hs' & Hatt & Hlow & Hup); auto; try lia.
    { intros k p Hkp. apply Hin. right. exact Hkp. }
    specialize (Hup Hs1pos).
    exists s', m, es. split; [exact Hrun|]. split_and!; auto; try lia.
    + intros k p [Heq|Hkp]%elem_of_cons Hx; [|eauto].
      inversion Heq; subst. unfold expired_at, expired in Hx. rewrite Hit in Hx.
      destruct (Z.leb_spec (curDuration now it) 0); [lia|].
      rewrite andb_false_r in Hx. discriminate.
    + destruct Hatt as [->|(k & p & Hkp & Hl)].
      * destruct Hs1or as [->| ->]; [left; reflexivity|].
        right. exists k0, p0. split; [left|]. exists it. auto.
      * right. exists k, p. split; [right; exact Hkp | exact Hl].
    + intros k p c [Heq|Hkp]%elem_of_cons Hl.
      * inversion Heq; subst. destruct Hl as (it' & Hit' & _ & Hc & Hpos).
        assert (it' = it) by congruence. subst. lia.
      * specialize (Hlow k p c Hkp Hl). lia.
Qed.

Lemma range_elem (m : gmap K loc) (k : K) (p : loc) :
  (k, p) ∈ range m ↔ m !! k = Some p.
Proof. rewrite range_perm. apply elem_of_map_to_list. Qed.

Lemma range_NoDup (m : gmap K loc) : NoDup (range m).*1.
Proof. rewrite range_perm. apply NoDup_fst_map_to_list. Qed.

Lemma expirationCheck_run (w : World) :
  valid w →
  let now := clock (ticks w) in
  ∃ d m es,
    expirationCheck w
    = Some (tt, {| heap := heap w; tbl := swept_tbl (tbl w) m d;
                   history := history w ++ CallExpirationCheck :: es;
                   ticks := S (ticks w) |})
    ∧ Forall (λ e, is_sweep_event e = true) es
    ∧ (∀ k p, m !! k = Some p → items (tbl w) !! k = Some p)
    ∧ (∀ k p, items (tbl w) !! k = Some p →
              m !! k = if expired_at now (heap w) p then None else Some p)
    ∧ 0 ≤ d
    ∧ (d = 0 ∨ ∃ k p, m !! k = Some p ∧ live now (heap w) p d)
    ∧ (∀ k p c, m !! k = Some p → live now (heap w) p c → 0 < d ≤ c).
Proof.
  intros Hv now.
  set (w2 := {| heap := heap w;
                tbl := with_cleanupTimer (Timer_Stop <$> cleanupTimer (tbl w)) (tbl w);
                history := history w ++ [CallExpirationCheck];
                ticks := S (ticks w) |}).
  destruct (sweep_run now (range (items (tbl w2))) 0 w2)
    as (d & m & es & Hrun & Hes & Hsub & Hexp & Hkeep & Hd & Hatt & Hlow & _).
  { apply range_NoDup. }
  { intros k p. apply range_elem. }
  { exact Hv. }
  { lia. }
  cbn in Hsub, Hexp, Hkeep, Hatt, Hlow.
  assert (Hlive : ∀ p c, live now (heap w) p c → expired_at now (heap w) p = false).
  { intros p c (it & Hit & _ & Hc & Hpos). unfold expired_at, expired.
    rewrite Hit. destruct (Z.leb_spec (curDuration now it) 0); [lia|].
    apply andb_false_r. }
  exists d, m, es. split.
  { unfold expirationCheck.
    erewrite bind_run by reflexivity.
    erewrite bind_run by reflexivity.
    erewrite bind_run by reflexivity.
    erewrite bind_run by reflexivity.
    erewrite bind_run by exact Hrun.
    erewrite bind_run by reflexivity.
    unfold swept_tbl. cbn. rewrite <- app_assoc. cbn.
    destruct (0 <? d); reflexivity. }
  split_and!; auto.
  - intros k p Hkp. destruct (expired_at now (heap w) p) eqn:Hx.
    + eapply Hexp; [|exact Hx]. apply range_elem. exact Hkp.
    + apply Hkeep; assumption.
  - destruct Hatt as [->|(k & p & Hkp%range_elem & Hl)]; [left; reflexivity|].
    right. exists k, p. split; [|exact Hl]. apply Hkeep; [exact Hkp|].
    eapply Hlive; eauto.
  - intros k p c Hm Hl. eapply Hlow; [|exact Hl].
    apply range_elem. apply Hsub. exact Hm.
Qed.

(** *** The remaining time in 64 bits *)

Lemma int64_small (z : Z) : in_int64 z → int64 z = z.
Proof.
  unfold in_int64, minDuration, maxDuration, int64. intros Hz.
  rewrite Z.mod_small; lia.
Qed.

(** A positive life span that has run out is seen as such by the sweep,
    whatever the clock. *)
Lemma curDuration_due (now : Time) (it : CacheItem) :
  in_int64 (lifeSpan it) → 0 < lifeSpan it →
  lifeSpan it - (now - accessedTime it) ≤ 0 →
  curDuration now it ≤ 0.
Proof.
  unfold curDuration, Time_Sub, in_int64, minDuration, maxDuration.
  intros Hr Hpos Hdue. rewrite int64_small.
  - lia.
  - unfold in_int64, minDuration, maxDuration. lia.
Qed.

(** For a positive life span and an access that is not in the future,
    the remaining time of an entry that stays is the mathematical one. *)
Lemma curDuration_exact (now : Time) (it : CacheItem) :
  in_int64 (lifeSpan it) → 0 < lifeSpan it → accessedTime it ≤ now →
  0 < curDuration now it →
  curDuration now it = lifeSpan it - (now - accessedTime it).
Proof.
  unfold curDuration, Time_Sub, in_int64, minDuration, maxDuration.
  intros Hr Hpos Hmono. rewrite int64_small.
  - lia.
  - unfold in_int64, minDuration, maxDuration. lia.
Qed.

Lemma expired_not_live (now : Time) (it : CacheItem) :
  lifeSpan it ≠ 0 → expired now it = false → 0 < curDuration now it.
Proof.
  unfold expired. intros Hn Hx.
  destruct (Z.eqb_spec (lifeSpan it) 0); [lia|].
  destruct (Z.leb_spec (curDuration now it) 0); [discriminate | lia].
Qed.

(** The sweep on any table.  A run of [expirationCheck] on a table whose
    pointers are valid completes and, with [now] the reading of the clock
    it takes: the entries removed are those whose life span is not 0 and
    whose remaining time, as the sweep computes it in 64 bits
    ([curDuration]), is not positive; every entry with a positive life
    span and [lifeSpan - (now - accessedTime) <= 0] is among them.
    [cleanupDuration] is the smallest [curDuration] over the entries that
    stay and whose life span is not 0, and 0 when there is none; for a
    positive life span and an access not later than [now], [curDuration]
    is [lifeSpan - (now - accessedTime)].  A timer is pending for exactly
    [cleanupDuration] if and only if it is positive. *)
Theorem expirationCheck_reconciles (w : World) :
  valid w →
  let now := clock (ticks w) in
  ∃ w', expirationCheck w = Some (tt, w')
    ∧ heap w' = heap w
    ∧ (∀ k p it, items (tbl w) !! k = Some p → heap w !! p = Some it →
         items (tbl w') !! k = if expired now it then None else Some p)
    ∧ (∀ k, items (tbl w) !! k = None → items (tbl w') !! k = None)
    ∧ (∀ k p it, items (tbl w) !! k = Some p → heap w !! p = Some it →
         in_int64 (lifeSpan it) → 0 < lifeSpan it →
         lifeSpan it - (now - accessedTime it) ≤ 0 →
         items (tbl w') !! k = None)
    ∧ ((∀ k it, ¬ time_bounded w' k it) → cleanupDuration (tbl w') = 0)
    ∧ (∀ k it, time_bounded w' k it →
         0 < cleanupDuration (tbl w') ≤ curDuration now it)
    ∧ (0 < cleanupDuration (tbl w') →
         ∃ k it, time_bounded w' k it
                 ∧ cleanupDuration (tbl w') = curDuration now it)
    ∧ (∀ k it, time_bounded w' k it → in_int64 (lifeSpan it) →
         0 < lifeSpan it → accessedTime it ≤ now →
         curDuration now it = lifeSpan it - (now - accessedTime it))
    ∧ armed (tbl w')
      = if 0 <? cleanupDuration (tbl w') then Some (cleanupDuration (tbl w'))
        else None.
Proof.
  intros Hv now.
  destruct (expirationCheck_run w Hv)
    as (d & m & es & Hrun & Hes & Hsub & Hitems & Hd & Hatt & Hlow).
  fold now in Hitems, Hatt, Hlow.
  eexists. split; [exact Hrun|]. cbn.
  assert (Hstay : ∀ k it, time_bounded
            {| heap := heap w; tbl := swept_tbl (tbl w) m d;
               history := history w ++ CallExpirationCheck :: es;
               ticks := S (ticks w) |} k it →
            ∃ p, m !! k = Some p ∧ live now (heap w) p (curDuration now it)).
  { intros k it (p & Hm & Hit & Hn). cbn in Hm, Hit. exists p. split; [exact Hm|].
    exists it. split_and!; auto. apply expired_not_live; [exact Hn|].
    specialize (Hitems k p (Hsub _ _ Hm)). unfold expired_at in Hitems.
    rewrite Hit in Hitems. destruct (expired now it); congruence. }
  split_and!.
  - reflexivity.
  - intros k p it Hk Hit. rewrite (Hitems k p Hk). unfold expired_at.
    rewrite Hit. reflexivity.
  - intros k Hk. destruct (m !! k) as [p|] eqn:Hm; [|reflexivity].
    apply Hsub in Hm. congruence.
  - intros k p it Hk Hit Hr Hpos Hdue. rewrite (Hitems k p Hk).
    unfold expired_at, expired. rewrite Hit.
    pose proof (curDuration_due now it Hr Hpos Hdue).
    destruct (Z.eqb_spec (lifeSpan it) 0); [lia|].
    destruct (Z.leb_spec (curDuration now it) 0); [reflexivity | lia].
  - intros Hnone. destruct Hatt as [->|(k & p & Hm & it & Hit & Hn & _)];
      [reflexivity|].
    exfalso. apply (Hnone k it). exists p. cbn. auto.
  - intros k it Htb. destruct (Hstay k it Htb) as (p & Hm & Hl). eauto.
  - intros Hpos. destruct Hatt as [->|(k & p & Hm & it & Hit & Hn & Hc & _)];
      [lia|].
    exists k, it. split; [|congruence]. exists p. cbn. auto.
  - intros k it Htb Hr Hpos Hmono.
    destruct (Hstay k it Htb) as (p & Hm & it' & _ & _ & _ & Hc).
    apply curDuration_exact; assumption.
  - unfold armed. cbn. destruct (Z.ltb_spec 0 d) as [Hpos|Hz]; [reflexivity|].
    destruct (cleanupTimer (tbl w)); reflexivity.
Qed.

(** On a table that holds no negative life span, and whose entries were
    accessed no later than the reading [now] of the clock, the sweep does
    what the specification says of it: every entry with a positive life
    span and no time left, [lifeSpan - (now - accessedTime) <= 0], has
    been removed; [cleanupDuration] is the smallest time left over the
    entries that stay and have a positive life span, and 0 when there is
    none; a timer is pending for exactly that duration if and only if it
    is positive. *)
Theorem expirationCheck_without_negative_lifeSpans (w : World) :
  valid w →
  let now := clock (ticks w) in
  let left_of (it : CacheItem) := lifeSpan it - (now - accessedTime it) in
  (∀ k p it, items (tbl w) !! k = Some p → heap w !! p = Some it →
             0 ≤ lifeSpan it ≤ maxDuration ∧ accessedTime it ≤ now) →
  ∃ w', expirationCheck w = Some (tt, w')
    ∧ (∀ k p it, items (tbl w) !! k = Some p → heap w !! p = Some it →
         0 < lifeSpan it → left_of it ≤ 0 → items (tbl w') !! k = None)
    ∧ ((∀ k p it, items (tbl w') !! k = Some p → heap w' !! p = Some it →
                  ¬ 0 < lifeSpan it) →
       cleanupDuration (tbl w') = 0)
    ∧ (∀ k p it, items (tbl w') !! k = Some p → heap w' !! p = Some it →
         0 < lifeSpan it → 0 < cleanupDuration (tbl w') ≤ left_of it)
    ∧ (0 < cleanupDuration (tbl w') →
         ∃ k p it, items (tbl w') !! k = Some p ∧ heap w' !! p = Some it
                   ∧ 0 < lifeSpan it
                   ∧ cleanupDuration (tbl w') = left_of it)
    ∧ armed (tbl w')
      = if 0 <? cleanupDuration (tbl w') then Some (cleanupDuration (tbl w'))
        else None.
Proof.
  intros Hv now left_of Hdata. subst left_of. cbn beta.
  destruct (expirationCheck_reconciles w Hv)
    as (w' & Hrun & Hheap & Hitems & Habsent & Hdue & Hnone & Hlow & Hatt
        & Hexact & Harmed).
  fold now in Hitems, Hdue, Hlow, Hatt, Hexact.
  assert (Hstay : ∀ k p it, items (tbl w') !! k = Some p →
            heap w' !! p = Some it →
            items (tbl w) !! k = Some p ∧ heap w !! p = Some it).
  { intros k p it Hk Hp. rewrite Hheap in Hp.
    destruct (items (tbl w) !! k) as [p0|] eqn:Hk0.
    - destruct (Hv k p0 Hk0) as [it0 Hit0].
      rewrite (Hitems k p0 it0 Hk0 Hit0) in Hk.
      destruct (expired now it0); [discriminate|]. injection Hk as ->. auto.
    - rewrite (Habsent k Hk0) in Hk. discriminate. }
  assert (Hrange : ∀ k p it, items (tbl w') !! k = Some p →
            heap w' !! p = Some it →
            in_int64 (lifeSpan it) ∧ 0 ≤ lifeSpan it ∧ accessedTime it ≤ now).
  { intros k p it Hk Hp. destruct (Hstay k p it Hk Hp) as [Hk0 Hp0].
    destruct (Hdata k p it Hk0 Hp0) as [Hls Hacc].
    unfold in_int64, minDuration. split_and!; lia. }
  exists w'. split; [exact Hrun|]. split_and!.
  - intros k p it Hk Hp Hpos Hleft. eapply Hdue; eauto.
    destruct (Hdata k p it Hk Hp) as [Hls _].
    unfold in_int64, minDuration. lia.
  - intros Hnopos. apply Hnone. intros k it (p & Hk & Hp & Hne).
    destruct (Hrange k p it Hk Hp) as (_ & Hls & _).
    apply (Hnopos k p it Hk Hp). lia.
  - intros k p it Hk Hp Hpos.
    destruct (Hrange k p it Hk Hp) as (Hin & _ & Hacc).
    assert (Htb : time_bounded w' k it) by (exists p; split_and!; auto; lia).
    rewrite <- (Hexact k it Htb Hin Hpos Hacc). exact (Hlow k it Htb).
  - intros Hcd. destruct (Hatt Hcd) as (k & it & Htb & Heq).
    pose proof Htb as (p & Hk & Hp & Hne).
    destruct (Hrange k p it Hk Hp) as (Hin & Hls & Hacc).
    exists k, p, it. split_and!; auto; [lia|].
    rewrite Heq. apply (Hexact k it Htb Hin); [lia | exact Hacc].
  - exact Harmed.
Qed.

(** C3. An entry whose life span is 0 is not removed by a run of
    [expirationCheck], whatever the table and whatever the time at which
    the sweep evaluates it: the run completes and the key still maps to
    the same item, unchanged; the table stays valid, so that the same
    holds of every later run. *)
Theorem expirationCheck_keeps_zero_lifeSpan
    (w : World) (k : K) (p : loc) (it : CacheItem) :
  valid w →
  items (tbl w) !! k = Some p →
  heap w !! p = Some it →
  lifeSpan it = 0 →
  ∃ w', expirationCheck w = Some (tt, w')
    ∧ items (tbl w') !! k = Some p
    ∧ heap w' !! p = Some it
    ∧ valid w'.
Proof.
  intros Hv Hk Hit Hz.
  destruct (expirationCheck_run w Hv)
    as (d & m & es & Hrun & Hes & Hsub & Hitems & _).
  eexists. split; [exact Hrun|]. cbn. split_and!.
  - rewrite (Hitems k p Hk). unfold expired_at, expired. rewrite Hit, Hz.
    reflexivity.
  - exact Hit.
  - intros k' p' Hm. cbn in Hm. apply Hsub in Hm. eapply Hv; eauto.
Qed.

(** *** Explicit deletion *)

Lemma all_before_none (P Q : Event → bool) (h : list Event) :
  Forall (λ e, P e = false) h → all_before P Q h = true.
Proof.
  induction h as [|e h IH]; intros Hh; cbn; [reflexivity|].
  apply Forall_cons in Hh as [_ Hh]. rewrite (IH Hh), andb_true_r.
  destruct (Q e); [|reflexivity].
  apply forallb_forall. intros e' Hin. rewrite Forall_forall in Hh.
  rewrite (Hh e'); [reflexivity | apply list_elem_of_In; exact Hin].
Qed.

Lemma all_before_app_r (P Q : Event → bool) (h1 h2 : list Event) :
  Forall (λ e, Q e = false) h1 →
  Forall (λ e, P e = false) h2 →
  all_before P Q (h1 ++ h2) = true.
Proof.
  intros H1 H2. induction H1 as [|e h1 He _ IH]; cbn.
  - apply all_before_none. exact H2.
  - rewrite He, IH. reflexivity.
Qed.

(** C4, as amended.  [Delete] of a key that is present completes and
    returns the item.  It calls every delete callback of the table once,
    in the order of the list, then every expiry callback of the entry
    once, in the order of the list, and only then removes the key from
    the map: no delete callback of the table comes after an expiry
    callback of the entry; the key is present before the call and absent
    after it. *)
Theorem Delete_present (w : World) (k : K) (p : loc) (it : CacheItem) :
  items (tbl w) !! k = Some p →
  heap w !! p = Some it →
  ∃ w', Delete k w = Some ((Some p, None), w')
    ∧ history w'
      = history w
        ++ map (λ cb, CallDeleted cb p) (deletedItem (tbl w))
        ++ map (λ cb, CallAboutToExpire cb k) (aboutToExpire it)
        ++ [MapDelete k]
    ∧ all_before is_delete_callback is_expire_callback
        (map (λ cb, CallDeleted cb p) (deletedItem (tbl w))
         ++ map (λ cb, CallAboutToExpire cb k) (aboutToExpire it)
         ++ [MapDelete k]) = true
    ∧ Exists k w = Some (true, w)
    ∧ Exists k w' = Some (false, w')
    ∧ items (tbl w') = delete k (items (tbl w))
    ∧ heap w' = heap w.
Proof.
  intros Hk Hit. eexists. split.
  { unfold Delete. apply deleteInternal_present; eassumption. }
  cbn. split_and!; try reflexivity.
  - apply all_before_app_r.
    + apply Forall_forall. intros e [cb [-> _]]%list_elem_of_fmap. reflexivity.
    + apply Forall_app. split; [|repeat constructor].
      apply Forall_forall. intros e [cb [-> _]]%list_elem_of_fmap. reflexivity.
  - unfold Exists, gets. rewrite Hk. reflexivity.
  - unfold Exists, gets. cbn. rewrite lookup_delete_eq. reflexivity.
Qed.

(** *** Insertion *)

Lemma addInternal_run (p : loc) (it : CacheItem) (w : World) :
  heap w !! p = Some it →
  addInternal p w
  = (if (0 <? lifeSpan it)
        && ((cleanupDuration (tbl w) =? 0)
            || (lifeSpan it <? cleanupDuration (tbl w)))
     then expirationCheck else ret tt)
      {| heap := heap w;
         tbl := with_items (<[key it := p]> (items (tbl w))) (tbl w);
         history := history w ++ MapStore (key it) p
                      :: map (λ cb, CallAdded cb p) (addedItem (tbl w));
         ticks := ticks w |}.
Proof.
  intros Hit. unfold addInternal.
  erewrite bind_run by (apply deref_run; exact Hit).
  erewrite bind_run by reflexivity.
  erewrite bind_run by reflexivity.
  erewrite bind_run by reflexivity.
  erewrite bind_run by reflexivity.
  erewrite bind_run by apply for_each_emit.
  erewrite bind_run by (apply deref_run; exact Hit).
  cbn. unfold add_events. cbn. rewrite <- app_assoc. reflexivity.
Qed.

Lemma Add_run (k : K) (d : V) (ls : Duration) (w : World) :
  Add k d ls w
  = if add_triggers ls w
    then bind expirationCheck (λ _, ret (fresh (dom (heap w))))
           (inserted k d ls w)
    else Some (fresh (dom (heap w)), inserted k d ls w).
Proof.
  unfold Add, NewCacheItem.
  erewrite bind_run; [|erewrite bind_run by reflexivity; reflexivity].
  unfold bind at 1.
  erewrite addInternal_run by (cbn; apply lookup_insert_eq).
  unfold add_triggers, inserted. cbn.
  destruct ((0 <? ls)
            && ((cleanupDuration (tbl w) =? 0)
                || (ls <? cleanupDuration (tbl w)))); reflexivity.
Qed.

Lemma valid_inserted (k : K) (d : V) (ls : Duration) (w : World) :
  valid w → valid (inserted k d ls w).
Proof.
  intros Hv k' p'. unfold inserted. cbn. intros Hk'.
  apply lookup_insert_Some in Hk' as [[<- <-]|[Hne Hk']].
  - rewrite lookup_insert_eq. eauto.
  - destruct (Hv _ _ Hk') as [it Hit].
    rewrite lookup_insert_ne; [eauto|].
    intros <-. apply (is_fresh (dom (heap w))).
    apply elem_of_dom. eauto.
Qed.

Lemma checks_app (h1 h2 : list Event) :
  checks (h1 ++ h2) = (checks h1 + checks h2)%nat.
Proof. unfold checks. rewrite filter_app, length_app. reflexivity. Qed.

Lemma checks_none (P : Event → bool) (h : list Event) :
  (∀ e, P e = true → is_check e = false) →
  Forall (λ e, P e = true) h → checks h = 0%nat.
Proof.
  intros HP Hh. unfold checks. induction Hh as [|e h He _ IH]; [reflexivity|].
  rewrite filter_cons. destruct (decide (is_check e)) as [Hc|Hc]; [|exact IH].
  rewrite (HP e He) in Hc. destruct Hc.
Qed.

Lemma checks_inserted (k : K) (d : V) (ls : Duration) (w : World) :
  checks (history (inserted k d ls w)) = checks (history w).
Proof.
  unfold inserted. cbn [history]. rewrite checks_app.
  match goal with |- (_ + checks ?h)%nat = _ =>
    rewrite (checks_none (λ e, negb (is_check e)) h); [lia| |] end.
  - intros e. destruct (is_check e); [discriminate | reflexivity].
  - constructor; [reflexivity|].
    apply Forall_forall. intros e [cb [-> _]]%list_elem_of_fmap. reflexivity.
Qed.

(** C2, as amended. [Add] on a valid table completes, and it enters
    [expirationCheck], once, if and only if the life span is positive and
    either [cleanupDuration] is 0 (no timer armed) or the life span is
    smaller than [cleanupDuration], the duration the pending timer was
    armed for; in every other case no run of [expirationCheck] takes
    place.  On a table as [expirationCheck] and [Flush] leave it, where a
    timer is pending exactly when [cleanupDuration] is positive and then
    for that duration, the condition reads: the life span is positive and
    either no timer is pending or the life span is smaller than the
    duration of the pending timer. *)
Theorem Add_triggers_expirationCheck (k : K) (d : V) (ls : Duration) (w : World) :
  valid w →
  ∃ p w', Add k d ls w = Some (p, w')
    ∧ (0 < ls ∧ (cleanupDuration (tbl w) = 0 ∨ ls < cleanupDuration (tbl w)) →
       checks (history w') = S (checks (history w)))
    ∧ (¬ (0 < ls ∧ (cleanupDuration (tbl w) = 0 ∨ ls < cleanupDuration (tbl w))) →
       checks (history w') = checks (history w))
    ∧ (armed (tbl w)
       = (if 0 <? cleanupDuration (tbl w) then Some (cleanupDuration (tbl w))
          else None) →
       0 ≤ cleanupDuration (tbl w) →
       (0 < ls ∧ (cleanupDuration (tbl w) = 0 ∨ ls < cleanupDuration (tbl w)))
       ↔ (0 < ls ∧ (armed (tbl w) = None
                    ∨ ∃ d', armed (tbl w) = Some d' ∧ ls < d'))).
Proof.
  intros Hv. rewrite Add_run.
  assert (Harm : armed (tbl w)
       = (if 0 <? cleanupDuration (tbl w) then Some (cleanupDuration (tbl w))
          else None) →
       0 ≤ cleanupDuration (tbl w) →
       (0 < ls ∧ (cleanupDuration (tbl w) = 0 ∨ ls < cleanupDuration (tbl w)))
       ↔ (0 < ls ∧ (armed (tbl w) = None
                    ∨ ∃ d', armed (tbl w) = Some d' ∧ ls < d'))).
  { intros -> Hcd. destruct (Z.ltb_spec 0 (cleanupDuration (tbl w))) as [Hpos|Hz].
    - split; intros [Hls [Hc|Hc]]; (split; [exact Hls|]);
        try lia; try discriminate.
      + right. eexists. split; [reflexivity | exact Hc].
      + destruct Hc as (d' & [= <-] & Hlt). right. exact Hlt.
    - split; intros [Hls _]; (split; [exact Hls|]); left; [reflexivity | lia]. }
  assert (Hc : add_triggers ls w = true
               ↔ 0 < ls ∧ (cleanupDuration (tbl w) = 0
                           ∨ ls < cleanupDuration (tbl w))).
  { unfold add_triggers.
    destruct (Z.ltb_spec 0 ls); destruct (Z.eqb_spec (cleanupDuration (tbl w)) 0);
      destruct (Z.ltb_spec ls (cleanupDuration (tbl w))); cbn; intuition (try lia; try discriminate). }
  destruct (add_triggers ls w).
  - destruct (expirationCheck_run _ (valid_inserted k d ls w Hv))
      as (d' & m & es & Hrun & Hes & _).
    erewrite bind_run by exact Hrun.
    eexists _, _. split; [reflexivity|]. cbn [history]. split_and!; [| |exact Harm].
    + intros _. rewrite checks_app, checks_inserted.
      change (CallExpirationCheck :: es) with ([CallExpirationCheck] ++ es).
      rewrite checks_app, (checks_none is_sweep_event es); [| |exact Hes].
      * replace (checks [CallExpirationCheck]) with 1%nat by reflexivity. lia.
      * intros [] ?; (reflexivity || discriminate).
    + intros Hn. exfalso. apply Hn, Hc. reflexivity.
  - eexists _, _. split; [reflexivity|]. split_and!; [| |exact Harm].
    + intros Hy. apply Hc in Hy. discriminate.
    + intros _. apply checks_inserted.
Qed.

(** What [Add] leaves: the new item, the history, and the entry under
    the key, which the sweep that [Add] may trigger removes at once when
    the item is already due at the reading of the clock the sweep takes. *)
Lemma Add_result (k : K) (d : V) (ls : Duration) (w : World) :
  valid w →
  let p := fresh (dom (heap w)) in
  let it := new_item (clock (ticks w)) k d ls in
  ∃ w' es, Add k d ls w = Some (p, w')
    ∧ heap w !! p = None
    ∧ heap w' = <[p := it]> (heap w)
    ∧ history w' = history w ++ MapStore k p :: es
    ∧ Forall (λ e, is_load e = false) es
    ∧ items (tbl w') !! k
      = (if add_triggers ls w && expired (clock (S (ticks w))) it
         then None else Some p)
    ∧ (∀ k', items (tbl w) !! k' = None → k' ≠ k → items (tbl w') !! k' = None).
Proof.
  intros Hv p it. rewrite Add_run.
  assert (Hfresh : heap w !! p = None).
  { apply not_elem_of_dom. apply is_fresh. }
  assert (Hadded : Forall (λ e, is_load e = false)
                     (map (λ cb, CallAdded cb p) (addedItem (tbl w)))).
  { apply Forall_forall. intros e [cb [-> _]]%list_elem_of_fmap. reflexivity. }
  destruct (add_triggers ls w).
  - destruct (expirationCheck_run _ (valid_inserted k d ls w Hv))
      as (d' & m & es & Hrun & Hes & Hsub & Hitems & _).
    erewrite bind_run by exact Hrun.
    eexists _, (map (λ cb, CallAdded cb p) (addedItem (tbl w))
                ++ CallExpirationCheck :: es).
    split; [reflexivity|]. cbn. split_and!; auto.
    + rewrite <- app_assoc. reflexivity.
    + apply Forall_app. split; [exact Hadded|]. constructor; [reflexivity|].
      eapply Forall_impl; [exact Hes|]. intros [] ?; (reflexivity || discriminate).
    + rewrite (Hitems k p) by (cbn; apply lookup_insert_eq).
      unfold expired_at, inserted. cbn. rewrite lookup_insert_eq. reflexivity.
    + intros k' Hk' Hne. destruct (m !! k') as [q|] eqn:Hm; [|reflexivity].
      apply Hsub in Hm. cbn in Hm. rewrite lookup_insert_ne in Hm by auto.
      congruence.
  - eexists _, _. split; [reflexivity|]. cbn. split_and!; auto.
    + apply lookup_insert_eq.
    + intros k' Hk' Hne. rewrite lookup_insert_ne by auto. exact Hk'.
Qed.

(** A new item is not due at the first sweep when less than its life
    span has passed between the two readings of the clock. *)
Lemma new_item_not_expired (t t' : Time) (k : K) (d : V) (ls : Duration) (w : World) :
  ls ≤ 0 ∨ (in_int64 ls ∧ 0 ≤ t' - t < ls) →
  add_triggers ls w && expired t' (new_item t k d ls) = false.
Proof.
  intros [Hle|[Hr Hlt]].
  - unfold add_triggers. destruct (Z.ltb_spec 0 ls); [lia | reflexivity].
  - apply andb_false_iff. right. unfold expired, curDuration, Time_Sub. cbn.
    unfold in_int64, minDuration, maxDuration in *.
    rewrite int64_small by (unfold in_int64, minDuration, maxDuration; lia).
    apply andb_false_iff. right. apply Z.leb_gt. lia.
Qed.

Lemma NotFoundAdd_absent (k : K) (ls : Duration) (d : V) (w : World) :
  items (tbl w) !! k = None →
  NotFoundAdd k ls d w = bind (Add k d ls) (λ _, ret true) w.
Proof.
  intros Hk. unfold NotFoundAdd. erewrite bind_run by reflexivity. rewrite Hk.
  unfold Add, bind, ret. destruct (NewCacheItem k d ls w) as [[q w1]|]; [|reflexivity].
  destruct (addInternal q w1) as [[[] w2]|]; reflexivity.
Qed.

(** C7. [NotFoundAdd] of a key that is present returns false and changes
    nothing: not the entry map, and nothing is added to the history, so
    the loader is not called.  On a valid table, [NotFoundAdd] of a key
    that is absent returns true; it stores under that key a new item with
    exactly that key, data and life span, without calling the loader.
    The entry is there when the call returns unless the sweep triggered
    by the insertion found it already due, which does not happen when the
    life span is not positive, or is larger than the time between the two
    readings of the clock. *)
Theorem NotFoundAdd_spec (k : K) (ls : Duration) (d : V) (w : World) :
  (∀ q, items (tbl w) !! k = Some q → NotFoundAdd k ls d w = Some (false, w))
  ∧ (valid w → items (tbl w) !! k = None →
     ∃ p w' es, NotFoundAdd k ls d w = Some (true, w')
       ∧ heap w !! p = None
       ∧ heap w' = <[p := new_item (clock (ticks w)) k d ls]> (heap w)
       ∧ history w' = history w ++ MapStore k p :: es
       ∧ Forall (λ e, is_load e = false) es
       ∧ items (tbl w') !! k
         = (if add_triggers ls w
               && expired (clock (S (ticks w))) (new_item (clock (ticks w)) k d ls)
            then None else Some p)
       ∧ (ls ≤ 0 ∨ (in_int64 ls ∧ 0 ≤ clock (S (ticks w)) - clock (ticks w) < ls) →
          items (tbl w') !! k = Some p)).
Proof.
  split.
  - intros q Hq. unfold NotFoundAdd. erewrite bind_run by reflexivity.
    rewrite Hq. reflexivity.
  - intros Hv Hk. rewrite (NotFoundAdd_absent _ _ _ _ Hk).
    destruct (Add_result k d ls w Hv) as (w' & es & Hrun & Hf & Hh & Hhist & Hes & Hit & _).
    exists (fresh (dom (heap w))), w', es.
    erewrite bind_run by exact Hrun. split; [reflexivity|].
    split_and!; auto.
    intros Hc. rewrite Hit, new_item_not_expired by exact Hc. reflexivity.
Qed.

(** *** Lookup *)

Lemma KeepAlive_run (ci : loc) (it : CacheItem) (w : World) :
  heap w !! ci = Some it →
  KeepAlive ci w
  = Some (tt, {| heap := <[ci := set_accessedTime (clock (ticks w))
                                   (bump_accessCount it)]> (heap w);
                 tbl := tbl w; history := history w;
                 ticks := S (ticks w) |}).
Proof.
  intros Hit. unfold KeepAlive.
  erewrite bind_run by (apply deref_run; exact Hit).
  erewrite bind_run by reflexivity.
  erewrite bind_run by reflexivity.
  erewrite bind_run by (apply deref_run; cbn; apply lookup_insert_eq).
  unfold store, modify, with_heap. cbn. rewrite insert_insert_eq. reflexivity.
Qed.

Lemma bind_ret_inv {A B} (m : M A) (b r : B) (w w' : World) :
  bind m (λ _, ret b) w = Some (r, w') → r = b.
Proof.
  unfold bind, ret. destruct (m w) as [[a w1]|]; [|discriminate].
  intros [= <- _]. reflexivity.
Qed.

(** C5. [Value] returns [ErrCacheNotFound] exactly when the key is absent
    and no loader is set, and [ErrCacheNotFoundOrLoadable] exactly when
    the key is absent, a loader is set and the loader returns nil; in
    these two cases the call completes and the entry map is the one
    before the call. *)
Theorem Value_errors (k : K) (args : list Arg) (w : World) :
  (items (tbl w) !! k = None → loadData (tbl w) = None →
   Value k args w = Some ((None, Some ErrCacheNotFound), w))
  ∧ (∀ f h', items (tbl w) !! k = None → loadData (tbl w) = Some f →
       f k args (heap w) = (None, h') →
       ∃ w', Value k args w = Some ((None, Some ErrCacheNotFoundOrLoadable), w')
             ∧ items (tbl w') = items (tbl w))
  ∧ (∀ r w', Value k args w = Some (r, w') →
       (r.2 = Some ErrCacheNotFound
        ↔ items (tbl w) !! k = None ∧ loadData (tbl w) = None)
       ∧ (r.2 = Some ErrCacheNotFoundOrLoadable
          ↔ items (tbl w) !! k = None
            ∧ ∃ f, loadData (tbl w) = Some f ∧ (f k args (heap w)).1 = None)
       ∧ (r.2 ≠ None → items (tbl w') = items (tbl w))).
Proof.
  split_and!.
  - intros Hk Hl. unfold Value. erewrite bind_run by reflexivity.
    rewrite Hk, Hl. reflexivity.
  - intros f h' Hk Hl Hf. eexists. unfold Value.
    erewrite bind_run by reflexivity. rewrite Hk, Hl.
    unfold call_loader. erewrite bind_run.
    2:{ erewrite bind_run by reflexivity. cbn. rewrite Hf. reflexivity. }
    split; reflexivity.
  - intros r w'. unfold Value. erewrite bind_run by reflexivity.
    destruct (items (tbl w) !! k) as [q|] eqn:Hk.
    { intros Hr. apply bind_ret_inv in Hr. subst r. cbn.
      split_and!; [split|split|]; try congruence.
      - intros [? _]. discriminate.
      - intros [? _]. discriminate. }
    destruct (loadData (tbl w)) as [f|] eqn:Hl.
    2:{ intros [= <- <-]. cbn. split_and!; [split|split|]; auto; try congruence.
        intros (_ & f & ? & _). discriminate. }
    unfold call_loader.
    destruct (f k args (heap w)) as [[pl|] h'] eqn:Hf; cbn [fst];
      (erewrite bind_run;
       [|erewrite bind_run by reflexivity; cbn; rewrite Hf; reflexivity]).
    + intros Hr.
      assert (r = (Some pl, None)) as ->.
      { unfold bind at 1 in Hr.
        destruct (deref pl _) as [[it w1]|]; [|discriminate].
        apply bind_ret_inv in Hr. exact Hr. }
      cbn. split_and!; [split|split|]; try congruence.
      * intros [_ ?]. discriminate.
      * intros (_ & f' & [= <-] & Hn). rewrite Hf in Hn. discriminate.
    + intros [= <- <-]. cbn. split_and!; [split|split|]; auto; try congruence.
      * intros [_ ?]. discriminate.
      * intros _. split; [reflexivity|]. exists f. rewrite Hf. auto.
Qed.

(** C10. On a miss for which the loader returns an item, [Value] on a
    table that is valid after the loader has run completes and returns
    the item of the loader itself.  What it stores is another item, at a
    location that was not in use, under the key that was asked for: its
    key is that key, its data and life span are those of the item of the
    loader, its access count is 0, its creation and access times are the
    reading of the clock at the insertion and its list of expiry
    callbacks is empty.  The item of the loader is left as it was, and the
    entry under the key is never the item that is returned. *)
Theorem Value_loaded
    (k : K) (args : list Arg) (w : World) (f : Loader)
    (pl : loc) (h' : gmap loc CacheItem) (itl : CacheItem) :
  items (tbl w) !! k = None →
  loadData (tbl w) = Some f →
  f k args (heap w) = (Some pl, h') →
  h' !! pl = Some itl →
  valid (with_heap h' w) →
  let stored := new_item (clock (ticks w)) k (data itl) (lifeSpan itl) in
  ∃ p w' es, Value k args w = Some ((Some pl, None), w')
    ∧ p ≠ pl
    ∧ h' !! p = None
    ∧ heap w' = <[p := stored]> h'
    ∧ heap w' !! pl = Some itl
    ∧ history w' = history w ++ CallLoadData k args :: MapStore k p :: es
    ∧ items (tbl w') !! k
      = (if add_triggers (lifeSpan itl) w
            && expired (clock (S (ticks w))) stored
         then None else Some p)
    ∧ (lifeSpan itl ≤ 0
       ∨ (in_int64 (lifeSpan itl)
          ∧ 0 ≤ clock (S (ticks w)) - clock (ticks w) < lifeSpan itl) →
       items (tbl w') !! k = Some p)
    ∧ items (tbl w') !! k ≠ Some pl.
Proof.
  intros Hk Hl Hf Hitl Hv stored.
  set (w1 := {| heap := h'; tbl := tbl w;
                history := history w ++ [CallLoadData k args];
                ticks := ticks w |}).
  destruct (Add_result k (data itl) (lifeSpan itl) w1 Hv)
    as (w' & es & Hrun & Hfresh & Hh & Hhist & Hes & Hit & _).
  cbn in Hrun, Hfresh, Hh, Hhist, Hit.
  assert (Hne : fresh (dom h') ≠ pl) by congruence.
  exists (fresh (dom h')), w', es. split.
  { unfold Value. erewrite bind_run by reflexivity. rewrite Hk, Hl.
    unfold call_loader. erewrite bind_run.
    2:{ erewrite bind_run by reflexivity. cbn. rewrite Hf. reflexivity. }
    cbn beta iota.
    erewrite bind_run by (apply deref_run; exact Hitl).
    erewrite bind_run by exact Hrun. reflexivity. }
  split_and!; auto.
  - rewrite Hh, lookup_insert_ne by exact Hne. exact Hitl.
  - rewrite Hhist, <- app_assoc. reflexivity.
  - intros Hc. rewrite Hit.
    change (add_triggers (lifeSpan itl) w1) with (add_triggers (lifeSpan itl) w).
    rewrite new_item_not_expired by exact Hc. reflexivity.
  - rewrite Hit. destruct (_ && _); congruence.
Qed.

(** *** The lock of an entry *)

Lemma entry_step_invariant (it0 : CacheItem) (e : CacheItem * RWMutex) :
  rtc entry_step (it0, Unlocked) e →
  match e.2 with
  | Locked AfterIncrement =>
      ∃ it1, rtc kept_alive it0 it1 ∧ e.1 = bump_accessCount it1
  | _ => rtc kept_alive it0 e.1
  end.
Proof.
  revert e. apply rtc_ind_r.
  - cbn. constructor.
  - intros e1 e2 _ Hstep IH. inversion Hstep; subst; cbn in *; eauto.
    destruct IH as (it1 & Hk & ->).
    eapply rtc_r; [exact Hk|]. exists now. reflexivity.
Qed.

(** C6. [KeepAlive] on an entry completes; it adds one to the access
    count (in [int64]: exactly one whenever the sum fits) and sets the
    access time to the reading of the clock, and it leaves the key, the
    data, the life span, the creation time and the list of expiry
    callbacks as they were, as well as the table and the history.  Under
    the lock of the entry the two assignments are one step for every
    reader: in every interleaving of runs of [KeepAlive] and of readers,
    whenever the lock is not held by [KeepAlive] the item is the result of
    a whole number of calls. *)
Theorem KeepAlive_spec (ci : loc) (it : CacheItem) (w : World) :
  heap w !! ci = Some it →
  ∃ w' it',
    KeepAlive ci w = Some (tt, w')
    ∧ heap w' = <[ci := it']> (heap w)
    ∧ accessCount it' = int64 (accessCount it + 1)
    ∧ (in_int64 (accessCount it + 1) → accessCount it' = accessCount it + 1)
    ∧ accessedTime it' = clock (ticks w)
    ∧ key it' = key it
    ∧ data it' = data it
    ∧ lifeSpan it' = lifeSpan it
    ∧ createTime it' = createTime it
    ∧ aboutToExpire it' = aboutToExpire it
    ∧ tbl w' = tbl w
    ∧ history w' = history w
    ∧ kept_alive it it'
    ∧ (∀ it1 mu, rtc entry_step (it, Unlocked) (it1, mu) →
         (∀ pc, mu ≠ Locked pc) → rtc kept_alive it it1).
Proof.
  intros Hit. eexists _, _. split; [apply KeepAlive_run; exact Hit|].
  cbn. split_and!; try reflexivity.
  - apply int64_small.
  - exists (clock (ticks w)). reflexivity.
  - intros it1 mu Hr Hmu. apply entry_step_invariant in Hr. cbn in Hr.
    destruct mu as [| |[]]; auto. exfalso. eapply Hmu. reflexivity.
Qed.

(** *** Ranking *)

(** [sort.Sort] permutes the slice and leaves it sorted for [Less]: no
    element is [Less] than an element before it. *)
Hypothesis sort_perm : ∀ l, sort_Sort l ≡ₚ l.
Hypothesis sort_sorted :
  ∀ l, StronglySorted (λ a b, Less b a = false) (sort_Sort l).

Lemma snapshot_run (l : list (K * loc)) (w : World) :
  (∀ kv, kv ∈ l → is_Some (heap w !! kv.2)) →
  snapshot l w = Some (pair_of (heap w) <$> l, w).
Proof.
  induction l as [|kv l IH]; intros Hl; cbn [snapshot fmap list_fmap].
  - reflexivity.
  - destruct (Hl kv) as [it Hit]; [left|].
    erewrite bind_run by (apply deref_run; exact Hit).
    erewrite bind_run by (apply IH; intros kv' Hkv'; apply Hl; right; exact Hkv').
    unfold ret, pair_of, accessCount_at. rewrite Hit. reflexivity.
Qed.

Lemma collect_run (count : Z) (p : list CacheItemPair) :
  ∀ (c : Z) (r : list loc) (w : World),
    collect count c p r w
    = Some (r ++ omap (λ v, items (tbl w) !! Key v)
                   (take (Z.to_nat (count - c)) p), w).
Proof.
  induction p as [|v p IH]; intros c r w; cbn [collect].
  - rewrite take_nil. cbn. rewrite app_nil_r. reflexivity.
  - destruct (Z.leb_spec count c) as [Hle|Hlt].
    + replace (Z.to_nat (count - c)) with 0%nat by lia. cbn.
      rewrite app_nil_r. reflexivity.
    + erewrite bind_run by reflexivity. rewrite IH.
      replace (Z.to_nat (count - c)) with (S (Z.to_nat (count - (c + 1)))) by lia.
      cbn. destruct (items (tbl w) !! Key v); [|reflexivity].
      rewrite <- app_assoc. reflexivity.
Qed.

Lemma MostAccessed_run (count : Z) (w : World) :
  valid w →
  MostAccessed count w
  = Some (omap (λ v, items (tbl w) !! Key v)
            (take (Z.to_nat count)
               (sort_Sort (pair_of (heap w) <$> range (items (tbl w))))), w).
Proof.
  intros Hv. unfold MostAccessed.
  erewrite bind_run by reflexivity.
  erewrite bind_run.
  2:{ apply snapshot_run. intros [k p] Hkp%range_elem. eapply Hv; eauto. }
  rewrite collect_run. cbn. rewrite Z.sub_0_r. reflexivity.
Qed.

Lemma StronglySorted_lookup {A} (R : relation A) (l : list A) (i j : nat) (x y : A) :
  StronglySorted R l → (i < j)%nat → l !! i = Some x → l !! j = Some y → R x y.
Proof.
  intros Hl. revert i j. induction Hl as [|a l _ IH Hall]; intros i j Hij Hi Hj.
  - rewrite lookup_nil in Hi. discriminate.
  - destruct j as [|j]; [lia|]. cbn in Hj. destruct i as [|i]; cbn in Hi.
    + injection Hi as <-. rewrite Forall_forall in Hall. apply Hall.
      eapply list_elem_of_lookup_2; eauto.
    + eapply (IH i j); eauto. lia.
Qed.

Lemma sorted_pairs (w : World) (v : CacheItemPair) :
  v ∈ sort_Sort (pair_of (heap w) <$> range (items (tbl w))) ↔
  ∃ p, items (tbl w) !! Key v = Some p ∧ AccessCount v = accessCount_at (heap w) p.
Proof.
  rewrite sort_perm, list_elem_of_fmap. split.
  - intros ([k p] & -> & Hkp%range_elem). exists p. cbn. auto.
  - intros (p & Hk & Hc). exists (Key v, p). split.
    + destruct v. cbn in *. unfold pair_of. cbn. congruence.
    + apply range_elem. exact Hk.
Qed.

Lemma sorted_keys_NoDup (w : World) :
  NoDup (Key <$> sort_Sort (pair_of (heap w) <$> range (items (tbl w)))).
Proof.
  rewrite sort_perm, <- list_fmap_compose.
  replace (Key ∘ pair_of (heap w)) with (fst : K * loc → K) by reflexivity.
  apply range_NoDup.
Qed.

Lemma omap_total {A B} (f : A → option B) (l : list A) :
  (∀ x, x ∈ l → is_Some (f x)) →
  Forall2 (λ x y, f x = Some y) l (omap f l).
Proof.
  induction l as [|x l IH]; intros Hl; cbn.
  - constructor.
  - destruct (Hl x) as [y Hy]; [left|]. rewrite Hy. constructor; [exact Hy|].
    apply IH. intros x' Hx'. apply Hl. right. exact Hx'.
Qed.

Lemma MostAccessed_ranking (count : Z) (w : World) :
  valid w →
  0 ≤ count →
  ∃ r ks, MostAccessed count w = Some (r, w)
    ∧ Z.of_nat (length r) ≤ count
    ∧ length r = Nat.min (Z.to_nat count) (size (items (tbl w)))
    ∧ NoDup ks
    ∧ Forall2 (λ k p, items (tbl w) !! k = Some p) ks r
    ∧ (∀ i j pi pj, (i ≤ j)%nat → r !! i = Some pi → r !! j = Some pj →
         accessCount_at (heap w) pj ≤ accessCount_at (heap w) pi)
    ∧ (∀ k p q, items (tbl w) !! k = Some p → k ∉ ks → q ∈ r →
         accessCount_at (heap w) p ≤ accessCount_at (heap w) q).
Proof.
  intros Hv Hcount. rewrite (MostAccessed_run count w Hv).
  set (sorted := sort_Sort (pair_of (heap w) <$> range (items (tbl w)))).
  set (n := Z.to_nat count).
  set (sel := take n sorted).
  set (r := omap (λ v, items (tbl w) !! Key v) sel).
  assert (Hsel : ∀ v, v ∈ sel → v ∈ sorted).
  { intros v (i & Hi & _)%elem_of_take. eapply list_elem_of_lookup_2; eauto. }
  assert (Hr : Forall2 (λ v p, items (tbl w) !! Key v = Some p) sel r).
  { apply omap_total. intros v Hvs%Hsel. apply sorted_pairs in Hvs as (p & Hp & _).
    eauto. }
  assert (Hcnt : ∀ v p, v ∈ sorted → items (tbl w) !! Key v = Some p →
                        AccessCount v = accessCount_at (heap w) p).
  { intros v p Hvs Hp. apply sorted_pairs in Hvs as (p' & Hp' & Hc). congruence. }
  assert (Hlen : length r = Nat.min n (size (items (tbl w)))).
  { rewrite <- (Forall2_length _ _ _ Hr). unfold sel. rewrite length_take.
    unfold sorted. rewrite sort_perm, length_fmap, range_perm, length_map_to_list.
    reflexivity. }
  assert (Hss : StronglySorted (λ a b, Less b a = false) sorted)
    by apply sort_sorted.
  exists r, (Key <$> sel). split; [reflexivity|]. split_and!.
  - rewrite Hlen. lia.
  - exact Hlen.
  - unfold sel. rewrite fmap_take.
    eapply sublist_NoDup; [apply sorted_keys_NoDup | apply sublist_take].
  - apply Forall2_fmap_l. exact Hr.
  - intros i j pi pj Hij Hi Hj.
    destruct (Forall2_lookup_r _ _ _ _ _ Hr Hi) as (vi & Hvi & Hpi).
    destruct (Forall2_lookup_r _ _ _ _ _ Hr Hj) as (vj & Hvj & Hpj).
    apply lookup_take_Some in Hvi as [Hvi Hin].
    apply lookup_take_Some in Hvj as [Hvj Hjn].
    rewrite <- (Hcnt vi pi), <- (Hcnt vj pj);
      eauto using list_elem_of_lookup_2.
    destruct (decide (i = j)) as [->|Hne]; [assert (vi = vj) by congruence; subst; lia|].
    assert (Hlt : (i < j)%nat) by lia.
    pose proof (StronglySorted_lookup _ _ _ _ _ _ Hss Hlt Hvi Hvj) as HR.
    unfold Less in HR. apply Z.ltb_ge in HR. exact HR.
  - intros k p q Hk Hnk Hq.
    apply list_elem_of_lookup_1 in Hq as [i Hi].
    destruct (Forall2_lookup_r _ _ _ _ _ Hr Hi) as (vi & Hvi & Hpi).
    assert (Hv0 : {| Key := k; AccessCount := accessCount_at (heap w) p |} ∈ sorted).
    { apply sorted_pairs. exists p. cbn. auto. }
    rewrite <- (take_drop n sorted) in Hv0, Hss. fold sel in Hv0, Hss.
    apply elem_of_app in Hv0 as [Hv0|Hv0].
    { exfalso. apply Hnk. apply list_elem_of_fmap. eexists. split; [|exact Hv0].
      reflexivity. }
    pose proof (StronglySorted_app_1_elem_of _ _ _ _ _ Hss
                  (list_elem_of_lookup_2 _ _ _ Hvi) Hv0) as HR.
    unfold Less in HR. cbn in HR. apply Z.ltb_ge in HR.
    rewrite <- (Hcnt vi q); [exact HR| |exact Hpi].
    apply Hsel. eapply list_elem_of_lookup_2; eauto.
Qed.

(** C8. On a valid table and for a limit that is not negative,
    [MostAccessed] completes without changing anything and returns at most
    [count] items, as many as the limit and the size of the table allow,
    each of them the item of a key of the table (of distinct keys), in an
    order in which the access counts do not increase; no entry that is
    left out has an access count greater than that of an item that is
    returned.  With the three entries A, B, C of access counts 5, 1, 3,
    [MostAccessed 2] returns the item of A, then the item of C. *)
Theorem MostAccessed_spec (w : World) :
  valid w →
  (∀ count, 0 ≤ count →
     ∃ r ks, MostAccessed count w = Some (r, w)
       ∧ Z.of_nat (length r) ≤ count
       ∧ length r = Nat.min (Z.to_nat count) (size (items (tbl w)))
       ∧ NoDup ks
       ∧ Forall2 (λ k p, items (tbl w) !! k = Some p) ks r
       ∧ (∀ i j pi pj, (i ≤ j)%nat → r !! i = Some pi → r !! j = Some pj →
            accessCount_at (heap w) pj ≤ accessCount_at (heap w) pi)
       ∧ (∀ k p q, items (tbl w) !! k = Some p → k ∉ ks → q ∈ r →
            accessCount_at (heap w) p ≤ accessCount_at (heap w) q))
  ∧ (∀ A B C pa pb pc,
       items (tbl w) = <[A := pa]> (<[B := pb]> (<[C := pc]> ∅)) →
       A ≠ B → A ≠ C → B ≠ C →
       accessCount_at (heap w) pa = 5 →
       accessCount_at (heap w) pb = 1 →
       accessCount_at (heap w) pc = 3 →
       MostAccessed 2 w = Some ([pa; pc], w)).
Proof.
  intros Hv. split.
  { intros count Hcount. apply MostAccessed_ranking; assumption. }
  intros A B C pa pb pc Hitems HAB HAC HBC Ha Hb Hc.
  destruct (MostAccessed_ranking 2 w Hv) as (r & ks & Hrun & _ & Hlen & Hnd & Hks & Hsort & Hout);
    [lia|].
  rewrite Hrun. f_equal. f_equal.
  assert (Hsize : size (items (tbl w)) = 3%nat).
  { rewrite Hitems. rewrite !map_size_insert_None, map_size_empty; [reflexivity|..].
    - apply lookup_empty.
    - rewrite lookup_insert_ne by congruence. apply lookup_empty.
    - rewrite !lookup_insert_ne by congruence. apply lookup_empty. }
  rewrite Hsize in Hlen. cbn in Hlen.
  destruct r as [|r1 [|r2 [|]]]; try discriminate.
  assert (Hlook : ∀ k p, items (tbl w) !! k = Some p ↔
                         (k = A ∧ p = pa) ∨ (k = B ∧ p = pb) ∨ (k = C ∧ p = pc)).
  { intros k p. rewrite Hitems, !lookup_insert_Some, lookup_empty.
    intuition (subst; solve [auto | congruence | discriminate]). }
  apply Forall2_cons_inv_r in Hks as (k1 & ks1 & Hk1 & Hks & ->).
  apply Forall2_cons_inv_r in Hks as (k2 & ks2 & Hk2 & Hks & ->).
  apply Forall2_nil_inv_r in Hks as ->.
  apply NoDup_cons in Hnd as [Hk12 _]. rewrite list_elem_of_singleton in Hk12.
  pose proof (Hsort 0%nat 1%nat r1 r2 ltac:(lia) eq_refl eq_refl) as Hs.
  assert (Hleft : ∀ k p, items (tbl w) !! k = Some p → k ≠ k1 → k ≠ k2 →
            accessCount_at (heap w) p ≤ accessCount_at (heap w) r1
            ∧ accessCount_at (heap w) p ≤ accessCount_at (heap w) r2).
  { intros k p Hk H1 H2. split; eapply (Hout k p); eauto.
    - rewrite !elem_of_cons, elem_of_nil. tauto.
    - left.
    - rewrite !elem_of_cons, elem_of_nil. tauto.
    - right. left. }
  pose proof (Hleft A pa) as HA. pose proof (Hleft B pb) as HB.
  pose proof (Hleft C pc) as HC.
  rewrite Hlook in HA, HB, HC.
  apply Hlook in Hk1, Hk2.
  destruct Hk1 as [[-> ->]|[[-> ->]|[-> ->]]];
    destruct Hk2 as [[-> ->]|[[-> ->]|[-> ->]]];
    try congruence;
    try (specialize (HA ltac:(auto) ltac:(congruence) ltac:(congruence)); lia);
    try (specialize (HB ltac:(auto) ltac:(congruence) ltac:(congruence)); lia);
    try (specialize (HC ltac:(auto) ltac:(congruence) ltac:(congruence)); lia).
Qed.

(** C9. [Flush] always completes; afterwards the table has no entry, its
    [cleanupDuration] is 0 and no timer is pending; the only thing the
    call adds to the history is the reset of the map: no expiry callback
    of an entry and no delete callback of the table is called.  The items
    themselves are not touched. *)
Theorem Flush_spec (w : World) :
  ∃ w', Flush w = Some (tt, w')
    ∧ Count w' = Some (0%nat, w')
    ∧ items (tbl w') = ∅
    ∧ cleanupDuration (tbl w') = 0
    ∧ armed (tbl w') = None
    ∧ history w' = history w ++ [MapReset]
    ∧ heap w' = heap w.
Proof.
  eexists. split; [reflexivity|]. cbn.
  repeat split.
  unfold armed. cbn. destruct (cleanupTimer (tbl w)); reflexivity.
Qed.

(** ** Further properties of the table *)

(** *** The history of a sweep *)

Lemma sweep_history (now : Time) (l : list (K * loc)) :
  ∀ (s : Duration) (w : World) (s' : Duration) (w' : World),
    NoDup l.*1 →
    (∀ k p, (k, p) ∈ l → items (tbl w) !! k = Some p) →
    valid w →
    sweep now s l w = Some (s', w') →
    history w' = history w ++ sweep_events now (heap w) (tbl w) l.
Proof.
  induction l as [|[k0 p0] l IH]; intros s w s' w' Hnd Hin Hv Hrun.
  - cbn in Hrun. injection Hrun as <- <-. unfold sweep_events. cbn.
    rewrite app_nil_r. reflexivity.
  - apply NoDup_cons in Hnd as [Hk0 Hnd]. cbn [fst] in Hk0.
    assert (Hk0p : items (tbl w) !! k0 = Some p0) by (apply Hin; left).
    destruct (Hv _ _ Hk0p) as [it Hit].
    assert (Hne : ∀ k p, (k, p) ∈ l → k ≠ k0).
    { intros k p Hkp ->. apply Hk0. apply list_elem_of_fmap.
      exists (k0, p). split; [reflexivity | exact Hkp]. }
    assert (Hin' : ∀ k p, (k, p) ∈ l → items (tbl w) !! k = Some p).
    { intros k p Hkp. apply Hin. right. exact Hkp. }
    cbn [sweep] in Hrun. unfold sweep_entry at 1 in Hrun. cbn [fst snd] in Hrun.
    unfold bind at 1 in Hrun. unfold bind at 1 in Hrun.
    rewrite (deref_run _ _ _ Hit) in Hrun.
    unfold sweep_events. cbn [map concat fst snd]. rewrite Hit.
    fold (sweep_events now (heap w) (tbl w) l). unfold expired.
    destruct (Z.eqb_spec (lifeSpan it) 0) as [Hz|Hnz].
    { unfold ret at 1 in Hrun. cbn [negb andb app].
      eapply IH; eauto. }
    destruct (Z.leb_spec (curDuration now it) 0) as [Hdue|Hlive].
    { unfold bind at 1 in Hrun.
      rewrite (deleteInternal_present _ _ _ _ Hk0p Hit) in Hrun.
      unfold ret at 1 in Hrun. cbn [negb andb].
      eapply IH in Hrun; eauto.
      - cbn in Hrun. rewrite Hrun, <- app_assoc. reflexivity.
      - intros k p Hkp. cbn.
        rewrite lookup_delete_ne by (intros ->; eapply Hne; eauto). auto.
      - intros k p. cbn. intros Hkp. apply lookup_delete_Some in Hkp as [_ Hkp].
        eapply Hv; eauto. }
    cbn [negb andb app].
    destruct ((curDuration now it <? s) || (s =? 0)); unfold ret at 1 in Hrun;
      eapply IH; eauto.
Qed.

(** A run of [expirationCheck], with the history it leaves. *)
Lemma expirationCheck_exact (w : World) :
  valid w →
  let now := clock (ticks w) in
  ∃ d m,
    expirationCheck w
    = Some (tt, {| heap := heap w; tbl := swept_tbl (tbl w) m d;
                   history := history w ++ CallExpirationCheck
                     :: sweep_events now (heap w) (tbl w) (range (items (tbl w)));
                   ticks := S (ticks w) |})
    ∧ (∀ k p, m !! k = Some p → items (tbl w) !! k = Some p)
    ∧ (∀ k p, items (tbl w) !! k = Some p →
              m !! k = if expired_at now (heap w) p then None else Some p)
    ∧ 0 ≤ d
    ∧ (d = 0 ∨ ∃ k p, m !! k = Some p ∧ live now (heap w) p d)
    ∧ (∀ k p c, m !! k = Some p → live now (heap w) p c → 0 < d ≤ c).
Proof.
  intros Hv now.
  set (w2 := {| heap := heap w;
                tbl := with_cleanupTimer (Timer_Stop <$> cleanupTimer (tbl w)) (tbl w);
                history := history w ++ [CallExpirationCheck];
                ticks := S (ticks w) |}).
  assert (Hnd : NoDup (range (items (tbl w2))).*1) by apply range_NoDup.
  assert (Hin : ∀ k p, (k, p) ∈ range (items (tbl w2)) →
                       items (tbl w2) !! k = Some p)
    by (intros k p; apply range_elem).
  assert (Hv2 : valid w2) by exact Hv.
  destruct (sweep_run now (range (items (tbl w2))) 0 w2 Hnd Hin Hv2)
    as (d & m & es & Hrun & Hes & Hsub & Hexp & Hkeep & Hd & Hatt & Hlow & _);
    [lia|].
  pose proof (sweep_history now _ _ _ _ _ Hnd Hin Hv2 Hrun) as Hh.
  cbn in Hh. apply app_inv_head in Hh. subst es.
  cbn in Hsub, Hexp, Hkeep, Hatt, Hlow.
  assert (Hlive : ∀ p c, live now (heap w) p c → expired_at now (heap w) p = false).
  { intros p c (it & Hit & _ & Hc & Hpos). unfold expired_at, expired.
    rewrite Hit. destruct (Z.leb_spec (curDuration now it) 0); [lia|].
    apply andb_false_r. }
  exists d, m. split.
  { unfold expirationCheck.
    erewrite bind_run by reflexivity.
    erewrite bind_run by reflexivity.
    erewrite bind_run by reflexivity.
    erewrite bind_run by reflexivity.
    erewrite bind_run by exact Hrun.
    erewrite bind_run by reflexivity.
    unfold swept_tbl. cbn. rewrite <- app_assoc. cbn.
    destruct (0 <? d); reflexivity. }
  split_and!; auto.
  - intros k p Hkp. destruct (expired_at now (heap w) p) eqn:Hx.
    + eapply Hexp; [|exact Hx]. apply range_elem. exact Hkp.
    + apply Hkeep; assumption.
  - destruct Hatt as [->|(k & p & Hkp%range_elem & Hl)]; [left; reflexivity|].
    right. exists k, p. split; [|exact Hl]. apply Hkeep; [exact Hkp|].
    eapply Hlive; eauto.
  - intros k p c Hm Hl. eapply Hlow; [|exact Hl].
    apply range_elem. apply Hsub. exact Hm.
Qed.


Lemma sweep_events_elem (now : Time) (h : gmap loc CacheItem) (t : CacheTable)
    (l : list (K * loc)) (e : Event) :
  e ∈ sweep_events now h t l →
  ∃ k p it, (k, p) ∈ l ∧ h !! p = Some it ∧ expired now it = true
            ∧ e ∈ delete_events t k p it.
Proof.
  unfold sweep_events. induction l as [|[k p] l IH]; cbn [map concat].
  - intros He. inversion He.
  - intros [He|He]%elem_of_app.
    + cbn [fst snd] in He. destruct (h !! p) as [it|] eqn:Hp; [|inversion He].
      destruct (expired now it) eqn:Hx; [|inversion He].
      exists k, p, it. split_and!; auto. left.
    + destruct (IH He) as (k' & p' & it & Hkp & ?). exists k', p', it.
      split; [right; exact Hkp | assumption].
Qed.

Lemma sweep_events_block (now : Time) (h : gmap loc CacheItem) (t : CacheTable)
    (l : list (K * loc)) (k : K) (p : loc) (it : CacheItem) :
  (k, p) ∈ l → h !! p = Some it → expired now it = true →
  ∃ pre post, sweep_events now h t l = pre ++ delete_events t k p it ++ post.
Proof.
  intros Hkp Hp Hx. apply list_elem_of_split in Hkp as (l1 & l2 & ->).
  exists (sweep_events now h t l1), (sweep_events now h t l2).
  unfold sweep_events. rewrite map_app, concat_app. cbn [map concat fst snd].
  rewrite Hp, Hx. reflexivity.
Qed.

(** X1. A run of [expirationCheck] on a valid table adds to the history
    its own entry and then, for each entry it removes and in the order in
    which it visits them, the events of a deletion of that entry: the
    delete callbacks of the table, the expiry callbacks of the entry and
    the removal from the map.  So the events of each removed entry form
    one block, and for an entry that is not due no expiry callback is
    called and the key is not removed. *)
Theorem expirationCheck_callbacks (w : World) :
  valid w →
  let now := clock (ticks w) in
  let sw := sweep_events now (heap w) (tbl w) (range (items (tbl w))) in
  ∃ w', expirationCheck w = Some (tt, w')
    ∧ history w' = history w ++ CallExpirationCheck :: sw
    ∧ (∀ k p it, items (tbl w) !! k = Some p → heap w !! p = Some it →
         expired now it = true →
         ∃ pre post, sw = pre ++ delete_events (tbl w) k p it ++ post)
    ∧ (∀ k p it, items (tbl w) !! k = Some p → heap w !! p = Some it →
         expired now it = false →
         (MapDelete k ∉ sw) ∧ (∀ cb, CallAboutToExpire cb k ∉ sw)).
Proof.
  intros Hv now sw.
  destruct (expirationCheck_exact w Hv) as (d & m & Hrun & _).
  eexists. split; [exact Hrun|]. cbn [history]. split_and!.
  - reflexivity.
  - intros k p it Hk Hp Hx. eapply sweep_events_block; eauto.
    apply range_elem. exact Hk.
  - intros k p it Hk Hp Hx.
    assert (Hno : ∀ e, e ∈ sw →
              (e = MapDelete k ∨ ∃ cb, e = CallAboutToExpire cb k) → False).
    { intros e (k' & p' & it' & Hkp%range_elem & Hp' & Hx' & He)%sweep_events_elem Hor.
      assert (k' = k) as ->.
      { unfold delete_events in He. rewrite !elem_of_app in He.
        destruct He as [He|[He|He]].
        - apply list_elem_of_fmap in He as (cb & -> & _).
          destruct Hor as [?|[? ?]]; discriminate.
        - apply list_elem_of_fmap in He as (cb & -> & _).
          destruct Hor as [?|[? ?]]; congruence.
        - apply list_elem_of_singleton in He as ->.
          destruct Hor as [?|[? ?]]; congruence. }
      congruence. }
    split.
    + intros Hin. eapply Hno; eauto.
    + intros cb Hin. eapply Hno; eauto.
Qed.

Lemma sweep_events_none (now : Time) (h : gmap loc CacheItem) (t : CacheTable)
    (l : list (K * loc)) :
  (∀ k p it, (k, p) ∈ l → h !! p = Some it → expired now it = false) →
  sweep_events now h t l = [].
Proof.
  intros Hl. destruct (sweep_events now h t l) as [|e es] eqn:He; [reflexivity|].
  assert (Hin : e ∈ sweep_events now h t l) by (rewrite He; left).
  apply sweep_events_elem in Hin as (k & p & it & Hkp & Hp & Hx & _).
  rewrite (Hl k p it Hkp Hp) in Hx. discriminate.
Qed.

(** X2. When every entry of a valid table has the life span 0, a run of
    [expirationCheck] removes nothing and calls no callback, sets
    [cleanupDuration] to 0 and leaves no timer pending: nothing will
    start a sweep again until an insertion does. *)
Theorem expirationCheck_permanent_entries (w : World) :
  valid w →
  (∀ k p it, items (tbl w) !! k = Some p → heap w !! p = Some it →
     lifeSpan it = 0) →
  ∃ w', expirationCheck w = Some (tt, w')
    ∧ items (tbl w') = items (tbl w)
    ∧ heap w' = heap w
    ∧ cleanupDuration (tbl w') = 0
    ∧ armed (tbl w') = None
    ∧ history w' = history w ++ [CallExpirationCheck].
Proof.
  intros Hv Hperm.
  destruct (expirationCheck_exact w Hv)
    as (d & m & Hrun & Hsub & Hitems & Hd & Hatt & _).
  assert (Hnx : ∀ p it, heap w !! p = Some it → lifeSpan it = 0 →
                        expired_at (clock (ticks w)) (heap w) p = false).
  { intros p it Hp Hz. unfold expired_at, expired. rewrite Hp, Hz. reflexivity. }
  assert (Hm : m = items (tbl w)).
  { apply map_eq. intros k. destruct (items (tbl w) !! k) as [p|] eqn:Hk.
    - rewrite (Hitems k p Hk). destruct (Hv k p Hk) as [it Hp].
      rewrite (Hnx p it Hp (Hperm k p it Hk Hp)). reflexivity.
    - destruct (m !! k) as [p|] eqn:Hmk; [|reflexivity].
      apply Hsub in Hmk. congruence. }
  assert (Hd0 : d = 0).
  { destruct Hatt as [->|(k & p & Hmk & it & Hp & Hn & _)]; [reflexivity|].
    exfalso. apply Hn. eapply Hperm; eauto. }
  subst d m. eexists. split; [exact Hrun|]. cbn. split_and!; try reflexivity.
  - unfold armed. cbn. destruct (cleanupTimer (tbl w)); reflexivity.
  - rewrite sweep_events_none; [reflexivity|].
    intros k p it Hkp%range_elem Hp. unfold expired.
    rewrite (Hperm k p it Hkp Hp). reflexivity.
Qed.


(** *** Reading an entry *)

Lemma Value_present_run (k : K) (args : list Arg) (p : loc) (it : CacheItem)
    (w : World) :
  items (tbl w) !! k = Some p →
  heap w !! p = Some it →
  Value k args w
  = Some ((Some p, None),
          {| heap := <[p := set_accessedTime (clock (ticks w))
                              (bump_accessCount it)]> (heap w);
             tbl := tbl w; history := history w; ticks := S (ticks w) |}).
Proof.
  intros Hk Hp. unfold Value. erewrite bind_run by reflexivity. rewrite Hk.
  erewrite bind_run by (apply KeepAlive_run; exact Hp). reflexivity.
Qed.

Lemma valid_store (w : World) (p : loc) (it : CacheItem) (t : nat)
    (hs : list Event) :
  valid w → is_Some (heap w !! p) →
  valid {| heap := <[p := it]> (heap w); tbl := tbl w; history := hs;
           ticks := t |}.
Proof.
  intros Hv Hp k q Hk. cbn in *. destruct (decide (q = p)) as [->|Hne].
  - rewrite lookup_insert_eq. eauto.
  - rewrite lookup_insert_ne by auto. eapply Hv; eauto.
Qed.

(** An item that was accessed less than its life span ago is not due. *)
Lemma recently_accessed_not_expired (now : Time) (it : CacheItem) :
  in_int64 (lifeSpan it) →
  0 ≤ now - accessedTime it < lifeSpan it →
  expired now it = false.
Proof.
  intros Hr Hlt. unfold expired, curDuration, Time_Sub.
  unfold in_int64, minDuration, maxDuration in *.
  rewrite int64_small by (unfold in_int64, minDuration, maxDuration; lia).
  apply andb_false_iff. right. apply Z.leb_gt. lia.
Qed.

(** X3. [Value] of a key that is present returns the stored item without
    an error and without calling the loader, even when one is set: the
    table and the history are as before, and the only item that changes
    is the one returned, which is kept alive at the reading of the clock
    the call takes. *)
Theorem Value_hit (k : K) (args : list Arg) (p : loc) (it : CacheItem)
    (w : World) :
  items (tbl w) !! k = Some p →
  heap w !! p = Some it →
  ∃ w', Value k args w = Some ((Some p, None), w')
    ∧ tbl w' = tbl w
    ∧ history w' = history w
    ∧ heap w' !! p = Some (set_accessedTime (clock (ticks w))
                             (bump_accessCount it))
    ∧ (∀ q, q ≠ p → heap w' !! q = heap w !! q).
Proof.
  intros Hk Hp. eexists. split; [apply Value_present_run; eassumption|].
  cbn. split_and!; try reflexivity.
  - apply lookup_insert_eq.
  - intros q Hq. apply lookup_insert_ne. auto.
Qed.

(** X4. The deadline of an entry slides: after a [Value] that hits, a
    sweep that takes place less than the life span later keeps the entry,
    also when the entry was already due at the time of the access, in
    which case a sweep in place of the access removes it. *)
Theorem Value_resets_deadline (k : K) (args : list Arg) (p : loc)
    (it : CacheItem) (w : World) :
  valid w →
  items (tbl w) !! k = Some p →
  heap w !! p = Some it →
  in_int64 (lifeSpan it) →
  0 ≤ clock (S (ticks w)) - clock (ticks w) < lifeSpan it →
  (∃ w1 w2, Value k args w = Some ((Some p, None), w1)
     ∧ expirationCheck w1 = Some (tt, w2)
     ∧ items (tbl w2) !! k = Some p)
  ∧ (lifeSpan it ≤ clock (ticks w) - accessedTime it →
     ∃ w3, expirationCheck w = Some (tt, w3) ∧ items (tbl w3) !! k = None).
Proof.
  intros Hv Hk Hp Hr Hlt. split.
  - pose proof (Value_present_run k args p it w Hk Hp) as Hval.
    match type of Hval with _ = Some (_, ?w1) =>
      assert (Hv1 : valid w1) by (apply valid_store; eauto);
      destruct (expirationCheck_exact w1 Hv1) as (d & m & Hrun & _ & Hitems & _)
    end.
    eexists _, _. split; [exact Hval|].
    split; [exact Hrun|]. cbn [tbl items swept_tbl].
    rewrite (Hitems k p Hk). unfold expired_at. cbn [heap ticks].
    rewrite lookup_insert_eq.
    rewrite recently_accessed_not_expired; [reflexivity|exact Hr|exact Hlt].
  - intros Hdue.
    destruct (expirationCheck_exact w Hv) as (d & m & Hrun & _ & Hitems & _).
    eexists. split; [exact Hrun|]. cbn [tbl items swept_tbl].
    rewrite (Hitems k p Hk). unfold expired_at, expired. rewrite Hp.
    assert (curDuration (clock (ticks w)) it ≤ 0)
      by (apply curDuration_due; [exact Hr|lia|lia]).
    destruct (Z.eqb_spec (lifeSpan it) 0); [lia|].
    destruct (Z.leb_spec (curDuration (clock (ticks w)) it) 0); [reflexivity|lia].
Qed.

(** *** Deletion of a key that is absent *)

(** X5. [Delete] returns [ErrCacheNotFound] exactly when the key is
    absent; then it returns no item, calls no callback and leaves the
    entry map, the items and the history as they were.  Otherwise the
    item it returns is the one that was stored under the key. *)
Theorem Delete_not_found (k : K) (w : World) :
  (items (tbl w) !! k = None →
   Delete k w = Some ((None, Some ErrCacheNotFound), w))
  ∧ (∀ r w', Delete k w = Some (r, w') →
       (r.2 = Some ErrCacheNotFound ↔ items (tbl w) !! k = None)
       ∧ (r.2 = None ↔ is_Some (items (tbl w) !! k))
       ∧ r.1 = items (tbl w) !! k).
Proof.
  split.
  - apply deleteInternal_absent.
  - intros r w'. unfold Delete. destruct (items (tbl w) !! k) as [p|] eqn:Hk.
    + destruct (heap w !! p) as [it|] eqn:Hp.
      * rewrite (deleteInternal_present k p it w Hk Hp). intros [= <- _].
        cbn. split_and!; [split|split|]; eauto; discriminate.
      * unfold deleteInternal. erewrite bind_run by reflexivity. rewrite Hk.
        erewrite bind_run by apply for_each_emit.
        unfold bind, deref. cbn. rewrite Hp. discriminate.
    + rewrite (deleteInternal_absent k w Hk). intros [= <- _]. cbn.
      split_and!; [split|split|]; auto; try discriminate.
      intros [? ?]. discriminate.
Qed.


(** *** Insertion followed by another operation *)

Lemma Add_exact (k : K) (d : V) (ls : Duration) (w : World) :
  valid w →
  let p := fresh (dom (heap w)) in
  let wi := inserted k d ls w in
  (add_triggers ls w = false ∧ Add k d ls w = Some (p, wi))
  ∨ (add_triggers ls w = true
     ∧ ∃ d' m,
         Add k d ls w
         = Some (p, {| heap := heap wi; tbl := swept_tbl (tbl wi) m d';
                       history := history wi ++ CallExpirationCheck
                         :: sweep_events (clock (S (ticks w))) (heap wi) (tbl wi)
                              (range (items (tbl wi)));
                       ticks := S (S (ticks w)) |})
         ∧ (∀ k' q, m !! k' = Some q → items (tbl wi) !! k' = Some q)
         ∧ (∀ k' q, items (tbl wi) !! k' = Some q →
              m !! k' = if expired_at (clock (S (ticks w))) (heap wi) q
                        then None else Some q)
         ∧ 0 ≤ d'
         ∧ (d' = 0 ∨ ∃ k' q, m !! k' = Some q
                             ∧ live (clock (S (ticks w))) (heap wi) q d')
         ∧ (∀ k' q c, m !! k' = Some q →
              live (clock (S (ticks w))) (heap wi) q c → 0 < d' ≤ c)).
Proof.
  intros Hv p wi. rewrite Add_run. fold wi. fold p.
  destruct (add_triggers ls w); [right|left; auto].
  split; [reflexivity|].
  destruct (expirationCheck_exact wi (valid_inserted k d ls w Hv))
    as (d' & m & Hrun & Hfacts).
  exists d', m. split; [|exact Hfacts].
  erewrite bind_run by exact Hrun. reflexivity.
Qed.

Lemma fresh_not_stored (w : World) (k : K) (q : loc) :
  valid w → items (tbl w) !! k = Some q → q ≠ fresh (dom (heap w)).
Proof.
  intros Hv Hk ->. destruct (Hv _ _ Hk) as [it Hit].
  apply (is_fresh (dom (heap w))). apply elem_of_dom. eauto.
Qed.

(** X6. Insert, then look up: when the new entry is not swept at once
    (its life span is not positive, or exceeds the time between the two
    readings of the clock), [Value] of the key right after [Add] returns
    the very item [Add] returned, with the data, the key and the life span
    that were given, and this first access makes its access count 1. *)
Theorem Add_then_Value (k : K) (d : V) (ls : Duration) (args : list Arg)
    (w : World) :
  valid w →
  ls ≤ 0 ∨ (in_int64 ls ∧ 0 ≤ clock (S (ticks w)) - clock (ticks w) < ls) →
  ∃ p w1 w2 it,
    Add k d ls w = Some (p, w1)
    ∧ Value k args w1 = Some ((Some p, None), w2)
    ∧ heap w2 !! p = Some it
    ∧ key it = k ∧ data it = d ∧ lifeSpan it = ls
    ∧ accessCount it = 1
    ∧ accessedTime it = clock (ticks w1)
    ∧ createTime it = clock (ticks w)
    ∧ items (tbl w2) = items (tbl w1)
    ∧ history w2 = history w1.
Proof.
  intros Hv Hc.
  destruct (Add_result k d ls w Hv)
    as (w1 & es & Hadd & _ & Hheap & _ & _ & Hitem & _).
  rewrite new_item_not_expired in Hitem by exact Hc.
  assert (Hp : heap w1 !! fresh (dom (heap w))
               = Some (new_item (clock (ticks w)) k d ls))
    by (rewrite Hheap; apply lookup_insert_eq).
  eexists _, w1, _, _. split; [exact Hadd|].
  split; [apply (Value_present_run _ _ _ _ _ Hitem Hp)|].
  cbn. rewrite lookup_insert_eq. split_and!; reflexivity.
Qed.

(** X7. Insert, then delete: on a valid table, for a key that is absent
    and an insertion that triggers no sweep, [Delete] right after [Add]
    returns the item [Add] returned and leaves the entry map as it was
    before the insertion; in between the key exists.  The history gains
    the store, the added callbacks, the delete callbacks and the
    removal, in this order. *)
Theorem Add_then_Delete (k : K) (d : V) (ls : Duration) (w : World) :
  valid w →
  items (tbl w) !! k = None →
  add_triggers ls w = false →
  ∃ p w1 w2,
    Add k d ls w = Some (p, w1)
    ∧ Exists k w1 = Some (true, w1)
    ∧ Count w1 = Some (S (size (items (tbl w))), w1)
    ∧ Delete k w1 = Some ((Some p, None), w2)
    ∧ items (tbl w2) = items (tbl w)
    ∧ Count w2 = Some (size (items (tbl w)), w2)
    ∧ history w2
      = history w ++ MapStore k p
          :: map (λ cb, CallAdded cb p) (addedItem (tbl w))
          ++ map (λ cb, CallDeleted cb p) (deletedItem (tbl w))
          ++ [MapDelete k].
Proof.
  intros Hv Hk Htr.
  destruct (Add_exact k d ls w Hv) as [[_ Hadd]|[Ht _]]; [|congruence].
  set (p := fresh (dom (heap w))) in *.
  assert (Hkp : items (tbl (inserted k d ls w)) !! k = Some p)
    by (cbn; apply lookup_insert_eq).
  assert (Hp : heap (inserted k d ls w) !! p
               = Some (new_item (clock (ticks w)) k d ls))
    by (cbn; apply lookup_insert_eq).
  eexists p, _, _. split; [exact Hadd|].
  split; [unfold Exists, gets; rewrite Hkp; reflexivity|].
  split.
  { unfold Count, gets. cbn. rewrite map_size_insert_None by exact Hk.
    reflexivity. }
  split; [apply (deleteInternal_present _ _ _ _ Hkp Hp)|].
  cbn. rewrite delete_insert_id by exact Hk. split_and!.
  - reflexivity.
  - unfold Count, gets. reflexivity.
  - unfold delete_events. cbn. rewrite <- !app_assoc. reflexivity.
Qed.

(** X8. Overwriting is silent.  [Add] on a valid table stores a new item
    at a location that was not in use; it calls no expiry callback for
    the key it stores, and when the key was present with an item stored
    under no other key, no delete callback is called for that item, which
    is left as it was. *)
Theorem Add_overwrites_silently (k : K) (d : V) (ls : Duration) (w : World) :
  valid w →
  ∃ p w' es,
    Add k d ls w = Some (p, w')
    ∧ heap w !! p = None
    ∧ history w' = history w ++ es
    ∧ (∀ cb, CallAboutToExpire cb k ∉ es)
    ∧ (∀ q, items (tbl w) !! k = Some q →
         (∀ k', k' ≠ k → items (tbl w) !! k' ≠ Some q) →
         q ≠ p ∧ heap w' !! q = heap w !! q ∧ ∀ cb, CallDeleted cb q ∉ es).
Proof.
  intros Hv.
  set (p := fresh (dom (heap w))).
  set (wi := inserted k d ls w).
  set (sw := sweep_events (clock (S (ticks w))) (heap wi) (tbl wi)
               (range (items (tbl wi)))).
  assert (Hfresh : heap w !! p = None) by (apply not_elem_of_dom, is_fresh).
  assert (Hsw1 : ∀ cb, CallAboutToExpire cb k ∉ sw).
  { intros cb (k' & p' & it' & Hkp%range_elem & Hp' & _ & He)%sweep_events_elem.
    unfold delete_events in He. rewrite !elem_of_app in He.
    destruct He as [He|[He|He]].
    - apply list_elem_of_fmap in He as (cb' & ? & _). discriminate.
    - apply list_elem_of_fmap in He as (cb' & Heq & Hcb).
      assert (k' = k) as -> by congruence.
      cbn in Hkp, Hp'. rewrite lookup_insert_eq in Hkp.
      assert (p' = fresh (dom (heap w))) as -> by congruence.
      rewrite lookup_insert_eq in Hp'.
      assert (it' = new_item (clock (ticks w)) k d ls) as -> by congruence.
      inversion Hcb.
    - apply list_elem_of_singleton in He. discriminate. }
  assert (Hsw2 : ∀ q, items (tbl w) !! k = Some q →
                   (∀ k', k' ≠ k → items (tbl w) !! k' ≠ Some q) →
                   ∀ cb, CallDeleted cb q ∉ sw).
  { intros q Hq Honly cb
      (k' & p' & it' & Hkp%range_elem & Hp' & _ & He)%sweep_events_elem.
    unfold delete_events in He. rewrite !elem_of_app in He.
    destruct He as [He|[He|He]].
    - apply list_elem_of_fmap in He as (cb' & Heq & _).
      assert (p' = q) as -> by congruence.
      cbn in Hkp. apply lookup_insert_Some in Hkp as [[_ Hpq]|[Hne Hkp]].
      + apply (fresh_not_stored w k q Hv Hq). symmetry. exact Hpq.
      + apply (Honly k'); auto.
    - apply list_elem_of_fmap in He as (cb' & ? & _). discriminate.
    - apply list_elem_of_singleton in He. discriminate. }
  assert (Hins : ∀ q cb e,
            e ∈ MapStore k p :: map (λ cb, CallAdded cb p) (addedItem (tbl w)) →
            e ≠ CallAboutToExpire cb k ∧ e ≠ CallDeleted cb q).
  { intros q cb e [->|He]%elem_of_cons; [split; discriminate|].
    apply list_elem_of_fmap in He as (cb' & -> & _). split; discriminate. }
  destruct (Add_exact k d ls w Hv) as [[_ Hadd]|[_ (d' & m & Hadd & _)]];
    fold p wi in Hadd; fold sw in Hadd.
  - eexists p, _, _. split; [exact Hadd|]. split; [exact Hfresh|].
    split; [reflexivity|]. split.
    + intros cb Hin. destruct (Hins p cb _ Hin) as [Hne _]. congruence.
    + intros q Hq Honly. split_and!.
      * apply (fresh_not_stored w k q Hv Hq).
      * cbn. apply lookup_insert_ne. intros Heq.
        apply (fresh_not_stored w k q Hv Hq). symmetry. exact Heq.
      * intros cb Hin. destruct (Hins q cb _ Hin) as [_ Hne]. congruence.
  - eexists p, _, _. split; [exact Hadd|]. split; [exact Hfresh|].
    split.
    { cbn [history wi inserted]. rewrite <- app_assoc. reflexivity. }
    split.
    + intros cb [Hin|Hin]%elem_of_app.
      * destruct (Hins p cb _ Hin) as [Hne _]. congruence.
      * apply elem_of_cons in Hin as [?|Hin]; [discriminate|].
        eapply Hsw1; eauto.
    + intros q Hq Honly. split_and!.
      * apply (fresh_not_stored w k q Hv Hq).
      * cbn. apply lookup_insert_ne. intros Heq.
        apply (fresh_not_stored w k q Hv Hq). symmetry. exact Heq.
      * intros cb [Hin|Hin]%elem_of_app.
        -- destruct (Hins q cb _ Hin) as [_ Hne]. congruence.
        -- apply elem_of_cons in Hin as [?|Hin]; [discriminate|].
           eapply Hsw2; eauto.
Qed.


Lemma Add_stored (k : K) (d : V) (ls : Duration) (w : World) :
  valid w →
  ls ≤ 0 ∨ (in_int64 ls ∧ 0 ≤ clock (S (ticks w)) - clock (ticks w) < ls) →
  let p := fresh (dom (heap w)) in
  ∃ w1, Add k d ls w = Some (p, w1)
    ∧ items (tbl w1) !! k = Some p
    ∧ heap w1 = <[p := new_item (clock (ticks w)) k d ls]> (heap w)
    ∧ addedItem (tbl w1) = addedItem (tbl w)
    ∧ deletedItem (tbl w1) = deletedItem (tbl w)
    ∧ loadData (tbl w1) = loadData (tbl w)
    ∧ valid w1.
Proof.
  intros Hv Hc p.
  pose proof (valid_inserted k d ls w Hv) as Hvi.
  destruct (Add_exact k d ls w Hv)
    as [[_ Hadd]|[Htr (d' & m & Hadd & Hsub & Hitems & _)]]; fold p in Hadd.
  - eexists. split; [exact Hadd|]. cbn. split_and!; auto.
    apply lookup_insert_eq.
  - eexists. split; [exact Hadd|]. cbn. split_and!; auto.
    + rewrite (Hitems k p) by (cbn; apply lookup_insert_eq).
      unfold expired_at. cbn. rewrite lookup_insert_eq.
      pose proof (new_item_not_expired (clock (ticks w)) (clock (S (ticks w)))
                    k d ls w Hc) as Hn.
      rewrite Htr in Hn. cbn in Hn. rewrite Hn. reflexivity.
    + intros k' q Hm. cbn in Hm. apply Hsub in Hm. eapply Hvi; eauto.
Qed.

(** X9. [NotFoundAdd] twice: on a valid table, after a [NotFoundAdd] of
    an absent key whose entry is not swept at once, a second
    [NotFoundAdd] of the same key returns false and changes nothing, so
    that the entry keeps the data of the first call. *)
Theorem NotFoundAdd_twice (k : K) (ls ls' : Duration) (d d' : V) (w : World) :
  valid w →
  items (tbl w) !! k = None →
  ls ≤ 0 ∨ (in_int64 ls ∧ 0 ≤ clock (S (ticks w)) - clock (ticks w) < ls) →
  ∃ p w1 it,
    NotFoundAdd k ls d w = Some (true, w1)
    ∧ NotFoundAdd k ls' d' w1 = Some (false, w1)
    ∧ items (tbl w1) !! k = Some p
    ∧ heap w1 !! p = Some it
    ∧ data it = d ∧ lifeSpan it = ls.
Proof.
  intros Hv Hk Hc.
  destruct (Add_stored k d ls w Hv Hc) as (w1 & Hadd & Hkp & Hh & _).
  eexists _, w1, _. rewrite (NotFoundAdd_absent _ _ _ _ Hk).
  erewrite bind_run by exact Hadd. split; [reflexivity|]. split.
  { unfold NotFoundAdd. erewrite bind_run by reflexivity. rewrite Hkp.
    reflexivity. }
  split; [exact Hkp|]. rewrite Hh, lookup_insert_eq. split_and!; reflexivity.
Qed.

(** X10. [Flush], then [Add] with a positive life span: whatever the
    table was, the insertion runs the sweep, after which the new entry is
    the only one, [cleanupDuration] is the life span less the time
    between the two readings of the clock, and a timer is pending for
    exactly that duration (the new entry being not yet due at the
    sweep). *)
Theorem Flush_then_Add (k : K) (d : V) (ls : Duration) (w : World) :
  in_int64 ls →
  0 ≤ clock (S (ticks w)) - clock (ticks w) < ls →
  ∃ w1 p w2,
    Flush w = Some (tt, w1)
    ∧ Add k d ls w1 = Some (p, w2)
    ∧ items (tbl w2) = {[ k := p ]}
    ∧ cleanupDuration (tbl w2)
      = ls - (clock (S (ticks w)) - clock (ticks w))
    ∧ armed (tbl w2)
      = Some (ls - (clock (S (ticks w)) - clock (ticks w)))
    ∧ checks (history w2) = S (checks (history w)).
Proof.
  intros Hr Hlt.
  assert (HF : ∃ w1, Flush w = Some (tt, w1) ∧ items (tbl w1) = ∅
                     ∧ cleanupDuration (tbl w1) = 0 ∧ heap w1 = heap w
                     ∧ ticks w1 = ticks w
                     ∧ history w1 = history w ++ [MapReset]).
  { eexists. split; [reflexivity|]. cbn. auto. }
  destruct HF as (w1 & HF & Hi1 & Hcd1 & Hh1 & Ht1 & Hhist1).
  assert (Hv1 : valid w1).
  { intros k' q Hk'. rewrite Hi1, lookup_empty in Hk'. discriminate. }
  set (p := fresh (dom (heap w1))).
  set (it := new_item (clock (ticks w1)) k d ls).
  set (now := clock (S (ticks w1))).
  assert (Hcur : curDuration now it = ls - (clock (S (ticks w)) - clock (ticks w))).
  { unfold curDuration, Time_Sub, it, now. cbn. rewrite Ht1.
    unfold in_int64, minDuration, maxDuration in *.
    rewrite int64_small by (unfold in_int64, minDuration, maxDuration; lia).
    lia. }
  destruct (Add_exact k d ls w1 Hv1)
    as [[Htr _]|[_ (d' & m & Hadd & Hsub & Hitems & Hd & Hatt & Hlow)]].
  { unfold add_triggers in Htr. rewrite Hcd1 in Htr.
    destruct (Z.ltb_spec 0 ls); [discriminate|lia]. }
  fold p now in Hadd, Hitems, Hatt, Hlow. cbn [heap inserted] in Hitems, Hatt, Hlow.
  fold p it in Hitems, Hatt, Hlow.
  assert (Hlive : live now (<[p := it]> (heap w1)) p (curDuration now it)).
  { exists it. rewrite lookup_insert_eq. split_and!; auto; [|lia].
    unfold it. cbn. lia. }
  assert (Hm : m = {[ k := p ]}).
  { apply map_eq. intros k'. destruct (decide (k' = k)) as [->|Hne].
    - rewrite lookup_singleton_eq, (Hitems k p) by (cbn; apply lookup_insert_eq).
      unfold expired_at. rewrite lookup_insert_eq.
      unfold expired. rewrite Hcur.
      destruct (Z.leb_spec (ls - (clock (S (ticks w)) - clock (ticks w))) 0);
        [lia|]. rewrite andb_false_r. reflexivity.
    - rewrite lookup_singleton_ne by auto.
      destruct (m !! k') as [q|] eqn:Hmk; [|reflexivity].
      apply Hsub in Hmk. cbn in Hmk. rewrite lookup_insert_ne, Hi1 in Hmk by auto.
      rewrite lookup_empty in Hmk. discriminate. }
  assert (Hd' : d' = curDuration now it).
  { assert (Hb : 0 < d' ≤ curDuration now it).
    { apply (Hlow k p); [rewrite Hm; apply lookup_singleton_eq | exact Hlive]. }
    destruct Hatt as [->|(k' & q & Hmk & it' & Hq & _ & Hc & _)]; [lia|].
    rewrite Hm in Hmk. apply lookup_singleton_Some in Hmk as [-> <-].
    rewrite lookup_insert_eq in Hq. congruence. }
  exists w1, p. eexists. split; [exact HF|]. split; [exact Hadd|].
  cbn [tbl items swept_tbl cleanupDuration]. split_and!.
  - exact Hm.
  - rewrite Hd'. exact Hcur.
  - unfold armed. cbn. rewrite <- Hcur, <- Hd'.
    destruct (Z.ltb_spec 0 d') as [_|Hn]; [reflexivity|].
    rewrite Hd', Hcur in Hn. lia.
  - cbn [history]. rewrite checks_app, checks_inserted, Hhist1, checks_app.
    change (CallExpirationCheck :: ?l) with ([CallExpirationCheck] ++ l).
    rewrite checks_app.
    match goal with |- context [checks (sweep_events ?a ?b ?c ?e)] =>
      rewrite (checks_none is_sweep_event (sweep_events a b c e)) end.
    + replace (checks [MapReset]) with 0%nat by reflexivity.
      replace (checks [CallExpirationCheck]) with 1%nat by reflexivity. lia.
    + intros [] ?; (reflexivity || discriminate).
    + apply Forall_forall. intros e (k' & p' & it' & _ & _ & _ & He)%sweep_events_elem.
      pose proof (delete_events_sweep (tbl (inserted k d ls w1)) k' p' it') as Hall.
      rewrite Forall_forall in Hall. apply Hall. exact He.
Qed.


(** *** Registration of callbacks *)

Lemma SetAddedItemCallback_run (f : callback) (w : World) :
  SetAddedItemCallback f w
  = Some (tt, with_tbl (with_addedItem [f] (tbl w)) w).
Proof.
  unfold SetAddedItemCallback. erewrite bind_run by reflexivity.
  destruct (addedItem (tbl w)) as [|g l] eqn:Hl; cbn [length Nat.ltb Nat.leb].
  - erewrite bind_run by reflexivity. unfold modify_tbl, modify. cbn.
    rewrite Hl. reflexivity.
  - erewrite bind_run by reflexivity. reflexivity.
Qed.

Lemma SetDeleteItemCallback_run (f : callback) (w : World) :
  SetDeleteItemCallback f w
  = Some (tt, with_tbl (with_deletedItem [f] (tbl w)) w).
Proof.
  unfold SetDeleteItemCallback. erewrite bind_run by reflexivity.
  destruct (deletedItem (tbl w)) as [|g l] eqn:Hl; cbn [length Nat.ltb Nat.leb].
  - erewrite bind_run by reflexivity. unfold modify_tbl, modify. cbn.
    rewrite Hl. reflexivity.
  - erewrite bind_run by reflexivity. reflexivity.
Qed.

Lemma SetAboutToExpireCallback_run (ci : loc) (f : callback) (it : CacheItem)
    (w : World) :
  heap w !! ci = Some it →
  SetAboutToExpireCallback ci f w
  = Some (tt, with_heap (<[ci := with_aboutToExpire [f] it]> (heap w)) w).
Proof.
  intros Hp. unfold SetAboutToExpireCallback.
  erewrite bind_run by (apply deref_run; exact Hp).
  destruct (aboutToExpire it) as [|g l] eqn:Hl; cbn [length Nat.ltb Nat.leb].
  - erewrite bind_run by reflexivity.
    erewrite bind_run by (apply deref_run; exact Hp).
    unfold store, modify. rewrite Hl. reflexivity.
  - erewrite bind_run.
    2:{ unfold RemoveAboutToExpireCallBack.
        erewrite bind_run by (apply deref_run; exact Hp). reflexivity. }
    erewrite bind_run by (apply deref_run; cbn; apply lookup_insert_eq).
    unfold store, modify, with_heap. cbn. rewrite insert_insert_eq. reflexivity.
Qed.

Lemma AddAboutToExpireCallback_run (ci : loc) (f : callback) (it : CacheItem)
    (w : World) :
  heap w !! ci = Some it →
  AddAboutToExpireCallback ci f w
  = Some (tt, with_heap
                (<[ci := with_aboutToExpire (aboutToExpire it ++ [f]) it]>
                   (heap w)) w).
Proof.
  intros Hp. unfold AddAboutToExpireCallback.
  erewrite bind_run by (apply deref_run; exact Hp). reflexivity.
Qed.

Lemma sweep_events_sweep (now : Time) (h : gmap loc CacheItem) (t : CacheTable)
    (l : list (K * loc)) :
  Forall (λ e, is_sweep_event e = true) (sweep_events now h t l).
Proof.
  apply Forall_forall. intros e (k & p & it & _ & _ & _ & He)%sweep_events_elem.
  pose proof (delete_events_sweep t k p it) as Hall.
  rewrite Forall_forall in Hall. apply Hall. exact He.
Qed.

(** The added callbacks an insertion calls. *)
Lemma Add_added_calls (k : K) (d : V) (ls : Duration) (w : World) :
  valid w →
  let p := fresh (dom (heap w)) in
  ∃ w' es, Add k d ls w = Some (p, w')
    ∧ history w' = history w ++ MapStore k p
        :: map (λ cb, CallAdded cb p) (addedItem (tbl w)) ++ es
    ∧ Forall (λ e, is_added_callback e = false) es.
Proof.
  intros Hv p.
  destruct (Add_exact k d ls w Hv) as [[_ Hadd]|[_ (d' & m & Hadd & _)]];
    fold p in Hadd.
  - exists (inserted k d ls w), []. split; [exact Hadd|]. cbn.
    rewrite app_nil_r. split; [reflexivity | constructor].
  - eexists _, _. split; [exact Hadd|]. cbn [history inserted].
    split; [rewrite <- app_assoc; reflexivity|].
    constructor; [reflexivity|].
    eapply Forall_impl; [apply sweep_events_sweep|].
    intros [] ?; (reflexivity || discriminate).
Qed.

(** X11. Which added callbacks an insertion calls.  On a valid table,
    after [SetAddedItemCallback f], whatever callbacks were registered,
    an [Add] calls [f] once with the new item and no other added
    callback; after [AddAddedItemCallback f] it calls the callbacks
    registered before, in their order, and then [f]; after
    [RemoveAddedItemCallBack] it calls none.  The calls come right after
    the store in the map. *)
Theorem added_callbacks_registration (f : callback) (k : K) (d : V)
    (ls : Duration) (w : World) :
  valid w →
  (∃ w1 p w2 es,
     SetAddedItemCallback f w = Some (tt, w1)
     ∧ Add k d ls w1 = Some (p, w2)
     ∧ history w2 = history w ++ MapStore k p :: CallAdded f p :: es
     ∧ Forall (λ e, is_added_callback e = false) es)
  ∧ (∃ w1 p w2 es,
       AddAddedItemCallback f w = Some (tt, w1)
       ∧ Add k d ls w1 = Some (p, w2)
       ∧ history w2 = history w ++ MapStore k p
           :: map (λ cb, CallAdded cb p) (addedItem (tbl w) ++ [f]) ++ es
       ∧ Forall (λ e, is_added_callback e = false) es)
  ∧ (∃ w1 p w2 es,
       RemoveAddedItemCallBack w = Some (tt, w1)
       ∧ Add k d ls w1 = Some (p, w2)
       ∧ history w2 = history w ++ MapStore k p :: es
       ∧ Forall (λ e, is_added_callback e = false) es).
Proof.
  intros Hv. split_and!.
  - assert (Hv1 : valid (with_tbl (with_addedItem [f] (tbl w)) w)) by exact Hv.
    destruct (Add_added_calls k d ls _ Hv1) as (w2 & es & Hadd & Hh & Hes).
    eexists _, _, w2, es. split; [apply SetAddedItemCallback_run|].
    split; [exact Hadd|]. split; [exact Hh | exact Hes].
  - assert (Hv1 : valid (with_tbl (with_addedItem (addedItem (tbl w) ++ [f])
                                     (tbl w)) w)) by exact Hv.
    destruct (Add_added_calls k d ls _ Hv1) as (w2 & es & Hadd & Hh & Hes).
    eexists _, _, w2, es. split; [reflexivity|].
    split; [exact Hadd|]. split; [exact Hh | exact Hes].
  - assert (Hv1 : valid (with_tbl (with_addedItem [] (tbl w)) w)) by exact Hv.
    destruct (Add_added_calls k d ls _ Hv1) as (w2 & es & Hadd & Hh & Hes).
    eexists _, _, w2, es. split; [reflexivity|].
    split; [exact Hadd|]. split; [exact Hh | exact Hes].
Qed.

(** X12. Which delete callbacks a deletion calls.  For a key that is
    present, after [SetDeleteItemCallback f], whatever callbacks were
    registered, [Delete] calls [f] once with the item and no other delete
    callback; after [AddDeleteItemCallback f] it calls the callbacks
    registered before, in their order, and then [f]; after
    [RemoveDeleteItemCallback] it calls none.  The expiry callbacks of
    the entry and the removal follow. *)
Theorem deleted_callbacks_registration (f : callback) (k : K) (p : loc)
    (it : CacheItem) (w : World) :
  items (tbl w) !! k = Some p →
  heap w !! p = Some it →
  let tail := map (λ cb, CallAboutToExpire cb k) (aboutToExpire it)
              ++ [MapDelete k] in
  (∃ w1 w2,
     SetDeleteItemCallback f w = Some (tt, w1)
     ∧ Delete k w1 = Some ((Some p, None), w2)
     ∧ history w2 = history w ++ CallDeleted f p :: tail)
  ∧ (∃ w1 w2,
       AddDeleteItemCallback f w = Some (tt, w1)
       ∧ Delete k w1 = Some ((Some p, None), w2)
       ∧ history w2 = history w
           ++ map (λ cb, CallDeleted cb p) (deletedItem (tbl w) ++ [f]) ++ tail)
  ∧ (∃ w1 w2,
       RemoveDeleteItemCallback w = Some (tt, w1)
       ∧ Delete k w1 = Some ((Some p, None), w2)
       ∧ history w2 = history w ++ tail).
Proof.
  intros Hk Hp tail. split_and!.
  - eexists _, _. split; [apply SetDeleteItemCallback_run|].
    split; [apply (deleteInternal_present k p it); assumption|]. reflexivity.
  - eexists _, _. split; [reflexivity|].
    split; [apply (deleteInternal_present k p it); assumption|]. reflexivity.
  - eexists _, _. split; [reflexivity|].
    split; [apply (deleteInternal_present k p it); assumption|]. reflexivity.
Qed.

(** X13. The item [Add] returns is the item in the table.  On a valid
    table, when the new entry is not swept at once: an expiry callback
    set through the pointer that [Add] returned is the one that a later
    [Delete] of the key calls, after the delete callbacks of the table;
    [SetAboutToExpireCallback] replaces the callbacks registered on the
    item before, [AddAboutToExpireCallback] adds to them. *)
Theorem expiry_callback_through_the_returned_item
    (f g : callback) (k : K) (d : V) (ls : Duration) (w : World) :
  valid w →
  ls ≤ 0 ∨ (in_int64 ls ∧ 0 ≤ clock (S (ticks w)) - clock (ticks w) < ls) →
  ∃ p w1,
    Add k d ls w = Some (p, w1)
    ∧ (∃ w2 w3,
         SetAboutToExpireCallback p f w1 = Some (tt, w2)
         ∧ Delete k w2 = Some ((Some p, None), w3)
         ∧ history w3 = history w1
             ++ map (λ cb, CallDeleted cb p) (deletedItem (tbl w))
             ++ [CallAboutToExpire f k; MapDelete k])
    ∧ (∃ w2 w3 w4,
         AddAboutToExpireCallback p g w1 = Some (tt, w2)
         ∧ SetAboutToExpireCallback p f w2 = Some (tt, w3)
         ∧ Delete k w3 = Some ((Some p, None), w4)
         ∧ history w4 = history w1
             ++ map (λ cb, CallDeleted cb p) (deletedItem (tbl w))
             ++ [CallAboutToExpire f k; MapDelete k])
    ∧ (∃ w2 w3 w4,
         AddAboutToExpireCallback p g w1 = Some (tt, w2)
         ∧ AddAboutToExpireCallback p f w2 = Some (tt, w3)
         ∧ Delete k w3 = Some ((Some p, None), w4)
         ∧ history w4 = history w1
             ++ map (λ cb, CallDeleted cb p) (deletedItem (tbl w))
             ++ [CallAboutToExpire g k; CallAboutToExpire f k; MapDelete k]).
Proof.
  intros Hv Hc.
  destruct (Add_stored k d ls w Hv Hc) as (w1 & Hadd & Hkp & Hh & _ & Hdel & _).
  set (p := fresh (dom (heap w))) in *.
  set (it := new_item (clock (ticks w)) k d ls) in *.
  assert (Hp : heap w1 !! p = Some it) by (rewrite Hh; apply lookup_insert_eq).
  exists p, w1. split; [exact Hadd|]. split_and!.
  - eexists _, _. split; [apply (SetAboutToExpireCallback_run p f it w1 Hp)|].
    split.
    + apply (deleteInternal_present k p (with_aboutToExpire [f] it)).
      * exact Hkp.
      * cbn. apply lookup_insert_eq.
    + cbn. unfold delete_events. cbn. rewrite Hdel. reflexivity.
  - eexists _, _, _.
    split; [apply (AddAboutToExpireCallback_run p g it w1 Hp)|].
    split.
    { apply (SetAboutToExpireCallback_run p f
               (with_aboutToExpire (aboutToExpire it ++ [g]) it)).
      cbn. apply lookup_insert_eq. }
    split.
    + apply (deleteInternal_present k p
               (with_aboutToExpire [f]
                  (with_aboutToExpire (aboutToExpire it ++ [g]) it))).
      * exact Hkp.
      * cbn. apply lookup_insert_eq.
    + cbn. unfold delete_events. cbn. rewrite Hdel. reflexivity.
  - eexists _, _, _.
    split; [apply (AddAboutToExpireCallback_run p g it w1 Hp)|].
    split.
    { apply (AddAboutToExpireCallback_run p f
               (with_aboutToExpire (aboutToExpire it ++ [g]) it)).
      cbn. apply lookup_insert_eq. }
    split.
    + apply (deleteInternal_present k p
               (with_aboutToExpire
                  (aboutToExpire
                     (with_aboutToExpire (aboutToExpire it ++ [g]) it) ++ [f])
                  (with_aboutToExpire (aboutToExpire it ++ [g]) it))).
      * exact Hkp.
      * cbn. apply lookup_insert_eq.
    + cbn. unfold delete_events. cbn. rewrite Hdel. reflexivity.
Qed.


(** *** The invariant of the table *)

Lemma table_inv_frame (w w' : World) :
  heap w' = heap w →
  items (tbl w') = items (tbl w) →
  cleanupDuration (tbl w') = cleanupDuration (tbl w) →
  cleanupTimer (tbl w') = cleanupTimer (tbl w) →
  loadData (tbl w') = loadData (tbl w) →
  table_inv w → table_inv w'.
Proof.
  intros Hh Hi Hc Ht Hl (Hv & Hk & Htm & Hld). split_and!.
  - intros k p. rewrite Hi, Hh. apply Hv.
  - intros k p it. rewrite Hi, Hh. apply Hk.
  - unfold timer_ok, armed in *. rewrite Hc, Ht. exact Htm.
  - intros f. rewrite Hl. apply Hld.
Qed.

Lemma table_inv_inserted (k : K) (d : V) (ls : Duration) (w : World) :
  table_inv w → table_inv (inserted k d ls w).
Proof.
  intros (Hv & Hk & Htm & Hld). split_and!.
  - apply valid_inserted. exact Hv.
  - intros k' p' it'. unfold inserted. cbn. intros Hk'.
    apply lookup_insert_Some in Hk' as [[<- <-]|[Hne Hk']].
    + rewrite lookup_insert_eq. intros [= <-]. reflexivity.
    + rewrite lookup_insert_ne; [apply Hk; exact Hk'|].
      intros Heq. apply (fresh_not_stored w k' p' Hv Hk'). symmetry. exact Heq.
  - exact Htm.
  - exact Hld.
Qed.

Lemma table_inv_swept (w : World) (m : gmap K loc) (d : Duration)
    (hs : list Event) (t : nat) :
  table_inv w →
  (∀ k p, m !! k = Some p → items (tbl w) !! k = Some p) →
  0 ≤ d →
  table_inv {| heap := heap w; tbl := swept_tbl (tbl w) m d; history := hs;
               ticks := t |}.
Proof.
  intros (Hv & Hk & Htm & Hld) Hsub Hd. split_and!.
  - intros k p Hm. cbn in *. eapply Hv; eauto.
  - intros k p it Hm Hp. cbn in *. eapply Hk; eauto.
  - unfold timer_ok, armed. cbn. split; [exact Hd|].
    destruct (Z.ltb_spec 0 d); [reflexivity|].
    destruct (cleanupTimer (tbl w)); reflexivity.
  - exact Hld.
Qed.

Lemma table_inv_expirationCheck (w : World) :
  table_inv w → ∃ w', expirationCheck w = Some (tt, w') ∧ table_inv w'.
Proof.
  intros Hinv. destruct (expirationCheck_exact w (proj1 Hinv))
    as (d & m & Hrun & Hsub & _ & Hd & _).
  eexists. split; [exact Hrun|]. apply table_inv_swept; assumption.
Qed.

Lemma table_inv_Add (k : K) (d : V) (ls : Duration) (w : World) :
  table_inv w → ∃ p w', Add k d ls w = Some (p, w') ∧ table_inv w'.
Proof.
  intros Hinv. pose proof (table_inv_inserted k d ls w Hinv) as Hi.
  destruct (Add_exact k d ls w (proj1 Hinv))
    as [[_ Hadd]|[_ (d' & m & Hadd & Hsub & _ & Hd & _)]].
  - eexists _, _. split; [exact Hadd | exact Hi].
  - eexists _, _. split; [exact Hadd|]. apply table_inv_swept; assumption.
Qed.

Lemma table_inv_Value (k : K) (args : list Arg) (w : World) :
  table_inv w → ∃ r w', Value k args w = Some (r, w') ∧ table_inv w'.
Proof.
  intros Hinv. pose proof Hinv as (Hv & Hk & Htm & Hld).
  destruct (items (tbl w) !! k) as [p|] eqn:Hkp.
  - destruct (Hv k p Hkp) as [it Hp].
    eexists _, _. split; [apply (Value_present_run k args p it w Hkp Hp)|].
    split_and!; auto.
    + apply valid_store; eauto.
    + intros k' p' it' Hk'. cbn in *. destruct (decide (p' = p)) as [->|Hne].
      * rewrite lookup_insert_eq. intros [= <-]. cbn. eapply Hk; eauto.
      * rewrite lookup_insert_ne by auto. eapply Hk; eauto.
  - destruct (loadData (tbl w)) as [f|] eqn:Hl.
    2:{ eexists _, w. split; [|exact Hinv]. unfold Value.
        erewrite bind_run by reflexivity. rewrite Hkp, Hl. reflexivity. }
    destruct (Hld f eq_refl k args (heap w)) as [Hsub Hres].
    destruct (f k args (heap w)) as [r h'] eqn:Hf. cbn in Hsub, Hres.
    set (w1 := {| heap := h'; tbl := tbl w;
                  history := history w ++ [CallLoadData k args];
                  ticks := ticks w |}).
    assert (Hinv1 : table_inv w1).
    { split_and!.
      - intros k' p' Hk'. cbn in *. destruct (Hv k' p' Hk') as [it Hit].
        exists it. eapply lookup_weaken; eauto.
      - intros k' p' it' Hk' Hp'. cbn in *. destruct (Hv k' p' Hk') as [it Hit].
        pose proof (lookup_weaken _ _ _ _ Hit Hsub) as Hit'.
        assert (it' = it) as -> by congruence. eapply Hk; eauto.
      - exact Htm.
      - intros g Hg. cbn in Hg. apply Hld. congruence. }
    assert (Hload : call_loader f k args w = Some (r, w1)).
    { unfold call_loader. erewrite bind_run by reflexivity. cbn. rewrite Hf.
      reflexivity. }
    destruct r as [pl|].
    + destruct (Hres pl eq_refl) as [itl Hitl].
      destruct (table_inv_Add k (data itl) (lifeSpan itl) w1 Hinv1)
        as (p & w2 & Hadd & Hinv2).
      eexists _, w2. split; [|exact Hinv2]. unfold Value.
      erewrite bind_run by reflexivity. rewrite Hkp, Hl.
      erewrite bind_run by exact Hload. cbn beta iota.
      erewrite bind_run by (apply deref_run; exact Hitl).
      erewrite bind_run by exact Hadd. reflexivity.
    + eexists _, w1. split; [|exact Hinv1]. unfold Value.
      erewrite bind_run by reflexivity. rewrite Hkp, Hl.
      erewrite bind_run by exact Hload. reflexivity.
Qed.

Lemma table_inv_Delete (k : K) (w : World) :
  table_inv w → ∃ r w', Delete k w = Some (r, w') ∧ table_inv w'.
Proof.
  intros Hinv. pose proof Hinv as (Hv & Hk & Htm & Hld).
  destruct (items (tbl w) !! k) as [p|] eqn:Hkp.
  - destruct (Hv k p Hkp) as [it Hp].
    eexists _, _. split; [apply (deleteInternal_present k p it w Hkp Hp)|].
    split_and!; auto.
    + intros k' p' Hk'. cbn in *. apply lookup_delete_Some in Hk' as [_ Hk'].
      eapply Hv; eauto.
    + intros k' p' it' Hk' Hp'. cbn in *.
      apply lookup_delete_Some in Hk' as [_ Hk']. eapply Hk; eauto.
  - eexists _, w. split; [apply deleteInternal_absent; exact Hkp | exact Hinv].
Qed.

Lemma table_inv_run_op (o : Op) (w : World) :
  table_inv w → op_ok o → ∃ w', run_op o w = Some (tt, w') ∧ table_inv w'.
Proof.
  intros Hinv Hok. pose proof Hinv as (Hv & Hk & Htm & Hld).
  destruct o; cbn [run_op].
  - destruct (table_inv_Add k d ls w Hinv) as (p & w' & Hadd & Hinv').
    exists w'. erewrite bind_run by exact Hadd. auto.
  - destruct (items (tbl w) !! k) as [q|] eqn:Hkq.
    + exists w. split; [|exact Hinv]. unfold NotFoundAdd.
      erewrite bind_run; [reflexivity|].
      erewrite bind_run by reflexivity. rewrite Hkq. reflexivity.
    + destruct (table_inv_Add k d ls w Hinv) as (p & w' & Hadd & Hinv').
      exists w'. erewrite bind_run; [split; [reflexivity | exact Hinv']|].
      rewrite (NotFoundAdd_absent _ _ _ _ Hkq).
      erewrite bind_run by exact Hadd. reflexivity.
  - destruct (table_inv_Value k args w Hinv) as (r & w' & Hval & Hinv').
    exists w'. erewrite bind_run by exact Hval. auto.
  - destruct (table_inv_Delete k w Hinv) as (r & w' & Hdel & Hinv').
    exists w'. erewrite bind_run by exact Hdel. auto.
  - exists w. auto.
  - exists w. auto.
  - exists w. erewrite bind_run by (apply MostAccessed_run; exact Hv). auto.
  - eexists. split; [reflexivity|]. split_and!.
    + intros k p Hkp. cbn in Hkp. rewrite lookup_empty in Hkp. discriminate.
    + intros k p it Hkp. cbn in Hkp. rewrite lookup_empty in Hkp. discriminate.
    + unfold timer_ok, armed. cbn. split; [lia|].
      destruct (cleanupTimer (tbl w)); reflexivity.
    + exact Hld.
  - apply table_inv_expirationCheck. exact Hinv.
  - eexists. split; [reflexivity|]. split_and!; auto.
    intros g. cbn. intros ->. exact Hok.
  - eexists. split; [apply SetAddedItemCallback_run|].
    eapply table_inv_frame; [..|exact Hinv]; reflexivity.
  - eexists. split; [reflexivity|].
    eapply table_inv_frame; [..|exact Hinv]; reflexivity.
  - eexists. split; [reflexivity|].
    eapply table_inv_frame; [..|exact Hinv]; reflexivity.
  - eexists. split; [apply SetDeleteItemCallback_run|].
    eapply table_inv_frame; [..|exact Hinv]; reflexivity.
  - eexists. split; [reflexivity|].
    eapply table_inv_frame; [..|exact Hinv]; reflexivity.
  - eexists. split; [reflexivity|].
    eapply table_inv_frame; [..|exact Hinv]; reflexivity.
Qed.

Lemma locked_run_op_inv (o : Op) (w : World) :
  table_inv w → op_ok o →
  ∃ w' locked, locked_run_op o w false = Returns tt w' locked
    ∧ table_inv w'
    ∧ (locked = true → ∃ k, o = OpDelete k).
Proof.
  intros Hinv Hok.
  destruct (table_inv_run_op o w Hinv Hok) as (w' & Hrun & Hinv').
  destruct o; cbn [locked_run_op];
    try (exists w', false; unfold when_free; rewrite Hrun;
         split_and!; [reflexivity | exact Hinv' | discriminate]).
  cbn [run_op] in Hrun. unfold locked_deleteInternal.
  unfold bind, ret in Hrun. unfold Delete in Hrun.
  destruct (deleteInternal k w) as [[[r [e|]] w1]|]; [| |discriminate].
  - injection Hrun as <-. exists w1, true. split_and!; eauto.
  - injection Hrun as <-. exists w1, false. split_and!; auto. discriminate.
Qed.

Lemma table_inv_new_world (n : string) (h : gmap loc CacheItem) :
  table_inv (new_world n h).
Proof.
  split_and!.
  - intros k p Hkp. cbn in Hkp. rewrite lookup_empty in Hkp. discriminate.
  - intros k p it Hkp. cbn in Hkp. rewrite lookup_empty in Hkp. discriminate.
  - split; [cbn; lia | reflexivity].
  - intros f Hf. discriminate.
Qed.

(** X14. The invariant of the table.  A program of calls of the package
    and firings of the timer, run by one goroutine from a state in which
    every pointer of the table is a pointer to an item, every entry is
    stored under the key its item carries, [cleanupDuration] is not
    negative and a timer is pending exactly when [cleanupDuration] is
    positive, and then for that duration, never panics, provided the
    loaders it installs only allocate: either it runs to its end, and the
    state it reaches has these properties again, or it blocks, which
    only a program with a [Delete] does.  The table [Cache] creates is
    such a state. *)
Theorem table_invariant (l : list Op) (w : World) :
  Forall op_ok l →
  table_inv w →
  ((∃ w' locked, locked_run_ops l w false = Returns tt w' locked
                 ∧ table_inv w')
   ∨ (locked_run_ops l w false = Blocks ∧ ∃ k, OpDelete k ∈ l))
  ∧ ((∀ k, OpDelete k ∉ l) →
     ∃ w', locked_run_ops l w false = Returns tt w' false ∧ table_inv w')
  ∧ ∀ n h, table_inv (new_world n h).
Proof.
  intros Hl Hinv. split_and!.
  - revert w Hinv. induction Hl as [|o l Ho _ IH]; intros w Hinv.
    + left. exists w, false. auto.
    + destruct (locked_run_op_inv o w Hinv Ho) as (w1 & lk & Hrun & Hinv1 & Hlk).
      cbn [locked_run_ops]. rewrite Hrun. destruct lk.
      * destruct (Hlk eq_refl) as [k ->]. destruct l as [|o' l'].
        -- left. exists w1, true. auto.
        -- right. split; [|exists k; left].
           cbn [locked_run_ops]. destruct o'; reflexivity.
      * destruct (IH w1 Hinv1) as [IH1|[IH1 [k Hk]]].
        -- left. exact IH1.
        -- right. split; [exact IH1|]. exists k. right. exact Hk.
  - revert w Hinv. induction Hl as [|o l Ho _ IH]; intros w Hinv Hno.
    + exists w. auto.
    + destruct (locked_run_op_inv o w Hinv Ho) as (w1 & lk & Hrun & Hinv1 & Hlk).
      cbn [locked_run_ops]. rewrite Hrun. destruct lk.
      * destruct (Hlk eq_refl) as [k ->]. exfalso. apply (Hno k). left.
      * apply IH; [exact Hinv1|]. intros k Hk. apply (Hno k). right. exact Hk.
  - apply table_inv_new_world.
Qed.

(** *** The directory of the tables *)

Lemma Cache_lookup_same (n : string) (r : Registry) :
  cache (Cache n r).2 !! n = Some (Cache n r).1.
Proof.
  unfold Cache. destruct (cache r !! n) as [t0|] eqn:Hn; cbn.
  - exact Hn.
  - apply lookup_insert_eq.
Qed.

Lemma Cache_lookup_other (n n' : string) (r : Registry) :
  n' ≠ n → cache (Cache n r).2 !! n' = cache r !! n'.
Proof.
  intros Hne. unfold Cache. destruct (cache r !! n) as [t0|] eqn:Hn; cbn.
  - reflexivity.
  - apply lookup_insert_ne. auto.
Qed.

Lemma Cache_known (n : string) (t : loc) (r : Registry) :
  cache r !! n = Some t → Cache n r = (t, r).
Proof. intros Hn. unfold Cache. rewrite Hn. reflexivity. Qed.

(** X16. [Cache] gets or creates.  After [Cache n] the name [n] leads to
    the table returned, and a second [Cache n] returns the same table and
    changes nothing.  For a name that was known the directory is left as
    it was; for a new name the table is a new one, at a location that was
    not in use, with that name, no entry, no timer, no loader and no
    callback, and the other names and tables are as before. *)
Theorem Cache_gets_or_creates (n : string) (r : Registry) :
  let t := (Cache n r).1 in
  let r1 := (Cache n r).2 in
  cache r1 !! n = Some t
  ∧ Cache n r1 = (t, r1)
  ∧ (∀ t0, cache r !! n = Some t0 → t = t0 ∧ r1 = r)
  ∧ (cache r !! n = None →
     tables r !! t = None
     ∧ tables r1 !! t = Some (new_table n)
     ∧ ∀ t', t' ≠ t → tables r1 !! t' = tables r !! t')
  ∧ (∀ n', n' ≠ n → cache r1 !! n' = cache r !! n').
Proof.
  intros t r1. split; [apply Cache_lookup_same|].
  split; [apply Cache_known, Cache_lookup_same|].
  split.
  { intros t0 Hn. unfold t, r1. rewrite (Cache_known n t0 r Hn). auto. }
  split; [|intros n' Hn'; apply Cache_lookup_other; exact Hn'].
  intros Hn. unfold t, r1, Cache. rewrite Hn. cbn. split_and!.
  - apply not_elem_of_dom, is_fresh.
  - apply lookup_insert_eq.
  - intros t' Ht'. apply lookup_insert_ne. auto.
Qed.

Lemma registry_ok_Cache (n : string) (r : Registry) :
  registry_ok r → registry_ok (Cache n r).2.
Proof.
  intros Hok. unfold Cache. destruct (cache r !! n) as [t0|] eqn:Hn; cbn.
  - exact Hok.
  - intros n' t'. cbn. intros Hn'.
    apply lookup_insert_Some in Hn' as [[<- <-]|[Hne Hn']].
    + exists (new_table n). rewrite lookup_insert_eq. auto.
    + destruct (Hok n' t' Hn') as (T & HT & Hname). exists T.
      split; [|exact Hname]. rewrite lookup_insert_ne; [exact HT|].
      intros <-. apply (is_fresh (dom (tables r))). apply elem_of_dom. eauto.
Qed.

Lemma registry_ok_foldl (ns : list string) (r0 : Registry) :
  registry_ok r0 → registry_ok (foldl (λ r n, (Cache n r).2) r0 ns).
Proof.
  revert r0. induction ns as [|n ns IH]; intros r0 H0; cbn; [exact H0|].
  apply IH. apply registry_ok_Cache. exact H0.
Qed.

(** X17. One table for one name.  In the directory that any sequence of
    calls of [Cache] builds from the empty one, every name leads to a
    table that carries this name, so that two names never share a table:
    two calls of [Cache] return the same table exactly when the names are
    the same. *)
Theorem Cache_one_table_per_name (ns : list string) (n1 n2 : string) :
  let r := foldl (λ r n, (Cache n r).2) no_tables ns in
  registry_ok r
  ∧ (∀ m1 m2 t, cache r !! m1 = Some t → cache r !! m2 = Some t → m1 = m2)
  ∧ ((Cache n1 r).1 = (Cache n2 (Cache n1 r).2).1 ↔ n1 = n2).
Proof.
  intros r.
  assert (Hok : registry_ok r).
  { unfold r. apply registry_ok_foldl.
    intros n t Hn. cbn in Hn. rewrite lookup_empty in Hn. discriminate. }
  assert (Hinj : ∀ r', registry_ok r' → ∀ m1 m2 t,
            cache r' !! m1 = Some t → cache r' !! m2 = Some t → m1 = m2).
  { intros r' Hr' m1 m2 t H1 H2.
    destruct (Hr' m1 t H1) as (T1 & HT1 & <-).
    destruct (Hr' m2 t H2) as (T2 & HT2 & <-). congruence. }
  split; [exact Hok|]. split; [apply Hinj; exact Hok|].
  pose proof (registry_ok_Cache n1 r Hok) as Hok1.
  pose proof (registry_ok_Cache n2 _ Hok1) as Hok2.
  pose proof (Cache_lookup_same n1 r) as H1.
  pose proof (Cache_lookup_same n2 (Cache n1 r).2) as H2.
  split.
  - intros Heq. destruct (decide (n1 = n2)) as [|Hne]; [assumption|].
    apply (Hinj _ Hok2 n1 n2 (Cache n2 (Cache n1 r).2).1).
    + rewrite (Cache_lookup_other n2 n1) by auto. rewrite H1. f_equal. exact Heq.
    + exact H2.
  - intros <-. rewrite (Cache_known n1 _ _ H1). reflexivity.
Qed.


(** *** The functions with their locks, and without *)

Lemma lbind_run {A B} (m : L A) (f : A → L B) (w w1 : World)
    (mu mu1 : Mutex) (a : A) :
  m w mu = Done a w1 mu1 → lbind m f w mu = f a w1 mu1.
Proof. intros E. unfold lbind. rewrite E. reflexivity. Qed.

Lemma lift_run {A} (m : M A) (w w1 : World) (mu : Mutex) (a : A) :
  m w = Some (a, w1) → lift m w mu = Done a w1 mu.
Proof. intros E. unfold lift. rewrite E. reflexivity. Qed.

Lemma lift_bind {A B} (m : M A) (f : A → M B) (w : World) (mu : Mutex) :
  lift (bind m f) w mu = lbind (lift m) (λ a, lift (f a)) w mu.
Proof. unfold lift, lbind, bind. destruct (m w) as [[a w1]|]; reflexivity. Qed.

Lemma lift_then {A} (m' : L A) (m : M A) (w : World) (mu : Mutex) :
  m' w mu = lift m w mu →
  lbind m' (λ _, lret tt) w mu = lift (bind m (λ _, ret tt)) w mu.
Proof.
  intros E. unfold lbind. rewrite E. unfold lift, bind.
  destruct (m w) as [[a w1]|]; reflexivity.
Qed.

Lemma with_Lock_lift {A} (m : M A) (w : World) :
  with_Lock (lift m) w Free = lift m w Free.
Proof.
  unfold with_Lock, lbind, ct_Lock, ct_Unlock, lift, lret.
  destruct (m w) as [[a w1]|]; reflexivity.
Qed.

Lemma with_RLock_lift {A} (m : M A) (w : World) :
  with_RLock (lift m) w Free = lift m w Free.
Proof.
  unfold with_RLock, lbind, ct_RLock, ct_RUnlock, lift, lret.
  destruct (m w) as [[a w1]|]; reflexivity.
Qed.

Lemma deleteInternal_mu_absent (k : K) (w : World) :
  items (tbl w) !! k = None →
  deleteInternal_mu k w Free = Done (None, Some ErrCacheNotFound) w Writing.
Proof.
  intros Hk. unfold deleteInternal_mu.
  erewrite lbind_run by reflexivity.
  erewrite lbind_run by reflexivity.
  rewrite Hk. reflexivity.
Qed.

Lemma deleteInternal_mu_present (k : K) (p : loc) (it : CacheItem)
    (w : World) :
  items (tbl w) !! k = Some p →
  heap w !! p = Some it →
  deleteInternal_mu k w Free = lift (deleteInternal k) w Free.
Proof.
  intros Hk Hp. rewrite (lift_run _ _ _ _ _ (deleteInternal_present k p it w Hk Hp)).
  unfold deleteInternal_mu.
  erewrite lbind_run by reflexivity.
  erewrite lbind_run by reflexivity.
  rewrite Hk.
  erewrite lbind_run by (apply lift_run, for_each_emit).
  erewrite lbind_run by (apply lift_run, deref_run; exact Hp).
  erewrite lbind_run by (apply lift_run, for_each_emit).
  erewrite lbind_run by reflexivity.
  erewrite lbind_run by reflexivity.
  erewrite lbind_run by reflexivity.
  unfold lret. cbn. unfold delete_events. rewrite <- !app_assoc. reflexivity.
Qed.

Lemma sweep_entry_mu_run (now : Time) (s : Duration) (k0 : K) (p0 : loc)
    (l : list (K * loc)) (w : World) :
  k0 ∉ l.*1 →
  items (tbl w) !! k0 = Some p0 →
  (∀ k p, (k, p) ∈ l → items (tbl w) !! k = Some p) →
  valid w →
  ∃ s1 w1,
    sweep_entry now s (k0, p0) w = Some (s1, w1)
    ∧ sweep_entry_mu now s (k0, p0) w Writing = Done s1 w1 Writing
    ∧ valid w1
    ∧ ∀ k p, (k, p) ∈ l → items (tbl w1) !! k = Some p.
Proof.
  intros Hk0 Hk0p Hin Hv. destruct (Hv _ _ Hk0p) as [it Hit].
  unfold sweep_entry, sweep_entry_mu. cbn [fst snd].
  erewrite bind_run by (apply deref_run; exact Hit).
  erewrite lbind_run by (apply lift_run, deref_run; exact Hit).
  destruct (lifeSpan it =? 0); [exists s, w; auto|].
  destruct (curDuration now it <=? 0).
  - erewrite bind_run by (apply deleteInternal_present; eassumption).
    erewrite lbind_run by reflexivity.
    erewrite lbind_run
      by (rewrite (deleteInternal_mu_present k0 p0 it w Hk0p Hit);
          apply lift_run, deleteInternal_present; eassumption).
    erewrite lbind_run by reflexivity.
    eexists _, _. split_and!; [reflexivity|reflexivity| |].
    + intros k p. cbn. intros Hkp.
      apply lookup_delete_Some in Hkp as [_ Hkp]. eapply Hv; eauto.
    + intros k p Hkp. cbn. rewrite lookup_delete_ne; [apply Hin; exact Hkp|].
      intros <-. apply Hk0. apply list_elem_of_fmap.
      exists (k0, p). split; [reflexivity | exact Hkp].
  - destruct ((curDuration now it <? s) || (s =? 0)); eexists _, w; auto.
Qed.

Lemma sweep_mu_run (now : Time) (l : list (K * loc)) :
  ∀ (s : Duration) (w : World),
    NoDup l.*1 →
    (∀ k p, (k, p) ∈ l → items (tbl w) !! k = Some p) →
    valid w →
    sweep_mu now s l w Writing = lift (sweep now s l) w Writing.
Proof.
  induction l as [|[k0 p0] l IH]; intros s w Hnd Hin Hv; [reflexivity|].
  apply NoDup_cons in Hnd as [Hk0 Hnd]. cbn [fst] in Hk0.
  destruct (sweep_entry_mu_run now s k0 p0 l w Hk0) as (s1 & w1 & Hseq & Hmu & Hv1 & Hin1);
    [apply Hin; left | intros k p Hkp; apply Hin; right; exact Hkp | exact Hv |].
  cbn [sweep_mu sweep]. rewrite lift_bind.
  erewrite lbind_run by exact Hmu.
  erewrite lbind_run by (apply lift_run; exact Hseq).
  apply IH; assumption.
Qed.

Lemma lift_bind_run {A B} (m : M A) (f : A → M B) (w w1 : World)
    (mu : Mutex) (a : A) :
  m w = Some (a, w1) → lift (bind m f) w mu = lift (f a) w1 mu.
Proof. intros E. unfold lift, bind. rewrite E. reflexivity. Qed.

Lemma expirationCheck_mu_run (w : World) :
  valid w → expirationCheck_mu w Free = lift expirationCheck w Free.
Proof.
  intros Hv. unfold expirationCheck_mu, expirationCheck.
  erewrite lift_bind_run by reflexivity.
  erewrite lift_bind_run by reflexivity.
  erewrite lift_bind_run by reflexivity.
  erewrite lift_bind_run by reflexivity.
  erewrite lbind_run by reflexivity.
  erewrite lbind_run by reflexivity.
  erewrite lbind_run by reflexivity.
  erewrite lbind_run by reflexivity.
  erewrite lbind_run by reflexivity.
  unfold lbind at 1.
  rewrite sweep_mu_run;
    [|apply range_NoDup|intros k p; apply range_elem|exact Hv].
  unfold lift at 1. unfold lift at 3. unfold bind at 1.
  destruct (sweep _ _ _ _) as [[s1 w3]|]; [|reflexivity].
  unfold lift, lbind, bind, modify_tbl, modify, ct_Unlock, lret, ret. cbn.
  destruct (0 <? s1); reflexivity.
Qed.

Lemma lift_ext {A} (m m' : M A) (w w' : World) (mu : Mutex) :
  m w = m' w' → lift m w mu = lift m' w' mu.
Proof. intros E. unfold lift. rewrite E. reflexivity. Qed.

Lemma lift_then_ret {A B} (m' : L A) (m : M A) (b : B) (w : World)
    (mu : Mutex) :
  m' w mu = lift m w mu →
  lbind m' (λ _, lret b) w mu = lift (bind m (λ _, ret b)) w mu.
Proof.
  intros E. unfold lbind. rewrite E. unfold lift, bind.
  destruct (m w) as [[a w1]|]; reflexivity.
Qed.

Lemma addInternal_mu_run (p : loc) (it : CacheItem) (w : World) :
  valid w → heap w !! p = Some it →
  addInternal_mu p w Free = lift (addInternal p) w Free.
Proof.
  intros Hv Hp. rewrite (lift_ext _ _ _ _ _ (addInternal_run p it w Hp)).
  unfold addInternal_mu.
  erewrite lbind_run by reflexivity.
  erewrite lbind_run by (apply lift_run, deref_run; exact Hp).
  erewrite lbind_run by reflexivity.
  erewrite lbind_run by reflexivity.
  erewrite lbind_run by reflexivity.
  erewrite lbind_run by reflexivity.
  erewrite lbind_run by reflexivity.
  erewrite lbind_run by (apply lift_run, for_each_emit).
  erewrite lbind_run by (apply lift_run, deref_run; exact Hp).
  cbn. unfold add_events. cbn. rewrite <- app_assoc. cbn.
  destruct ((0 <? lifeSpan it)
            && ((cleanupDuration (tbl w) =? 0)
                || (lifeSpan it <? cleanupDuration (tbl w)))); [|reflexivity].
  apply expirationCheck_mu_run. intros k q. cbn. intros Hk.
  apply lookup_insert_Some in Hk as [[_ <-]|[_ Hk]]; [eauto|].
  eapply Hv; eauto.
Qed.

Lemma valid_alloc (w : World) (it : CacheItem) (t : nat) :
  valid w →
  valid {| heap := <[fresh (dom (heap w)) := it]> (heap w); tbl := tbl w;
           history := history w; ticks := t |}.
Proof.
  intros Hv k p Hk. cbn in *. destruct (Hv k p Hk) as [it' Hit'].
  rewrite lookup_insert_ne; [eauto|].
  intros <-. apply (is_fresh (dom (heap w))). apply elem_of_dom. eauto.
Qed.

Lemma Add_mu_run (k : K) (d : V) (ls : Duration) (w : World) :
  valid w → Add_mu k d ls w Free = lift (Add k d ls) w Free.
Proof.
  intros Hv. unfold Add_mu, Add.
  erewrite lift_bind_run by reflexivity.
  erewrite lbind_run by reflexivity.
  apply lift_then_ret.
  eapply addInternal_mu_run; [apply valid_alloc; exact Hv|].
  cbn. apply lookup_insert_eq.
Qed.

Lemma NotFoundAdd_mu_run (k : K) (ls : Duration) (d : V) (w : World) :
  valid w → NotFoundAdd_mu k ls d w Free = lift (NotFoundAdd k ls d) w Free.
Proof.
  intros Hv. unfold NotFoundAdd_mu, NotFoundAdd.
  erewrite lift_bind_run by reflexivity.
  erewrite lbind_run by reflexivity.
  erewrite lbind_run by reflexivity.
  destruct (items (tbl w) !! k) as [q|]; [reflexivity|].
  erewrite lbind_run by reflexivity.
  erewrite lift_bind_run by reflexivity.
  erewrite lbind_run by reflexivity.
  apply lift_then_ret.
  eapply addInternal_mu_run; [apply valid_alloc; exact Hv|].
  cbn. apply lookup_insert_eq.
Qed.

Lemma Value_mu_run (k : K) (args : list Arg) (w : World) :
  table_inv w → Value_mu k args w Free = lift (Value k args) w Free.
Proof.
  intros (Hv & _ & _ & Hld). unfold Value_mu, Value.
  erewrite lift_bind_run by reflexivity.
  erewrite lbind_run by reflexivity.
  erewrite lbind_run by reflexivity.
  erewrite lbind_run by reflexivity.
  destruct (items (tbl w) !! k) as [r|].
  { apply lift_then_ret. reflexivity. }
  destruct (loadData (tbl w)) as [f|] eqn:Hf; [|reflexivity].
  destruct (Hld f eq_refl k args (heap w)) as [Hsub Hres].
  destruct (f k args (heap w)) as [r h] eqn:Hfk. cbn in Hsub, Hres.
  assert (Hload : call_loader f k args w
                  = Some (r, {| heap := h; tbl := tbl w;
                                history := history w ++ [CallLoadData k args];
                                ticks := ticks w |})).
  { unfold call_loader. erewrite bind_run by reflexivity. cbn. rewrite Hfk.
    reflexivity. }
  erewrite lift_bind_run by exact Hload.
  erewrite lbind_run by (apply lift_run; exact Hload).
  destruct r as [q|]; [|reflexivity].
  destruct (Hres q eq_refl) as [it Hit].
  erewrite lift_bind_run by (apply deref_run; exact Hit).
  erewrite lbind_run by (apply lift_run, deref_run; exact Hit).
  apply lift_then_ret.
  apply Add_mu_run. intros k' p' Hk'. cbn in *.
  destruct (Hv k' p' Hk') as [it' Hit'].
  exists it'. eapply lookup_weaken; eauto.
Qed.

Lemma run_op_mu_run (o : Op) (w : World) :
  table_inv w → op_ok o →
  (∀ k, o ≠ OpDelete k) →
  run_op_mu o w Free = lift (run_op o) w Free.
Proof.
  intros Hinv Hok Hno. pose proof Hinv as (Hv & _).
  destruct o; cbn [run_op_mu run_op].
  - apply lift_then_ret, Add_mu_run, Hv.
  - apply lift_then_ret, NotFoundAdd_mu_run, Hv.
  - apply lift_then_ret, Value_mu_run, Hinv.
  - exfalso. eapply Hno. reflexivity.
  - apply lift_then_ret, with_RLock_lift.
  - apply lift_then_ret, with_RLock_lift.
  - apply lift_then_ret, with_RLock_lift.
  - apply with_Lock_lift.
  - apply expirationCheck_mu_run, Hv.
  - apply with_Lock_lift.
  - unfold SetAddedItemCallback_mu, SetAddedItemCallback.
    erewrite lift_bind_run by reflexivity.
    erewrite lbind_run by reflexivity.
    destruct (0 <? length (addedItem (tbl w)))%nat; reflexivity.
  - apply with_Lock_lift.
  - apply with_Lock_lift.
  - unfold SetDeleteItemCallback_mu, SetDeleteItemCallback.
    erewrite lift_bind_run by reflexivity.
    erewrite lbind_run by reflexivity.
    destruct (0 <? length (deletedItem (tbl w)))%nat; reflexivity.
  - apply with_Lock_lift.
  - apply with_Lock_lift.
Qed.

Lemma run_op_mu_blocks (o : Op) (w : World) : run_op_mu o w Writing = Blocked.
Proof.
  destruct o; cbn [run_op_mu]; try reflexivity.
  - unfold SetAddedItemCallback_mu.
    erewrite lbind_run by reflexivity.
    destruct (0 <? length (addedItem (tbl w)))%nat; reflexivity.
  - unfold SetDeleteItemCallback_mu.
    erewrite lbind_run by reflexivity.
    destruct (0 <? length (deletedItem (tbl w)))%nat; reflexivity.
Qed.

(** The flag of [locked_run_op] is the state of the lock that the calls
    of [Lock] and [Unlock] give. *)
Lemma locked_run_op_agrees (o : Op) (w : World) :
  table_inv w → op_ok o →
  run_op_mu o w Free
  = match locked_run_op o w false with
    | Returns a w' locked => Done a w' (if locked then Writing else Free)
    | Blocks => Blocked
    | Panics => Fatal
    end.
Proof.
  intros Hinv Hok. pose proof Hinv as (Hv & _).
  assert ((∃ k, o = OpDelete k) ∨ ∀ k, o ≠ OpDelete k) as [[k ->]|Hno]
    by (destruct o; try (right; discriminate); left; eauto).
  - cbn [run_op_mu locked_run_op]. unfold locked_deleteInternal, Delete_mu.
    destruct (items (tbl w) !! k) as [p|] eqn:Hk.
    + destruct (Hv k p Hk) as [it Hp].
      rewrite (deleteInternal_present k p it w Hk Hp).
      erewrite lbind_run; [reflexivity|].
      rewrite (deleteInternal_mu_present k p it w Hk Hp).
      apply lift_run, deleteInternal_present; assumption.
    + rewrite (deleteInternal_absent k w Hk).
      erewrite lbind_run by (apply deleteInternal_mu_absent; exact Hk).
      reflexivity.
  - rewrite run_op_mu_run by assumption.
    assert (locked_run_op o w false = when_free (run_op o) w false) as ->
      by (destruct o; try reflexivity; exfalso; eapply Hno; reflexivity).
    unfold when_free, lift. destruct (run_op o w) as [[[] w']|]; reflexivity.
Qed.

(** *** The lock of the table after a deletion *)

(** X15. The lock of the table, for one goroutine, read off the calls of
    [Lock], [Unlock], [RLock] and [RUnlock] of each function.  On a table
    that is well formed and with the lock free: [Delete] of a key that is
    absent returns [ErrCacheNotFound], leaves the table as it was and
    returns with the lock held for writing, its return coming before the
    [Unlock]; [Delete] of a key that is present returns the item with the
    lock free.  Every call of the package, and the sweep, returns the
    state that the function without its locks gives, with the lock free
    unless the call is a [Delete] of a key that is absent.  Once the lock
    is held, every call of the package, and the sweep, blocks. *)
Theorem Delete_absent_keeps_the_lock (o : Op) (w : World) :
  table_inv w → op_ok o →
  (∀ k, items (tbl w) !! k = None →
        Delete_mu k w Free = Done (None, Some ErrCacheNotFound) w Writing)
  ∧ (∀ k p, items (tbl w) !! k = Some p →
            ∃ w', Delete_mu k w Free = Done (Some p, None) w' Free
                  ∧ Delete k w = Some ((Some p, None), w'))
  ∧ (∃ w', run_op o w = Some (tt, w')
           ∧ run_op_mu o w Free = Done tt w' (lock_after o w))
  ∧ ∀ o' w', run_op_mu o' w' Writing = Blocked.
Proof.
  intros Hinv Hok. pose proof Hinv as (Hv & _).
  assert (Hpresent : ∀ k p, items (tbl w) !! k = Some p →
            ∃ w', Delete_mu k w Free = Done (Some p, None) w' Free
                  ∧ Delete k w = Some ((Some p, None), w')).
  { intros k p Hk. destruct (Hv k p Hk) as [it Hp].
    pose proof (deleteInternal_present k p it w Hk Hp) as Hseq.
    eexists. split; [|exact Hseq]. unfold Delete_mu.
    rewrite (deleteInternal_mu_present k p it w Hk Hp).
    apply lift_run. exact Hseq. }
  split_and!.
  - intros k Hk. apply deleteInternal_mu_absent, Hk.
  - exact Hpresent.
  - destruct (table_inv_run_op o w Hinv Hok) as (w' & Hrun & _).
    exists w'. split; [exact Hrun|].
    assert ((∃ k, o = OpDelete k) ∨ ∀ k, o ≠ OpDelete k) as [[k ->]|Hno]
      by (destruct o; try (right; discriminate); left; eauto).
    + cbn [run_op_mu lock_after]. cbn [run_op] in Hrun.
      destruct (items (tbl w) !! k) as [p|] eqn:Hk.
      * destruct (Hpresent k p Hk) as (w1 & Hmu & Hseq).
        erewrite bind_run in Hrun by exact Hseq. injection Hrun as <-.
        erewrite lbind_run by exact Hmu. reflexivity.
      * unfold Delete in Hrun.
        erewrite bind_run in Hrun by (apply deleteInternal_absent; exact Hk).
        injection Hrun as <-.
        erewrite lbind_run by (apply deleteInternal_mu_absent; exact Hk).
        reflexivity.
    + rewrite run_op_mu_run by assumption.
      rewrite (lift_run _ _ _ _ _ Hrun).
      destruct o; try reflexivity. exfalso. eapply Hno. reflexivity.
  - apply run_op_mu_blocks.
Qed.

End operations.

End cache2go.

(** ** A table of three entries

    The keys, the data and the loader arguments are strings; [range]
    visits the map in the order of [map_to_list], the clock advances by
    5000 ns between two readings, and the slice is sorted by a merge
    sort. *)

Definition demo_clock (n : nat) : Time := 5000 * Z.of_nat (S n).

Definition demo_sort (l : list (@CacheItemPair string))
  : list (@CacheItemPair string) :=
  @merge_sort _ (λ a b, Less b a = false)
    (λ a b, decide (Less b a = false)) l.

Definition itemA : @CacheItem string string :=
  {| key := "A"; data := "first"; lifeSpan := 0; createTime := 0;
     accessedTime := 0; accessCount := 5; aboutToExpire := [7%nat] |}.

Definition itemB : @CacheItem string string :=
  {| key := "B"; data := "second"; lifeSpan := 3000; createTime := 0;
     accessedTime := 0; accessCount := 1; aboutToExpire := [] |}.

Definition itemC : @CacheItem string string :=
  {| key := "C"; data := "third"; lifeSpan := 10000; createTime := 0;
     accessedTime := 0; accessCount := 3; aboutToExpire := [] |}.

Definition demo_heap : gmap loc (@CacheItem string string) :=
  <[1%positive := itemA]> (<[2%positive := itemB]> (<[3%positive := itemC]> ∅)).

Definition demo_items : gmap string loc :=
  <["A" := 1%positive]> (<["B" := 2%positive]> (<["C" := 3%positive]> ∅)).

Definition demo_tbl : @CacheTable string _ _ string string :=
  {| name := "myCache"; items := demo_items;
     cleanupTimer := Some (time_AfterFunc 3000);
     cleanupDuration := 3000; loadData := None;
     addedItem := [1%nat]; deletedItem := [3%nat] |}.

Definition demo : @World string _ _ string string :=
  {| heap := demo_heap; tbl := demo_tbl; history := []; ticks := 0 |}.

(** A loader that builds an item for the key ["D"] and declines every
    other key. *)
Definition loaded : @CacheItem string string :=
  {| key := "loaded"; data := "fourth"; lifeSpan := 20000; createTime := 1;
     accessedTime := 2; accessCount := 9; aboutToExpire := [8%nat] |}.

Definition demo_loader : @Loader string string string :=
  λ k args h,
    if String.eqb k "D"
    then let p := fresh (dom h) in (Some p, <[p := loaded]> h)
    else (None, h).

Definition demo_loading : @World string _ _ string string :=
  {| heap := demo_heap;
     tbl := {| name := "myCache"; items := demo_items;
               cleanupTimer := Some (time_AfterFunc 3000);
               cleanupDuration := 3000; loadData := Some demo_loader;
               addedItem := [1%nat]; deletedItem := [3%nat] |};
     history := []; ticks := 0 |}.

(** A table whose only entry has the smallest life span of [int64]. *)
Definition itemN : @CacheItem string string :=
  {| key := "N"; data := "negative"; lifeSpan := minDuration; createTime := 0;
     accessedTime := 0; accessCount := 0; aboutToExpire := [] |}.

Definition negative : @World string _ _ string string :=
  {| heap := {[ 1%positive := itemN ]};
     tbl := {| name := "myCache"; items := {[ "N" := 1%positive ]};
               cleanupTimer := None; cleanupDuration := 0; loadData := None;
               addedItem := []; deletedItem := [] |};
     history := []; ticks := 0 |}.

Lemma map_to_list_range {K} `{Countable K} (m : gmap K loc) :
  map_to_list m ≡ₚ map_to_list m.
Proof. reflexivity. Qed.

Lemma valid_decide {K} `{Countable K} {V Arg} (w : @World K _ _ V Arg) :
  bool_decide (map_Forall (λ _ p, is_Some (heap w !! p)) (items (tbl w))) = true →
  valid w.
Proof. intros Hd%bool_decide_eq_true k p Hk. exact (Hd k p Hk). Qed.

Lemma demo_sort_perm (l : list (@CacheItemPair string)) : demo_sort l ≡ₚ l.
Proof. apply merge_sort_Permutation. Qed.

Lemma demo_sort_sorted (l : list (@CacheItemPair string)) :
  StronglySorted (λ a b, Less b a = false) (demo_sort l).
Proof.
  apply StronglySorted_merge_sort.
  - intros a b c. unfold Less. rewrite !Z.ltb_ge. lia.
  - intros a b. unfold Less. rewrite !Z.ltb_ge. lia.
Qed.

(** ** The properties on the table of three entries *)

Lemma expirationCheck_reconciles_witness :
  valid demo
  ∧ let now := demo_clock (ticks demo) in
    ∃ w', expirationCheck demo_clock map_to_list demo = Some (tt, w')
      ∧ heap w' = heap demo
      ∧ (∀ k p it, items (tbl demo) !! k = Some p → heap demo !! p = Some it →
           items (tbl w') !! k = if expired now it then None else Some p)
      ∧ (∀ k, items (tbl demo) !! k = None → items (tbl w') !! k = None)
      ∧ (∀ k p it, items (tbl demo) !! k = Some p → heap demo !! p = Some it →
           in_int64 (lifeSpan it) → 0 < lifeSpan it →
           lifeSpan it - (now - accessedTime it) ≤ 0 →
           items (tbl w') !! k = None)
      ∧ ((∀ k it, ¬ time_bounded w' k it) → cleanupDuration (tbl w') = 0)
      ∧ (∀ k it, time_bounded w' k it →
           0 < cleanupDuration (tbl w') ≤ curDuration now it)
      ∧ (0 < cleanupDuration (tbl w') →
           ∃ k it, time_bounded w' k it
                   ∧ cleanupDuration (tbl w') = curDuration now it)
      ∧ (∀ k it, time_bounded w' k it → in_int64 (lifeSpan it) →
           0 < lifeSpan it → accessedTime it ≤ now →
           curDuration now it = lifeSpan it - (now - accessedTime it))
      ∧ armed (tbl w')
        = if 0 <? cleanupDuration (tbl w') then Some (cleanupDuration (tbl w'))
          else None.
Proof.
  assert (Hv : valid demo) by (apply valid_decide; vm_compute; reflexivity).
  split; [exact Hv|].
  exact (expirationCheck_reconciles demo_clock map_to_list map_to_list_range
           demo Hv).
Defined.

Lemma entries_decide {K} `{Countable K} {V Arg}
    (P : @CacheItem K V → bool) (w : @World K _ _ V Arg) :
  bool_decide
    (map_Forall (λ _ p, match heap w !! p with
                        | Some it => P it
                        | None => true
                        end = true)
       (items (tbl w))) = true →
  ∀ k p it, items (tbl w) !! k = Some p → heap w !! p = Some it →
            P it = true.
Proof.
  intros Hd%bool_decide_eq_true k p it Hk Hp. specialize (Hd k p Hk).
  cbn in Hd. rewrite Hp in Hd. exact Hd.
Qed.

Lemma expirationCheck_without_negative_lifeSpans_witness :
  valid demo
  ∧ (∀ k p it, items (tbl demo) !! k = Some p → heap demo !! p = Some it →
       0 ≤ lifeSpan it ≤ maxDuration
       ∧ accessedTime it ≤ demo_clock (ticks demo))
  ∧ let now := demo_clock (ticks demo) in
    let left_of (it : @CacheItem string string) :=
      lifeSpan it - (now - accessedTime it) in
    ∃ w', expirationCheck demo_clock map_to_list demo = Some (tt, w')
      ∧ (∀ k p it, items (tbl demo) !! k = Some p → heap demo !! p = Some it →
           0 < lifeSpan it → left_of it ≤ 0 → items (tbl w') !! k = None)
      ∧ ((∀ k p it, items (tbl w') !! k = Some p → heap w' !! p = Some it →
                    ¬ 0 < lifeSpan it) →
         cleanupDuration (tbl w') = 0)
      ∧ (∀ k p it, items (tbl w') !! k = Some p → heap w' !! p = Some it →
           0 < lifeSpan it → 0 < cleanupDuration (tbl w') ≤ left_of it)
      ∧ (0 < cleanupDuration (tbl w') →
           ∃ k p it, items (tbl w') !! k = Some p ∧ heap w' !! p = Some it
                     ∧ 0 < lifeSpan it
                     ∧ cleanupDuration (tbl w') = left_of it)
      ∧ armed (tbl w')
        = if 0 <? cleanupDuration (tbl w')
          then Some (cleanupDuration (tbl w')) else None.
Proof.
  assert (Hv : valid demo) by (apply valid_decide; vm_compute; reflexivity).
  assert (Hdata : ∀ k p it, items (tbl demo) !! k = Some p →
                    heap demo !! p = Some it →
                    0 ≤ lifeSpan it ≤ maxDuration
                    ∧ accessedTime it ≤ demo_clock (ticks demo)).
  { intros k p it Hk Hp.
    pose proof (entries_decide
                  (λ it, (0 <=? lifeSpan it) && (lifeSpan it <=? maxDuration)
                         && (accessedTime it <=? demo_clock (ticks demo)))
                  demo ltac:(vm_compute; reflexivity) k p it Hk Hp) as Hb.
    cbn beta in Hb. apply andb_true_iff in Hb as [Hb H3].
    apply andb_true_iff in Hb as [H1 H2].
    apply Z.leb_le in H1, H2, H3. auto. }
  split; [exact Hv|]. split; [exact Hdata|].
  exact (expirationCheck_without_negative_lifeSpans demo_clock map_to_list
           map_to_list_range demo Hv Hdata).
Defined.

(** C1.  The sweep on the table [negative], whose one entry has the life
    span [math.MinInt64] and was accessed 5000 before the reading of the
    clock.  The subtraction [lifeSpan - now.Sub(accessedTime)] of the
    sweep overflows to a positive duration, and the sweep exempts a life
    span of 0 only, where [addInternal] takes a positive one for the
    time-bounded: the entry stays, and although no entry with a positive
    life span is left, [cleanupDuration] is not 0 and a timer is pending,
    for some 292 years.  On a table without negative life spans the sweep
    does what the claim says
    ([expirationCheck_without_negative_lifeSpans]). *)
Lemma expirationCheck_negative_lifeSpan_counterexample :
  ∃ w', expirationCheck demo_clock map_to_list negative = Some (tt, w')
    ∧ (∀ k p it, items (tbl w') !! k = Some p → heap w' !! p = Some it →
         ¬ 0 < lifeSpan it)
    ∧ cleanupDuration (tbl w') = 2 ^ 63 - 5000
    ∧ cleanupDuration (tbl w') ≠ 0
    ∧ armed (tbl w') = Some (2 ^ 63 - 5000).
Proof.
  exists {| heap := heap negative;
            tbl := swept_tbl (tbl negative) (items (tbl negative))
                     (2 ^ 63 - 5000);
            history := [CallExpirationCheck]; ticks := 1 |}.
  split; [vm_compute; reflexivity|]. cbn [tbl heap items swept_tbl negative].
  split_and!.
  - intros k p it Hk Hp.
    apply lookup_singleton_Some in Hk as [<- <-].
    apply lookup_singleton_Some in Hp as [_ <-]. vm_compute. discriminate.
  - reflexivity.
  - discriminate.
  - reflexivity.
Qed.

Lemma Add_triggers_expirationCheck_witness :
  valid demo
  ∧ ∃ p w', Add demo_clock map_to_list "D" "fourth" 1000 demo = Some (p, w')
      ∧ (0 < 1000 ∧ (cleanupDuration (tbl demo) = 0
                     ∨ 1000 < cleanupDuration (tbl demo)) →
         checks (history w') = S (checks (history demo)))
      ∧ (¬ (0 < 1000 ∧ (cleanupDuration (tbl demo) = 0
                        ∨ 1000 < cleanupDuration (tbl demo))) →
         checks (history w') = checks (history demo))
      ∧ (armed (tbl demo)
         = (if 0 <? cleanupDuration (tbl demo)
            then Some (cleanupDuration (tbl demo)) else None) →
         0 ≤ cleanupDuration (tbl demo) →
         (0 < 1000 ∧ (cleanupDuration (tbl demo) = 0
                      ∨ 1000 < cleanupDuration (tbl demo)))
         ↔ (0 < 1000 ∧ (armed (tbl demo) = None
                        ∨ ∃ d', armed (tbl demo) = Some d' ∧ 1000 < d'))).
Proof.
  assert (Hv : valid demo) by (apply valid_decide; vm_compute; reflexivity).
  split; [exact Hv|].
  exact (Add_triggers_expirationCheck demo_clock map_to_list map_to_list_range
           "D" "fourth" 1000 demo Hv).
Defined.

(** What is left at [now] of a timer armed at [armed_at] for [d]. *)
Definition timer_remaining (d : Duration) (armed_at now : Time) : Duration :=
  d - (now - armed_at).

(** A clock that reads 0 three times and 9000 from then on. *)
Definition late_clock (n : nat) : Time := if (n <? 3)%nat then 0 else 9000.

Definition empty_table : @World string _ _ string string :=
  {| heap := ∅;
     tbl := {| name := "myCache"; items := ∅; cleanupTimer := None;
               cleanupDuration := 0; loadData := None; addedItem := [];
               deletedItem := [] |};
     history := []; ticks := 0 |}.

(** The claim C2 as it is written fails after [Add("A", "first", 10000)]
    on the empty table, a [Value("A")] and then, 9000 later,
    [Add("B", "second", 5000)].  The sweep of the first [Add] arms the
    timer for 10000; it does so between the second and the third reading
    of the clock, which are both 0, hence at 0.  The second [Add] reads
    9000: 1000 is left of the timer, the life span 5000 is not smaller,
    and a timer is armed; yet the second [Add] runs [expirationCheck],
    because 5000 is smaller than [cleanupDuration], which is still
    10000. *)
Lemma Add_remaining_duration_counterexample :
  ∃ p1 w1 r w2 p3 w3,
    Add late_clock map_to_list "A" "first" 10000 empty_table = Some (p1, w1)
    ∧ armed (tbl w1) = Some 10000
    ∧ cleanupDuration (tbl w1) = 10000
    ∧ late_clock 1 = 0
    ∧ Value late_clock map_to_list "A" [] w1 = Some (r, w2)
    ∧ late_clock 2 = 0
    ∧ tbl w2 = tbl w1
    ∧ late_clock (ticks w2) = 9000
    ∧ timer_remaining 10000 0 9000 = 1000
    ∧ Add late_clock map_to_list "B" "second" 5000 w2 = Some (p3, w3)
    ∧ checks (history w3) = S (checks (history w2))
    ∧ ¬ (0 < 5000
         ∧ (armed (tbl w2) = None
            ∨ 5000 < timer_remaining 10000 0 (late_clock (ticks w2)))).
Proof.
  pose (r1 := Add late_clock map_to_list "A" "first" 10000 empty_table).
  pose (w1 := match r1 with Some (_, w) => w | None => empty_table end).
  pose (r2 := Value (Arg:=string) late_clock map_to_list "A" [] w1).
  pose (w2 := match r2 with Some (_, w) => w | None => empty_table end).
  pose (r3 := Add late_clock map_to_list "B" "second" 5000 w2).
  pose (w3 := match r3 with Some (_, w) => w | None => empty_table end).
  exists 1%positive, w1, (Some 1%positive, None), w2, 2%positive, w3.
  split_and!; try (vm_compute; reflexivity).
  intros [_ [Hnone|Hlt]]; [vm_compute in Hnone; discriminate|].
  vm_compute in Hlt. discriminate.
Qed.

Lemma expirationCheck_keeps_zero_lifeSpan_witness :
  valid demo
  ∧ items (tbl demo) !! "A" = Some 1%positive
  ∧ heap demo !! 1%positive = Some itemA
  ∧ lifeSpan itemA = 0
  ∧ ∃ w', expirationCheck demo_clock map_to_list demo = Some (tt, w')
      ∧ items (tbl w') !! "A" = Some 1%positive
      ∧ heap w' !! 1%positive = Some itemA
      ∧ valid w'.
Proof.
  assert (Hv : valid demo) by (apply valid_decide; vm_compute; reflexivity).
  assert (Hk : items (tbl demo) !! "A" = Some 1%positive) by reflexivity.
  assert (Hp : heap demo !! 1%positive = Some itemA) by reflexivity.
  assert (Hz : lifeSpan itemA = 0) by reflexivity.
  split_and!; try assumption.
  exact (expirationCheck_keeps_zero_lifeSpan demo_clock map_to_list
           map_to_list_range demo "A" 1%positive itemA Hv Hk Hp Hz).
Defined.

Lemma Delete_present_witness :
  items (tbl demo) !! "A" = Some 1%positive
  ∧ heap demo !! 1%positive = Some itemA
  ∧ ∃ w', Delete "A" demo = Some ((Some 1%positive, None), w')
      ∧ history w'
        = history demo
          ++ map (λ cb, CallDeleted cb 1%positive) (deletedItem (tbl demo))
          ++ map (λ cb, CallAboutToExpire cb "A") (aboutToExpire itemA)
          ++ [MapDelete "A"]
      ∧ @all_before string string is_delete_callback is_expire_callback
          (map (λ cb, CallDeleted cb 1%positive) (deletedItem (tbl demo))
           ++ map (λ cb, CallAboutToExpire cb "A") (aboutToExpire itemA)
           ++ [MapDelete "A"]) = true
      ∧ Exists "A" demo = Some (true, demo)
      ∧ Exists "A" w' = Some (false, w')
      ∧ items (tbl w') = delete "A" (items (tbl demo))
      ∧ heap w' = heap demo.
Proof.
  assert (Hk : items (tbl demo) !! "A" = Some 1%positive) by reflexivity.
  assert (Hp : heap demo !! 1%positive = Some itemA) by reflexivity.
  split_and!; try assumption.
  exact (Delete_present demo "A" 1%positive itemA Hk Hp).
Defined.

(** The claim C4 as it is written fails on the table of three entries:
    [Delete] of the key A calls the delete callback of the table before
    the expiry callback of the entry, so that it is not the case that
    every expiry callback of the entry comes before the delete callbacks
    of the table. *)
Lemma Delete_order_counterexample :
  ∃ w', Delete "A" demo = Some ((Some 1%positive, None), w')
    ∧ history w' = [CallDeleted 3 1%positive; CallAboutToExpire 7 "A";
                    MapDelete "A"]
    ∧ all_before is_expire_callback is_delete_callback (history w') = false.
Proof.
  eexists. split; [vm_compute; reflexivity|]. split; reflexivity.
Qed.

Lemma Value_errors_witness :
  Value demo_clock map_to_list "E" [] demo
  = Some ((None, Some ErrCacheNotFound), demo)
  ∧ ∃ w', Value demo_clock map_to_list "E" [] demo_loading
          = Some ((None, Some ErrCacheNotFoundOrLoadable), w')
          ∧ items (tbl w') = items (tbl demo_loading).
Proof.
  split.
  - apply (Value_errors demo_clock map_to_list "E" [] demo); reflexivity.
  - apply (proj1 (proj2 (Value_errors demo_clock map_to_list "E" []
                           demo_loading)) demo_loader (heap demo_loading));
      reflexivity.
Defined.

Lemma KeepAlive_spec_witness :
  heap demo !! 1%positive = Some itemA
  ∧ ∃ w' it',
      KeepAlive demo_clock 1%positive demo = Some (tt, w')
      ∧ heap w' = <[1%positive := it']> (heap demo)
      ∧ accessCount it' = int64 (accessCount itemA + 1)
      ∧ (in_int64 (accessCount itemA + 1) →
         accessCount it' = accessCount itemA + 1)
      ∧ accessedTime it' = demo_clock (ticks demo)
      ∧ key it' = key itemA
      ∧ data it' = data itemA
      ∧ lifeSpan it' = lifeSpan itemA
      ∧ createTime it' = createTime itemA
      ∧ aboutToExpire it' = aboutToExpire itemA
      ∧ tbl w' = tbl demo
      ∧ history w' = history demo
      ∧ kept_alive itemA it'
      ∧ (∀ it1 mu, rtc entry_step (itemA, Unlocked) (it1, mu) →
           (∀ pc, mu ≠ Locked pc) → rtc kept_alive itemA it1).
Proof.
  assert (Hp : heap demo !! 1%positive = Some itemA) by reflexivity.
  split; [exact Hp|].
  exact (KeepAlive_spec demo_clock 1%positive itemA demo Hp).
Defined.

Lemma NotFoundAdd_spec_witness :
  (∀ m : gmap string loc, map_to_list m ≡ₚ map_to_list m)
  ∧ (∀ q, items (tbl demo) !! "D" = Some q →
       NotFoundAdd demo_clock map_to_list "D" 7000 "fourth" demo
       = Some (false, demo))
  ∧ (valid demo → items (tbl demo) !! "D" = None →
     ∃ p w' es,
       NotFoundAdd demo_clock map_to_list "D" 7000 "fourth" demo
       = Some (true, w')
       ∧ heap demo !! p = None
       ∧ heap w'
         = <[p := new_item (demo_clock (ticks demo)) "D" "fourth" 7000]>
             (heap demo)
       ∧ history w' = history demo ++ MapStore "D" p :: es
       ∧ Forall (λ e, is_load e = false) es
       ∧ items (tbl w') !! "D"
         = (if add_triggers 7000 demo
               && expired (demo_clock (S (ticks demo)))
                    (new_item (demo_clock (ticks demo)) "D" "fourth" 7000)
            then None else Some p)
       ∧ (7000 ≤ 0
          ∨ (in_int64 7000
             ∧ 0 ≤ demo_clock (S (ticks demo)) - demo_clock (ticks demo) < 7000) →
          items (tbl w') !! "D" = Some p)).
Proof.
  split; [exact map_to_list_range|].
  exact (NotFoundAdd_spec demo_clock map_to_list map_to_list_range
           "D" 7000 "fourth" demo).
Defined.

Lemma MostAccessed_spec_witness :
  (∀ m : gmap string loc, map_to_list m ≡ₚ map_to_list m)
  ∧ (∀ l, demo_sort l ≡ₚ l)
  ∧ (∀ l, StronglySorted (λ a b, Less b a = false) (demo_sort l))
  ∧ valid demo
  ∧ (∀ count, 0 ≤ count →
       ∃ r ks, MostAccessed map_to_list demo_sort count demo = Some (r, demo)
         ∧ Z.of_nat (length r) ≤ count
         ∧ length r = Nat.min (Z.to_nat count) (size (items (tbl demo)))
         ∧ NoDup ks
         ∧ Forall2 (λ k p, items (tbl demo) !! k = Some p) ks r
         ∧ (∀ i j pi pj, (i ≤ j)%nat → r !! i = Some pi → r !! j = Some pj →
              accessCount_at (heap demo) pj ≤ accessCount_at (heap demo) pi)
         ∧ (∀ k p q, items (tbl demo) !! k = Some p → k ∉ ks → q ∈ r →
              accessCount_at (heap demo) p ≤ accessCount_at (heap demo) q))
  ∧ MostAccessed map_to_list demo_sort 2 demo
    = Some ([1%positive; 3%positive], demo).
Proof.
  assert (Hv : valid demo) by (apply valid_decide; vm_compute; reflexivity).
  destruct (MostAccessed_spec map_to_list demo_sort map_to_list_range
              demo_sort_perm demo_sort_sorted demo Hv) as [Hgen Hex].
  split_and!.
  - exact map_to_list_range.
  - exact demo_sort_perm.
  - exact demo_sort_sorted.
  - exact Hv.
  - exact Hgen.
  - apply (Hex "A" "B" "C" 1%positive 2%positive 3%positive);
      (reflexivity || discriminate).
Defined.

Lemma Value_loaded_witness :
  items (tbl demo_loading) !! "D" = None
  ∧ loadData (tbl demo_loading) = Some demo_loader
  ∧ demo_loader "D" [] (heap demo_loading)
    = (Some 4%positive, <[4%positive := loaded]> demo_heap)
  ∧ (<[4%positive := loaded]> demo_heap) !! 4%positive = Some loaded
  ∧ valid (with_heap (<[4%positive := loaded]> demo_heap) demo_loading)
  ∧ let stored := new_item (demo_clock (ticks demo_loading)) "D"
                    (data loaded) (lifeSpan loaded) in
    ∃ p w' es,
      Value demo_clock map_to_list "D" [] demo_loading
      = Some ((Some 4%positive, None), w')
      ∧ p ≠ 4%positive
      ∧ (<[4%positive := loaded]> demo_heap) !! p = None
      ∧ heap w' = <[p := stored]> (<[4%positive := loaded]> demo_heap)
      ∧ heap w' !! 4%positive = Some loaded
      ∧ history w'
        = history demo_loading ++ CallLoadData "D" [] :: MapStore "D" p :: es
      ∧ items (tbl w') !! "D"
        = (if add_triggers (lifeSpan loaded) demo_loading
              && expired (demo_clock (S (ticks demo_loading))) stored
           then None else Some p)
      ∧ (lifeSpan loaded ≤ 0
         ∨ (in_int64 (lifeSpan loaded)
            ∧ 0 ≤ demo_clock (S (ticks demo_loading))
                  - demo_clock (ticks demo_loading) < lifeSpan loaded) →
         items (tbl w') !! "D" = Some p)
      ∧ items (tbl w') !! "D" ≠ Some 4%positive.
Proof.
  assert (Hk : items (tbl demo_loading) !! "D" = None) by reflexivity.
  assert (Hl : loadData (tbl demo_loading) = Some demo_loader) by reflexivity.
  assert (Hf : demo_loader "D" [] (heap demo_loading)
               = (Some 4%positive, <[4%positive := loaded]> demo_heap))
    by (vm_compute; reflexivity).
  assert (Hp : (<[4%positive := loaded]> demo_heap) !! 4%positive = Some loaded)
    by reflexivity.
  assert (Hv : valid (with_heap (<[4%positive := loaded]> demo_heap) demo_loading))
    by (apply valid_decide; vm_compute; reflexivity).
  split_and!; try assumption.
  exact (Value_loaded demo_clock map_to_list map_to_list_range "D" []
           demo_loading demo_loader 4%positive _ loaded Hk Hl Hf Hp Hv).
Defined.

(** ** Further tables and programs for the properties *)

(** A table whose only entry never expires. *)
Definition permanent : @World string _ _ string string :=
  {| heap := {[ 1%positive := itemA ]};
     tbl := {| name := "myCache"; items := {[ "A" := 1%positive ]};
               cleanupTimer := None; cleanupDuration := 0; loadData := None;
               addedItem := []; deletedItem := [3%nat] |};
     history := []; ticks := 0 |}.

(** A program of a client of one table. *)
Definition demo_program : list (@Op string string string) :=
  [ OpSetDataLoader (Some demo_loader);
    OpSetAddedItemCallback 1%nat;
    OpAdd "A" "first" 0;
    OpAdd "B" "second" 3000;
    OpValue "D" [];
    OpValue "E" [];
    OpNotFoundAdd "A" 1000 "again";
    OpTimerFires;
    OpMostAccessed 2;
    OpDelete "A";
    OpDelete "A";
    OpCount;
    OpFlush ].

Lemma demo_loader_ok : loader_ok demo_loader.
Proof.
  intros k args h. unfold demo_loader. destruct (String.eqb k "D"); cbn.
  - split.
    + apply insert_subseteq. apply not_elem_of_dom, is_fresh.
    + intros p [= <-]. rewrite lookup_insert_eq. eauto.
  - split; [reflexivity | discriminate].
Qed.

Ltac demo_valid := apply valid_decide; vm_compute; reflexivity.

Ltac demo_arith :=
  unfold in_int64, minDuration, maxDuration, demo_clock; cbn; lia.

(** ** The further properties on these tables *)

Ltac demo_ops_ok :=
  unfold demo_program;
  repeat first
    [ apply List.Forall_nil
    | apply List.Forall_cons; [first [exact I | exact demo_loader_ok]|] ].


Ltac permanent_only :=
  unfold permanent; cbn;
  intros k p it [<- <-]%lookup_singleton_Some [_ <-]%lookup_singleton_Some;
  reflexivity.

(** The table [Cache] creates, with the three items in memory. *)
Definition demo_new : @World string _ _ string string :=
  new_world "myCache" demo_heap.

Lemma expirationCheck_callbacks_witness :
  (valid demo
   ∧ (let now := demo_clock (ticks demo) in
      let sw :=
        sweep_events now (heap demo) (tbl demo)
          (map_to_list (items (tbl demo)))
        in
      ∃ w' : World,
        expirationCheck demo_clock map_to_list demo = Some ((), w')
        ∧ history w' = history demo ++ CallExpirationCheck :: sw
          ∧ (∀ (k : string) (p : positive) (it : CacheItem),
               items (tbl demo) !! k = Some p
               → heap demo !! p = Some it
                 → expired now it = true
                   → ∃ pre post : list Event,
                       sw = pre ++ delete_events (tbl demo) k p it ++ post)
            ∧ ∀ (k : string) (p : positive) (it : CacheItem),
                items (tbl demo) !! k = Some p
                → heap demo !! p = Some it
                  → expired now it = false
                    → (MapDelete k ∉ sw)
                      ∧ ∀ cb : nat, CallAboutToExpire cb k ∉ sw)).
Proof.
  split; [demo_valid|].
  exact (expirationCheck_callbacks demo_clock map_to_list map_to_list_range demo
           ltac:(demo_valid)).
Defined.

Lemma expirationCheck_permanent_entries_witness :
  (valid permanent
   ∧ (∀ (k : string) (p : positive) (it : CacheItem),
        items (tbl permanent) !! k = Some p
        → heap permanent !! p = Some it → lifeSpan it = 0)
     ∧ ∃ w' : World,
         expirationCheck demo_clock map_to_list permanent = Some ((), w')
         ∧ items (tbl w') = items (tbl permanent)
           ∧ heap w' = heap permanent
             ∧ cleanupDuration (tbl w') = 0
               ∧ armed (tbl w') = None
                 ∧ history w' = history permanent ++ [CallExpirationCheck]).
Proof.
  split; [demo_valid|].
  split; [permanent_only|].
  exact (expirationCheck_permanent_entries demo_clock map_to_list map_to_list_range permanent
           ltac:(demo_valid)
           ltac:(permanent_only)).
Defined.

Lemma Value_hit_witness :
  (items (tbl demo) !! "A" = Some 1%positive
   ∧ heap demo !! 1%positive = Some itemA
     ∧ ∃ w' : World,
         Value demo_clock map_to_list "A" [] demo =
         Some (Some 1%positive, None, w')
         ∧ tbl w' = tbl demo
           ∧ history w' = history demo
             ∧ heap w' !! 1%positive =
               Some
                 (set_accessedTime (demo_clock (ticks demo))
                    (bump_accessCount itemA))
               ∧ ∀ q : positive, q ≠ 1%positive → heap w' !! q = heap demo !! q).
Proof.
  split; [reflexivity|].
  split; [reflexivity|].
  exact (Value_hit demo_clock map_to_list "A" [] 1%positive itemA demo
           ltac:(reflexivity)
           ltac:(reflexivity)).
Defined.

Lemma Value_resets_deadline_witness :
  (valid demo
   ∧ items (tbl demo) !! "C" = Some 3%positive
     ∧ heap demo !! 3%positive = Some itemC
       ∧ in_int64 (lifeSpan itemC)
         ∧ 0 <= demo_clock (S (ticks demo)) - demo_clock (ticks demo) <
           lifeSpan itemC
           ∧ (∃ w1 w2 : World,
                Value demo_clock map_to_list "C" [] demo =
                Some (Some 3%positive, None, w1)
                ∧ expirationCheck demo_clock map_to_list w1 = Some ((), w2)
                  ∧ items (tbl w2) !! "C" = Some 3%positive)
             ∧ (lifeSpan itemC <= demo_clock (ticks demo) - accessedTime itemC
                → ∃ w3 : World,
                    expirationCheck demo_clock map_to_list demo = Some ((), w3)
                    ∧ items (tbl w3) !! "C" = None)).
Proof.
  split; [demo_valid|].
  split; [reflexivity|].
  split; [reflexivity|].
  split; [demo_arith|].
  split; [demo_arith|].
  exact (Value_resets_deadline demo_clock map_to_list map_to_list_range "C" [] 3%positive itemC demo
           ltac:(demo_valid)
           ltac:(reflexivity)
           ltac:(reflexivity)
           ltac:(demo_arith)
           ltac:(demo_arith)).
Defined.

Lemma Add_then_Value_witness :
  (valid demo
   ∧ (7000 <= 0
      ∨ in_int64 7000
        ∧ 0 <= demo_clock (S (ticks demo)) - demo_clock (ticks demo) < 7000)
     ∧ ∃ (p : positive) (w1 w2 : World) (it : CacheItem),
         Add demo_clock map_to_list "D" "fourth" 7000 demo =
         Some (p, w1)
         ∧ Value demo_clock map_to_list "D" [] w1 = Some (Some p, None, w2)
           ∧ heap w2 !! p = Some it
             ∧ key it = "D"
               ∧ data it = "fourth"
                 ∧ lifeSpan it = 7000
                   ∧ accessCount it = 1
                     ∧ accessedTime it = demo_clock (ticks w1)
                       ∧ createTime it = demo_clock (ticks demo)
                         ∧ items (tbl w2) = items (tbl w1)
                           ∧ history w2 = history w1).
Proof.
  split; [demo_valid|].
  split; [right; split; demo_arith|].
  exact (Add_then_Value demo_clock map_to_list map_to_list_range "D" "fourth" 7000 [] demo
           ltac:(demo_valid)
           ltac:(right; split; demo_arith)).
Defined.

Lemma Add_then_Delete_witness :
  (valid demo
   ∧ items (tbl demo) !! "D" = None
     ∧ add_triggers 0 demo = false
       ∧ ∃ (p : positive) (w1 w2 : World),
           Add demo_clock map_to_list "D" "fourth" 0 demo =
           Some (p, w1)
           ∧ Exists "D" w1 = Some (true, w1)
             ∧ Count w1 = Some (S (size (items (tbl demo))), w1)
               ∧ Delete "D" w1 = Some (Some p, None, w2)
                 ∧ items (tbl w2) = items (tbl demo)
                   ∧ Count w2 = Some (size (items (tbl demo)), w2)
                     ∧ history w2 =
                       history demo ++
                       MapStore "D" p
                       :: map (λ cb : nat, CallAdded cb p)
                            (addedItem (tbl demo)) ++
                          map (λ cb : nat, CallDeleted cb p)
                            (deletedItem (tbl demo)) ++
                          [MapDelete "D"]).
Proof.
  split; [demo_valid|].
  split; [reflexivity|].
  split; [reflexivity|].
  exact (Add_then_Delete demo_clock map_to_list map_to_list_range "D" "fourth" 0 demo
           ltac:(demo_valid)
           ltac:(reflexivity)
           ltac:(reflexivity)).
Defined.

Lemma Add_overwrites_silently_witness :
  (valid demo
   ∧ ∃ (p : positive) (w' : World) (es : list Event),
       Add demo_clock map_to_list "A" "renewed" 0 demo = Some (p, w')
       ∧ heap demo !! p = None
         ∧ history w' = history demo ++ es
           ∧ (∀ cb : nat, CallAboutToExpire cb "A" ∉ es)
             ∧ ∀ q : positive,
                 items (tbl demo) !! "A" = Some q
                 → (∀ k' : string, k' ≠ "A" → items (tbl demo) !! k' ≠ Some q)
                   → q ≠ p
                     ∧ heap w' !! q = heap demo !! q
                       ∧ ∀ cb : nat, CallDeleted cb q ∉ es).
Proof.
  split; [demo_valid|].
  exact (Add_overwrites_silently demo_clock map_to_list map_to_list_range "A" "renewed" 0 demo
           ltac:(demo_valid)).
Defined.

Lemma NotFoundAdd_twice_witness :
  (valid demo
   ∧ items (tbl demo) !! "D" = None
     ∧ (7000 <= 0
        ∨ in_int64 7000
          ∧ 0 <= demo_clock (S (ticks demo)) - demo_clock (ticks demo) < 7000)
       ∧ ∃ (p : positive) (w1 : World) (it : CacheItem),
           NotFoundAdd demo_clock map_to_list "D" 7000 "fourth" demo =
           Some (true, w1)
           ∧ NotFoundAdd demo_clock map_to_list "D" 0 "other" w1 =
             Some (false, w1)
             ∧ items (tbl w1) !! "D" = Some p
               ∧ heap w1 !! p = Some it
                 ∧ data it = "fourth" ∧ lifeSpan it = 7000).
Proof.
  split; [demo_valid|].
  split; [reflexivity|].
  split; [right; split; demo_arith|].
  exact (NotFoundAdd_twice demo_clock map_to_list map_to_list_range "D" 7000 0 "fourth" "other" demo
           ltac:(demo_valid)
           ltac:(reflexivity)
           ltac:(right; split; demo_arith)).
Defined.

Lemma Flush_then_Add_witness :
  (in_int64 7000
   ∧ 0 <= demo_clock (S (ticks demo)) - demo_clock (ticks demo) < 7000
     ∧ ∃ (w1 : World) (p : positive) (w2 : World),
         Flush demo = Some ((), w1)
         ∧ Add demo_clock map_to_list "D" "fourth" 7000 w1 =
           Some (p, w2)
           ∧ items (tbl w2) = {["D" := p]}
             ∧ cleanupDuration (tbl w2) =
               7000 - (demo_clock (S (ticks demo)) - demo_clock (ticks demo))
               ∧ armed (tbl w2) =
                 Some
                   (7000 -
                    (demo_clock (S (ticks demo)) - demo_clock (ticks demo)))
                 ∧ checks (history w2) = S (checks (history demo))).
Proof.
  split; [demo_arith|].
  split; [demo_arith|].
  exact (Flush_then_Add demo_clock map_to_list map_to_list_range "D" "fourth" 7000 demo
           ltac:(demo_arith)
           ltac:(demo_arith)).
Defined.

Lemma added_callbacks_registration_witness :
  (valid demo
   ∧ (∃ (w1 : World) (p : positive) (w2 : World) (es : list Event),
        SetAddedItemCallback 9 demo = Some ((), w1)
        ∧ Add demo_clock map_to_list "D" "fourth" 7000 w1 =
          Some (p, w2)
          ∧ history w2 = history demo ++ MapStore "D" p :: CallAdded 9 p :: es
            ∧ Forall (λ e : Event, is_added_callback e = false) es)
     ∧ (∃ (w1 : World) (p : positive) (w2 : World) (es : list Event),
          AddAddedItemCallback 9 demo = Some ((), w1)
          ∧ Add demo_clock map_to_list "D" "fourth" 7000 w1 =
            Some (p, w2)
            ∧ history w2 =
              history demo ++
              MapStore "D" p
              :: map (λ cb : nat, CallAdded cb p)
                   (addedItem (tbl demo) ++ [9%nat]) ++
                 es
              ∧ Forall (λ e : Event, is_added_callback e = false) es)
       ∧ ∃ (w1 : World) (p : positive) (w2 : World) (es : list Event),
           RemoveAddedItemCallBack demo = Some ((), w1)
           ∧ Add demo_clock map_to_list "D" "fourth" 7000 w1 =
             Some (p, w2)
             ∧ history w2 = history demo ++ MapStore "D" p :: es
               ∧ Forall (λ e : Event, is_added_callback e = false) es).
Proof.
  split; [demo_valid|].
  exact (added_callbacks_registration demo_clock map_to_list map_to_list_range 9%nat "D" "fourth" 7000 demo
           ltac:(demo_valid)).
Defined.

Lemma deleted_callbacks_registration_witness :
  (items (tbl demo) !! "A" = Some 1%positive
   ∧ heap demo !! 1%positive = Some itemA
     ∧ (let tail :=
          map (λ cb : nat, CallAboutToExpire cb "A") (aboutToExpire itemA) ++
          [MapDelete "A"] in
        (∃ w1 w2 : World,
           SetDeleteItemCallback 9 demo = Some ((), w1)
           ∧ Delete "A" w1 = Some (Some 1%positive, None, w2)
             ∧ history w2 = history demo ++ CallDeleted 9 1 :: tail)
        ∧ (∃ w1 w2 : World,
             AddDeleteItemCallback 9 demo = Some ((), w1)
             ∧ Delete "A" w1 = Some (Some 1%positive, None, w2)
               ∧ history w2 =
                 history demo ++
                 map (λ cb : nat, CallDeleted cb 1)
                   (deletedItem (tbl demo) ++ [9%nat]) ++
                 tail)
          ∧ ∃ w1 w2 : World,
              RemoveDeleteItemCallback demo = Some ((), w1)
              ∧ Delete "A" w1 = Some (Some 1%positive, None, w2)
                ∧ history w2 = history demo ++ tail)).
Proof.
  split; [reflexivity|].
  split; [reflexivity|].
  exact (deleted_callbacks_registration 9%nat "A" 1%positive itemA demo
           ltac:(reflexivity)
           ltac:(reflexivity)).
Defined.

Lemma expiry_callback_through_the_returned_item_witness :
  (valid demo
   ∧ (0 <= 0
      ∨ in_int64 0
        ∧ 0 <= demo_clock (S (ticks demo)) - demo_clock (ticks demo) < 0)
     ∧ ∃ (p : positive) (w1 : World),
         Add demo_clock map_to_list "D" "fourth" 0 demo =
         Some (p, w1)
         ∧ (∃ w2 w3 : World,
              SetAboutToExpireCallback p 9 w1 = Some ((), w2)
              ∧ Delete "D" w2 = Some (Some p, None, w3)
                ∧ history w3 =
                  history w1 ++
                  map (λ cb : nat, CallDeleted cb p) (deletedItem (tbl demo)) ++
                  [CallAboutToExpire 9 "D"; MapDelete "D"])
           ∧ (∃ w2 w3 w4 : World,
                AddAboutToExpireCallback p 8 w1 = Some ((), w2)
                ∧ SetAboutToExpireCallback p 9 w2 = Some ((), w3)
                  ∧ Delete "D" w3 = Some (Some p, None, w4)
                    ∧ history w4 =
                      history w1 ++
                      map (λ cb : nat, CallDeleted cb p)
                        (deletedItem (tbl demo)) ++
                      [CallAboutToExpire 9 "D"; MapDelete "D"])
             ∧ ∃ w2 w3 w4 : World,
                 AddAboutToExpireCallback p 8 w1 = Some ((), w2)
                 ∧ AddAboutToExpireCallback p 9 w2 = Some ((), w3)
                   ∧ Delete "D" w3 = Some (Some p, None, w4)
                     ∧ history w4 =
                       history w1 ++
                       map (λ cb : nat, CallDeleted cb p)
                         (deletedItem (tbl demo)) ++
                       [CallAboutToExpire 8 "D"; CallAboutToExpire 9 "D";
                        MapDelete "D"]).
Proof.
  split; [demo_valid|].
  split; [left; lia|].
  exact (expiry_callback_through_the_returned_item demo_clock map_to_list map_to_list_range 9%nat 8%nat "D" "fourth" 0 demo
           ltac:(demo_valid)
           ltac:(left; lia)).
Defined.

Lemma keyed_decide {K} `{Countable K} {V Arg} (w : @World K _ _ V Arg) :
  bool_decide
    (map_Forall (λ k p, match heap w !! p with
                        | Some it => bool_decide (key it = k)
                        | None => true
                        end = true)
       (items (tbl w))) = true →
  keyed w.
Proof.
  intros Hd%bool_decide_eq_true k p it Hk Hp. specialize (Hd k p Hk).
  cbn in Hd. rewrite Hp in Hd. apply bool_decide_eq_true in Hd. exact Hd.
Qed.

Lemma demo_table_inv : table_inv demo.
Proof.
  split_and!.
  - apply valid_decide. vm_compute. reflexivity.
  - apply keyed_decide. vm_compute. reflexivity.
  - split; [vm_compute; discriminate | reflexivity].
  - intros f Hf. discriminate.
Qed.

Lemma table_invariant_witness :
  (Forall op_ok demo_program
   ∧ table_inv demo_new
     ∧ ((∃ (w' : World) (locked : bool),
           locked_run_ops demo_clock map_to_list demo_sort demo_program
             demo_new false =
           Returns () () w' locked ∧ table_inv w')
        ∨ locked_run_ops demo_clock map_to_list demo_sort demo_program demo_new
            false =
          Blocks () ∧ ∃ k : string, OpDelete k ∈ demo_program)
       ∧ ((∀ k : string, OpDelete k ∉ demo_program)
          → ∃ w' : World,
              locked_run_ops demo_clock map_to_list demo_sort demo_program
                demo_new false =
              Returns () () w' false ∧ table_inv w')
         ∧ ∀ (n : string) (h : gmap positive (@CacheItem string string)),
             @table_inv string _ _ string string (new_world n h)).
Proof.
  split; [demo_ops_ok|].
  split; [apply table_inv_new_world|].
  exact (table_invariant demo_clock map_to_list demo_sort map_to_list_range demo_program demo_new
           ltac:(demo_ops_ok)
           ltac:(apply table_inv_new_world)).
Defined.

Lemma Delete_absent_keeps_the_lock_witness :
  (table_inv demo
   ∧ @op_ok string string string (OpDelete "D")
     ∧ (∀ k : string,
          items (tbl demo) !! k = None
          → Delete_mu k demo Free =
            Done (option positive * option error) (None, Some ErrCacheNotFound)
              demo Writing)
       ∧ (∀ (k : string) (p : positive),
            items (tbl demo) !! k = Some p
            → ∃ w' : World,
                Delete_mu k demo Free =
                Done (option positive * option error) (Some p, None) w' Free
                ∧ Delete k demo = Some (Some p, None, w'))
         ∧ (∃ w' : World,
              run_op demo_clock map_to_list demo_sort (OpDelete "D") demo =
              Some ((), w')
              ∧ run_op_mu demo_clock map_to_list demo_sort 
                  (OpDelete "D") demo Free =
                Done () () w' (lock_after (OpDelete "D") demo))
           ∧ ∀ (o' : @Op string string string)
               (w' : @World string _ _ string string),
               run_op_mu demo_clock map_to_list demo_sort o' w' Writing =
               Blocked ()).
Proof.
  split; [exact demo_table_inv|].
  split; [exact I|].
  exact (Delete_absent_keeps_the_lock demo_clock map_to_list demo_sort map_to_list_range (OpDelete "D") demo
           ltac:(exact demo_table_inv)
           ltac:(exact I)).
Defined.

(** * geecache/lru: the cache with a bound on its memory

    A shallow embedding of [lru.go].  A [*list.Element] is a location;
    the list [ll] of the cache is the sequence of its elements, front
    first, and [elements] gives the [*entry] each element holds, so that
    the element found through the map [cache] and the one in the list are
    one object.  [OnEvicted] is opaque: its calls are recorded, in
    order, in [evicted].  The loop of [Add] runs on fuel. *)

Module lru.

(** The interface [Value]: a cached value tells its size. *)
Class Value (A : Type) := Len : A → Z.

(** How a call ends. *)
Inductive Result (T : Type) : Type :=
  | Ok (x : T)
  | Panic        (* the type assertion on [ele.Value] fails *)
  | OutOfFuel.   (* the loop was cut *)
Arguments Ok {T} x.
Arguments Panic {T}.
Arguments OutOfFuel {T}.

Section lru.

Context `{Value A}.

Record entry : Type := mkEntry {
  key : string;
  value : A;
}.

Record Cache : Type := mkCache {
  maxBytes : Z;
  nbytes : Z;
  ll : list loc;
  elements : gmap loc entry;
  cache : gmap string loc;
  OnEvicted : option callback;
  evicted : list (callback * string * A);
}.

(** *** container/list *)

Definition Back (l : list loc) : option loc := last l.

Definition Remove (e : loc) (l : list loc) : list loc :=
  filter (λ x, x ≠ e) l.

Definition MoveToFront (e : loc) (l : list loc) : list loc :=
  if decide (e ∈ l) then e :: Remove e l else l.

Definition PushFront (e : loc) (l : list loc) : list loc := e :: l.

(** *** lru.go *)

Definition NewCache (maxBytes : Z) (onEvicted : option callback) : Cache :=
  {| maxBytes := maxBytes;
     nbytes := 0;
     ll := [];
     elements := ∅;
     cache := ∅;
     OnEvicted := onEvicted;
     evicted := [] |}.

Definition Get (k : string) (c : Cache) : Result (option A * Cache) :=
  match cache c !! k with
  | Some ele =>
      let c1 :=
        {| maxBytes := maxBytes c;
           nbytes := nbytes c;
           ll := MoveToFront ele (ll c);
           elements := elements c;
           cache := cache c;
           OnEvicted := OnEvicted c;
           evicted := evicted c |} in
      match elements c !! ele with
      | Some kv => Ok (Some (value kv), c1)
      | None => Panic
      end
  | None => Ok (None, c)
  end.

Definition RemoveOldest (c : Cache) : Result Cache :=
  match Back (ll c) with
  | Some ele =>
      match elements c !! ele with
      | Some kv =>
          Ok {| maxBytes := maxBytes c;
                nbytes :=
                  int64 (nbytes c
                         - int64 (int64 (Z.of_nat (String.length (key kv)))
                                  + int64 (Len (value kv))));
                ll := Remove ele (ll c);
                elements := elements c;
                cache := delete (key kv) (cache c);
                OnEvicted := OnEvicted c;
                evicted :=
                  match OnEvicted c with
                  | Some f => evicted c ++ [(f, key kv, value kv)]
                  | None => evicted c
                  end |}
      | None => Panic
      end
  | None => Ok c
  end.

(** The loop of [Add]:
    [for c.maxBytes != 0 && c.maxBytes < c.nbytes { c.RemoveOldest() }]. *)
Fixpoint evict (fuel : nat) (c : Cache) : Result Cache :=
  if negb (maxBytes c =? 0) && (maxBytes c <? nbytes c) then
    match fuel with
    | O => OutOfFuel
    | S fuel' =>
        match RemoveOldest c with
        | Ok c' => evict fuel' c'
        | r => r
        end
    end
  else Ok c.

(** The branches of [Add], before its loop. *)
Definition put (k : string) (v : A) (c : Cache) : Result Cache :=
  match cache c !! k with
  | Some ele =>
      match elements c !! ele with
      | Some kv =>
          Ok {| maxBytes := maxBytes c;
                nbytes :=
                  int64 (nbytes c
                         + int64 (int64 (Len v) - int64 (Len (value kv))));
                ll := MoveToFront ele (ll c);
                elements := <[ele := {| key := key kv; value := v |}]>
                              (elements c);
                cache := cache c;
                OnEvicted := OnEvicted c;
                evicted := evicted c |}
      | None => Panic
      end
  | None =>
      let ele := fresh (dom (elements c)) in
      Ok {| maxBytes := maxBytes c;
            nbytes :=
              int64 (nbytes c
                     + int64 (int64 (Z.of_nat (String.length k))
                              + int64 (Len v)));
            ll := PushFront ele (ll c);
            elements := <[ele := {| key := k; value := v |}]> (elements c);
            cache := <[k := ele]> (cache c);
            OnEvicted := OnEvicted c;
            evicted := evicted c |}
  end.

Definition Add (fuel : nat) (k : string) (v : A) (c : Cache)
  : Result Cache :=
  match put k v c with
  | Ok c1 => evict fuel c1
  | r => r
  end.

Definition Cache_Len (c : Cache) : Z := Z.of_nat (length (ll c)).

(** *** Vocabulary of the properties *)

(** The memory an entry is charged for. *)
Definition size_of (kv : entry) : Z :=
  Z.of_nat (String.length (key kv)) + Len (value kv).

Definition size_at (els : gmap loc entry) (e : loc) : Z :=
  match els !! e with
  | Some kv => size_of kv
  | None => 0
  end.

Definition sizes (els : gmap loc entry) (l : list loc) : Z :=
  foldr Z.add 0 (size_at els <$> l).

Definition total (c : Cache) : Z := sizes (elements c) (ll c).

(** The representation invariant of a cache. *)
Record wf (c : Cache) : Prop := mkWf {
  wf_nodup : NoDup (ll c);
  wf_elems : ∀ e, e ∈ ll c → is_Some (elements c !! e);
  wf_index : ∀ k e,
    cache c !! k = Some e
    ↔ e ∈ ll c ∧ ∃ kv, elements c !! e = Some kv ∧ key kv = k;
  wf_bytes : nbytes c = int64 (total c);
}.

(** No value has a negative size, and the sum of the sizes is an
    [int64]. *)
Definition sane (c : Cache) : Prop :=
  (∀ e kv, e ∈ ll c → elements c !! e = Some kv → 0 <= Len (value kv))
  ∧ total c <= maxDuration.

(** The call of [OnEvicted] for an element. *)
Definition eviction (c : Cache) (e : loc)
  : list (callback * string * A) :=
  match OnEvicted c, elements c !! e with
  | Some f, Some kv => [(f, key kv, value kv)]
  | _, _ => []
  end.

(** The limit holds. *)
Definition within (c : Cache) : Prop :=
  maxBytes c = 0 ∨ nbytes c <= maxBytes c.

End lru.

Arguments entry : clear implicits.
Arguments Cache : clear implicits.

(** ** Properties of the lru cache *)

Section properties.

Context `{Value A}.

(** *** Arithmetic of [int64] *)

Lemma int64_eqm (a b q : Z) : a = b + q * 2 ^ 64 → int64 a = int64 b.
Proof.
  intros ->. unfold int64.
  replace (b + q * 2 ^ 64 + 2 ^ 63) with (b + 2 ^ 63 + q * 2 ^ 64) by lia.
  by rewrite Z.mod_add.
Qed.

Lemma int64_repr (a : Z) : ∃ q, int64 a = a + q * 2 ^ 64.
Proof.
  exists (- ((a + 2 ^ 63) / 2 ^ 64)). unfold int64.
  rewrite Z.mod_eq by lia. lia.
Qed.

Lemma int64_id (a : Z) : in_int64 a → int64 a = a.
Proof.
  unfold in_int64, minDuration, maxDuration, int64. intros ?.
  rewrite Z.mod_small; lia.
Qed.

Lemma int64_sub_sizes (n a b : Z) :
  int64 (int64 n - int64 (int64 a + int64 b)) = int64 (n - (a + b)).
Proof.
  destruct (int64_repr n) as [q1 ->], (int64_repr a) as [q2 ->],
    (int64_repr b) as [q3 ->].
  destruct (int64_repr (a + q2 * 2 ^ 64 + (b + q3 * 2 ^ 64))) as [q4 ->].
  apply (int64_eqm _ _ (q1 - q2 - q3 - q4)). lia.
Qed.

Lemma int64_add_sizes (n a b : Z) :
  int64 (int64 n + int64 (int64 a + int64 b)) = int64 (n + (a + b)).
Proof.
  destruct (int64_repr n) as [q1 ->], (int64_repr a) as [q2 ->],
    (int64_repr b) as [q3 ->].
  destruct (int64_repr (a + q2 * 2 ^ 64 + (b + q3 * 2 ^ 64))) as [q4 ->].
  apply (int64_eqm _ _ (q1 + q2 + q3 + q4)). lia.
Qed.

Lemma int64_add_diff (n a b : Z) :
  int64 (int64 n + int64 (int64 a - int64 b)) = int64 (n + (a - b)).
Proof.
  destruct (int64_repr n) as [q1 ->], (int64_repr a) as [q2 ->],
    (int64_repr b) as [q3 ->].
  destruct (int64_repr (a + q2 * 2 ^ 64 - (b + q3 * 2 ^ 64))) as [q4 ->].
  apply (int64_eqm _ _ (q1 + q2 - q3 + q4)). lia.
Qed.

(** *** The list *)

Lemma Remove_middle (e : loc) (l1 l2 : list loc) :
  NoDup (l1 ++ e :: l2) → Remove e (l1 ++ e :: l2) = l1 ++ l2.
Proof.
  intros Hnd. apply NoDup_app in Hnd as (_ & Hdis & Hnd2).
  apply NoDup_cons in Hnd2 as [He2 _].
  assert (∀ l : list loc, e ∉ l → Remove e l = l) as Hid.
  { induction l as [|x l IH]; intros Hx; [done|].
    apply not_elem_of_cons in Hx as [? ?]. unfold Remove in *.
    rewrite filter_cons_True by done. by rewrite IH. }
  unfold Remove in *. rewrite filter_app, filter_cons_False by naive_solver.
  rewrite !Hid; [done..|].
  intros Hin. apply (Hdis e Hin). left.
Qed.

Lemma snoc_cases (l : list loc) : l = [] ∨ ∃ l0 x, l = l0 ++ [x].
Proof.
  destruct l as [|y l _] using rev_ind; [by left|]. right. by exists l, y.
Qed.

Lemma Remove_back (e : loc) (l : list loc) :
  NoDup (l ++ [e]) → Remove e (l ++ [e]) = l.
Proof. intros Hnd. rewrite Remove_middle by done. by rewrite app_nil_r. Qed.

Lemma MoveToFront_perm (e : loc) (l : list loc) :
  NoDup l → MoveToFront e l ≡ₚ l.
Proof.
  intros Hnd. unfold MoveToFront. destruct (decide (e ∈ l)) as [Hin|]; [|done].
  apply list_elem_of_split in Hin as (l1 & l2 & ->).
  rewrite Remove_middle by done. by rewrite Permutation_middle.
Qed.

Lemma sizes_perm (els : gmap loc (entry A)) (l1 l2 : list loc) :
  l1 ≡ₚ l2 → sizes els l1 = sizes els l2.
Proof.
  unfold sizes. induction 1; cbn in *; lia.
Qed.

Lemma sizes_app (els : gmap loc (entry A)) (l1 l2 : list loc) :
  sizes els (l1 ++ l2) = sizes els l1 + sizes els l2.
Proof.
  unfold sizes. induction l1 as [|x l1 IH]; cbn in *; lia.
Qed.

Lemma sizes_insert_fresh (els : gmap loc (entry A)) (e : loc) (kv : entry A)
    (l : list loc) :
  e ∉ l → sizes (<[e:=kv]> els) l = sizes els l.
Proof.
  unfold sizes. induction l as [|x l IH]; intros Hx; [done|].
  apply not_elem_of_cons in Hx as [? ?]. cbn. rewrite IH by done.
  unfold size_at. by rewrite lookup_insert_ne.
Qed.

Lemma size_at_insert (els : gmap loc (entry A)) (e : loc) (kv : entry A) :
  size_at (<[e:=kv]> els) e = size_of kv.
Proof. unfold size_at. by rewrite lookup_insert_eq. Qed.

Lemma size_at_Some (els : gmap loc (entry A)) (e : loc) (kv : entry A) :
  els !! e = Some kv → size_at els e = size_of kv.
Proof. unfold size_at. by intros ->. Qed.

(** *** The invariant *)

Lemma wf_NewCache (m : Z) (f : option callback) : wf (NewCache m f).
Proof.
  split; cbn.
  - constructor.
  - intros e He. by apply elem_of_nil in He.
  - intros k e. rewrite lookup_empty. split; [done|].
    intros [He _]. by apply elem_of_nil in He.
  - done.
Qed.

Lemma wf_entry (c : Cache A) (k : string) (e : loc) :
  wf c → cache c !! k = Some e →
  e ∈ ll c ∧ ∃ kv, elements c !! e = Some kv ∧ key kv = k.
Proof. intros Hwf Hk. by apply (wf_index c Hwf). Qed.

Lemma wf_unique (c : Cache A) (e1 e2 : loc) (kv1 kv2 : entry A) :
  wf c → e1 ∈ ll c → e2 ∈ ll c →
  elements c !! e1 = Some kv1 → elements c !! e2 = Some kv2 →
  key kv1 = key kv2 → e1 = e2.
Proof.
  intros Hwf H1 H2 Hk1 Hk2 Heq.
  assert (cache c !! key kv1 = Some e1) as Hc1
    by (apply (wf_index c Hwf); eauto).
  assert (cache c !! key kv1 = Some e2) as Hc2
    by (apply (wf_index c Hwf); eauto).
  congruence.
Qed.

Lemma Get_run (k : string) (c : Cache A) :
  wf c →
  ∃ c', Get k c = Ok (e ← cache c !! k; value <$> elements c !! e, c')
        ∧ wf c'
        ∧ ll c' = match cache c !! k with
                  | Some e => e :: Remove e (ll c)
                  | None => ll c
                  end
        ∧ elements c' = elements c ∧ cache c' = cache c
        ∧ nbytes c' = nbytes c ∧ maxBytes c' = maxBytes c
        ∧ OnEvicted c' = OnEvicted c ∧ evicted c' = evicted c.
Proof.
  intros Hwf. unfold Get. destruct (cache c !! k) as [e|] eqn:Hk; cbn.
  - destruct (wf_entry c k e Hwf Hk) as (Hin & kv & Hkv & Hkey).
    rewrite Hkv. cbn. eexists. split; [done|].
    assert (MoveToFront e (ll c) = e :: Remove e (ll c)) as Hmv
      by (unfold MoveToFront; by rewrite decide_True).
    pose proof (MoveToFront_perm e (ll c) (wf_nodup c Hwf)) as Hperm.
    cbn. split_and!; try done.
    split; cbn [ll elements cache nbytes].
    + rewrite Hperm. apply Hwf.
    + intros e'. rewrite Hperm. apply Hwf.
    + intros k' e'. rewrite Hperm. apply Hwf.
    + unfold total. cbn [ll elements].
      rewrite (sizes_perm _ _ _ Hperm). apply Hwf.
  - exists c. by split_and!.
Qed.

Lemma RemoveOldest_empty (c : Cache A) : ll c = [] → RemoveOldest c = Ok c.
Proof. unfold RemoveOldest, Back. by intros ->. Qed.

Lemma RemoveOldest_run (c : Cache A) (l : list loc) (e : loc) :
  wf c → ll c = l ++ [e] →
  ∃ kv c', elements c !! e = Some kv
        ∧ RemoveOldest c = Ok c'
        ∧ wf c'
        ∧ ll c' = l
        ∧ elements c' = elements c
        ∧ cache c' = delete (key kv) (cache c)
        ∧ nbytes c' = int64 (total c - size_of kv)
        ∧ maxBytes c' = maxBytes c
        ∧ OnEvicted c' = OnEvicted c
        ∧ evicted c' = evicted c ++ eviction c e.
Proof.
  intros Hwf Hl.
  pose proof (wf_nodup c Hwf) as Hnd. rewrite Hl in Hnd.
  assert (e ∈ ll c) as Hin by (rewrite Hl; set_solver).
  destruct (wf_elems c Hwf e Hin) as [kv Hkv].
  unfold RemoveOldest, Back. rewrite Hl, last_snoc, Hkv.
  rewrite Remove_back by done.
  assert (int64 (nbytes c
                 - int64 (int64 (Z.of_nat (String.length (key kv)))
                          + int64 (Len (value kv))))
          = int64 (total c - size_of kv)) as Hbytes.
  { rewrite (wf_bytes c Hwf). apply int64_sub_sizes. }
  assert (total c = sizes (elements c) l + size_of kv) as Htotal.
  { unfold total. rewrite Hl, sizes_app. unfold sizes at 2. cbn.
    rewrite (size_at_Some _ _ _ Hkv). lia. }
  exists kv. eexists. split_and!; try done; cbn; try done.
  - apply NoDup_app in Hnd as (Hnd1 & Hdis & _).
    split; cbn [ll elements cache nbytes].
    + done.
    + intros e' He'. apply Hwf. rewrite Hl. set_solver.
    + intros k' e'. rewrite lookup_delete_Some. split.
      * intros [Hne Hk']. apply (wf_index c Hwf) in Hk' as (He' & kv' & ? & ?).
        rewrite Hl in He'. apply elem_of_app in He' as [?|He']; [eauto|].
        apply list_elem_of_singleton in He' as ->. congruence.
      * intros (He' & kv' & Hkv' & Hk'). split.
        -- intros <-. apply (Hdis e' He').
           assert (e' = e) as ->; [|set_solver].
           apply (wf_unique c e' e kv' kv); rewrite ?Hl; try done; set_solver.
        -- apply (wf_index c Hwf). rewrite Hl. split; [set_solver|eauto].
    + unfold total. cbn [ll elements]. rewrite Hbytes, Htotal. f_equal. lia.
  - unfold eviction. rewrite Hkv. destruct (OnEvicted c); [done|].
    by rewrite app_nil_r.
Qed.

Lemma put_run (k : string) (v : A) (c : Cache A) :
  wf c →
  ∃ c1 e rest,
    put k v c = Ok c1
    ∧ wf c1
    ∧ ll c1 = e :: rest
    ∧ elements c1 !! e = Some {| key := k; value := v |}
    ∧ (∀ e', e' ∈ rest → elements c1 !! e' = elements c !! e')
    ∧ (ll c = rest ∧ cache c !! k = None
       ∨ ll c ≡ₚ e :: rest ∧ cache c !! k = Some e)
    ∧ maxBytes c1 = maxBytes c
    ∧ OnEvicted c1 = OnEvicted c
    ∧ evicted c1 = evicted c.
Proof.
  intros Hwf. unfold put. destruct (cache c !! k) as [e|] eqn:Hk.
  - destruct (wf_entry c k e Hwf Hk) as (Hin & kv & Hkv & Hkey).
    rewrite Hkv.
    assert (MoveToFront e (ll c) = e :: Remove e (ll c)) as Hmv
      by (unfold MoveToFront; by rewrite decide_True).
    pose proof (MoveToFront_perm e (ll c) (wf_nodup c Hwf)) as Hperm.
    rewrite Hmv in Hperm.
    assert (e ∉ Remove e (ll c)) as Hfresh.
    { unfold Remove. rewrite list_elem_of_filter. by intros [? _]. }
    eexists. exists e, (Remove e (ll c)). split; [done|]. cbn.
    rewrite Hmv, Hkey. split_and!; try done.
    + split; cbn [ll elements cache nbytes].
      * rewrite Hperm. apply Hwf.
      * intros e'. rewrite Hperm. intros He'.
        destruct (decide (e' = e)) as [->|];
          [rewrite lookup_insert_eq; eauto|].
        rewrite lookup_insert_ne by done. by apply Hwf.
      * intros k' e'. rewrite Hperm, (wf_index c Hwf).
        apply and_iff_compat_l.
        destruct (decide (e' = e)) as [->|].
        -- rewrite lookup_insert_eq, Hkv.
           split; intros (kv0 & Heq & <-); injection Heq as <-;
             eexists; (split; [done|]); cbn; congruence.
        -- by rewrite lookup_insert_ne.
      * unfold total. cbn [ll elements nbytes].
        rewrite (wf_bytes c Hwf), int64_add_diff.
        f_equal. unfold total. rewrite <- (sizes_perm _ _ _ Hperm).
        change (sizes ?els (e :: ?l)) with (size_at els e + sizes els l).
        rewrite sizes_insert_fresh by done.
        rewrite size_at_insert, (size_at_Some _ _ _ Hkv).
        unfold size_of. cbn. rewrite Hkey. lia.
    + by rewrite lookup_insert_eq.
    + intros e' He'. rewrite lookup_insert_ne; [done|]. by intros <-.
    + right. by rewrite Hperm.
  - set (e := fresh (dom (elements c))).
    assert (elements c !! e = None) as Hnone.
    { apply not_elem_of_dom. apply is_fresh. }
    assert (e ∉ ll c) as Hfresh.
    { intros Hin. destruct (wf_elems c Hwf e Hin). congruence. }
    eexists. exists e, (ll c). split; [done|]. cbn. unfold PushFront.
    split_and!; try done.
    + split; cbn [ll elements cache nbytes].
      * apply NoDup_cons. split; [done|apply Hwf].
      * intros e'. rewrite elem_of_cons. intros [->|He'];
          [rewrite lookup_insert_eq; eauto|].
        rewrite lookup_insert_ne by (by intros <-). by apply Hwf.
      * intros k' e'. rewrite elem_of_cons. split.
        -- intros Hk'. apply lookup_insert_Some in Hk' as [[<- <-]|[? Hk']].
           ++ split; [by left|]. rewrite lookup_insert_eq. eauto.
           ++ apply (wf_index c Hwf) in Hk' as (He' & kv' & ? & ?).
              split; [by right|]. rewrite lookup_insert_ne by (by intros <-).
              eauto.
        -- intros ([->|He'] & kv' & Hkv' & Hk').
           ++ rewrite lookup_insert_eq in Hkv'. injection Hkv' as <-.
              cbn in Hk'. subst k'. by rewrite lookup_insert_eq.
           ++ rewrite lookup_insert_ne in Hkv' by (by intros <-).
              assert (cache c !! k' = Some e') as Hc
                by (apply (wf_index c Hwf); eauto).
              rewrite lookup_insert_ne; [done|]. intros <-. congruence.
      * unfold total. cbn [ll elements nbytes].
        rewrite (wf_bytes c Hwf), int64_add_sizes.
        f_equal. unfold total.
        change (sizes ?els (e :: ?l)) with (size_at els e + sizes els l).
        rewrite sizes_insert_fresh by done.
        rewrite size_at_insert. unfold size_of. cbn. lia.
    + by rewrite lookup_insert_eq.
    + intros e' He'. rewrite lookup_insert_ne; [done|]. by intros <-.
    + by left.
Qed.

(** *** The loop of [Add] *)

Lemma eviction_ext (c c' : Cache A) (e : loc) :
  OnEvicted c' = OnEvicted c → elements c' = elements c →
  eviction c' e = eviction c e.
Proof. unfold eviction. by intros -> ->. Qed.

Lemma evict_stop (fuel : nat) (c : Cache A) :
  within c → evict fuel c = Ok c.
Proof.
  intros Hin.
  assert (negb (maxBytes c =? 0) && (maxBytes c <? nbytes c) = false) as Hc.
  { destruct Hin as [->|?]; [done|]. apply andb_false_iff. right.
    by apply Z.ltb_ge. }
  destruct fuel; cbn; by rewrite Hc.
Qed.

Lemma evict_step (fuel : nat) (c : Cache A) :
  ¬ within c →
  evict fuel c
  = match fuel with
    | O => OutOfFuel
    | S fuel' =>
        match RemoveOldest c with
        | Ok c' => evict fuel' c'
        | r => r
        end
    end.
Proof.
  intros Hout.
  assert (negb (maxBytes c =? 0) && (maxBytes c <? nbytes c) = true) as Hc.
  { apply andb_true_iff. split.
    - apply negb_true_iff, Z.eqb_neq. intros ?. apply Hout. by left.
    - apply Z.ltb_lt. destruct (decide (maxBytes c < nbytes c)); [done|].
      exfalso. apply Hout. right. lia. }
  destruct fuel; cbn; by rewrite Hc.
Qed.

Lemma within_dec (c : Cache A) : within c ∨ ¬ within c.
Proof.
  unfold within. destruct (decide (maxBytes c = 0)); [by auto|].
  destruct (decide (nbytes c <= maxBytes c)); [by auto|]. right.
  by intros [?|?].
Qed.

Lemma evict_spec (fuel : nat) (c c' : Cache A) :
  wf c → evict fuel c = Ok c' →
  ∃ gone,
    ll c = ll c' ++ gone
    ∧ wf c' ∧ within c'
    ∧ elements c' = elements c
    ∧ maxBytes c' = maxBytes c
    ∧ OnEvicted c' = OnEvicted c
    ∧ evicted c' = evicted c ++ (reverse gone ≫= eviction c)
    ∧ ∀ g1 g2, gone = g1 ++ g2 → g1 ≠ [] →
        maxBytes c ≠ 0
        ∧ maxBytes c < int64 (sizes (elements c) (ll c' ++ g1)).
Proof.
  revert c. induction fuel as [|fuel IH]; intros c Hwf Hrun.
  - destruct (within_dec c) as [Hin|Hout].
    + rewrite evict_stop in Hrun by done. injection Hrun as <-.
      exists []. rewrite app_nil_r. split_and!; try done.
      * cbn. by rewrite app_nil_r.
      * intros g1 g2 Hsplit Hne. symmetry in Hsplit.
        by apply app_eq_nil in Hsplit as [-> _].
    + by rewrite evict_step in Hrun.
  - destruct (within_dec c) as [Hin|Hout].
    + rewrite evict_stop in Hrun by done. injection Hrun as <-.
      exists []. rewrite app_nil_r. split_and!; try done.
      * cbn. by rewrite app_nil_r.
      * intros g1 g2 Hsplit Hne. symmetry in Hsplit.
        by apply app_eq_nil in Hsplit as [-> _].
    + rewrite evict_step in Hrun by done.
      assert (maxBytes c ≠ 0 ∧ maxBytes c < int64 (total c)) as Hover.
      { rewrite <- (wf_bytes c Hwf). unfold within in Hout. lia. }
      destruct (snoc_cases (ll c)) as [Hll|(l0 & x & Hll)].
      * rewrite RemoveOldest_empty in Hrun by done. by apply IH.
      *         destruct (RemoveOldest_run c l0 x Hwf Hll)
          as (kv & c1 & Hkv & Hro & Hwf1 & Hll1 & Hel1 & _ & _ & Hmax1
              & Hon1 & Hev1).
        rewrite Hro in Hrun.
        destruct (IH c1 Hwf1 Hrun)
          as (gone & Hgone & Hwf' & Hin' & Hel & Hmax & Hon & Hev & Hmin).
        exists (gone ++ [x]). split_and!; try done.
        -- rewrite app_assoc. congruence.
        -- congruence.
        -- congruence.
        -- congruence.
        -- rewrite Hev, Hev1, reverse_snoc, <- app_assoc. f_equal.
           rewrite bind_cons. f_equal.
           apply list_bind_ext; [|done]. intros e.
           by apply eviction_ext.
        -- intros g1 g2 Hsplit Hne.
           destruct g2 as [|y g2 _] using rev_ind.
           ++ rewrite app_nil_r in Hsplit. subst g1.
              rewrite app_assoc, <- Hgone, Hll1. split; [apply Hover|].
              unfold total in Hover. rewrite Hll in Hover. apply Hover.
           ++ rewrite app_assoc in Hsplit.
              apply app_inj_tail in Hsplit as [Hsplit ->].
              rewrite <- Hmax1, <- Hel1. by apply (Hmin g1 g2).
Qed.

Lemma evict_terminates (fuel : nat) (c : Cache A) :
  wf c → 0 <= maxBytes c → (length (ll c) ≤ fuel)%nat →
  ∃ c', evict fuel c = Ok c'.
Proof.
  revert c. induction fuel as [|fuel IH]; intros c Hwf Hmax Hlen.
  - destruct (ll c) eqn:Hll; [|cbn in Hlen; lia].
    exists c. apply evict_stop. right. rewrite (wf_bytes c Hwf).
    unfold total. by rewrite Hll.
  - destruct (within_dec c) as [Hin|Hout]; [exists c; by apply evict_stop|].
    rewrite evict_step by done.
    destruct (snoc_cases (ll c)) as [Hll|(l0 & x & Hll)].
    + exfalso. apply Hout. right. rewrite (wf_bytes c Hwf).
      unfold total. by rewrite Hll.
    + destruct (RemoveOldest_run c l0 x Hwf Hll)
        as (kv & c1 & _ & -> & Hwf1 & Hll1 & _ & _ & _ & Hmax1 & _).
      apply IH; [done|lia|]. rewrite Hll1. rewrite Hll, length_app in Hlen.
      cbn in Hlen. lia.
Qed.

(** *** Sizes that are not negative *)

Lemma sizes_ext (els els' : gmap loc (entry A)) (l : list loc) :
  (∀ e, e ∈ l → els' !! e = els !! e) → sizes els' l = sizes els l.
Proof.
  unfold sizes. induction l as [|x l IH]; intros Hext; [done|]. cbn.
  rewrite IH by (intros; apply Hext; by right).
  unfold size_at. rewrite Hext by left. done.
Qed.

Lemma size_at_nonneg (els : gmap loc (entry A)) (e : loc) :
  (∀ kv, els !! e = Some kv → 0 <= Len (value kv)) → 0 <= size_at els e.
Proof.
  unfold size_at, size_of. destruct (els !! e) as [kv|]; [|lia].
  intros Hkv. specialize (Hkv kv eq_refl). lia.
Qed.

Lemma sizes_nonneg (els : gmap loc (entry A)) (l : list loc) :
  (∀ e kv, e ∈ l → els !! e = Some kv → 0 <= Len (value kv)) →
  0 <= sizes els l.
Proof.
  unfold sizes. induction l as [|x l IH]; intros Hl; [done|]. cbn.
  assert (0 <= size_at els x)
    by (apply size_at_nonneg; intros; eapply Hl; [left|done]).
  assert (0 <= foldr Z.add 0 (size_at els <$> l))
    by (apply IH; intros; eapply Hl; [by right|done]).
  lia.
Qed.

Lemma sane_total (c : Cache A) : sane c → in_int64 (total c).
Proof.
  intros [Hnn Hmax]. pose proof (sizes_nonneg _ _ Hnn).
  unfold in_int64, minDuration, total in *. lia.
Qed.

Lemma sane_prefix (c c' : Cache A) (gone : list loc) :
  sane c → ll c = ll c' ++ gone → elements c' = elements c →
  sane c' ∧ total c' <= total c.
Proof.
  intros [Hnn Hmax] Hll Hel.
  assert (0 <= sizes (elements c) gone).
  { apply sizes_nonneg. intros e kv He. apply Hnn. rewrite Hll. set_solver. }
  assert (total c = total c' + sizes (elements c) gone) as Htot.
  { unfold total. by rewrite Hll, sizes_app, Hel. }
  split; [|lia]. split; [|lia].
  intros e kv He. rewrite Hel. apply Hnn. rewrite Hll. set_solver.
Qed.

Lemma put_sane (k : string) (v : A) (c c1 : Cache A) :
  wf c → sane c → 0 <= Len v →
  total c + size_of {| key := k; value := v |} <= maxDuration →
  put k v c = Ok c1 →
  sane c1.
Proof.
  intros Hwf [Hnn Hmax] Hv Hfit Hput.
  destruct (put_run k v c Hwf)
    as (c1' & e & rest & Hput' & Hwf1 & Hll1 & He & Hrest & Hcase & _).
  rewrite Hput in Hput'. injection Hput' as <-.
  assert (e ∉ rest) as Hfresh.
  { pose proof (wf_nodup c1 Hwf1) as Hnd. rewrite Hll1 in Hnd.
    by apply NoDup_cons in Hnd as [? _]. }
  assert (rest ⊆ ll c) as Hsub.
  { destruct Hcase as [[-> _]|[Hperm _]]; [done|]. rewrite Hperm.
    set_solver. }
  assert (sizes (elements c1) rest = sizes (elements c) rest) as Hsz
    by (by apply sizes_ext).
  assert (sizes (elements c) rest <= total c) as Hle.
  { unfold total. destruct Hcase as [[-> _]|[Hperm _]]; [done|].
    rewrite (sizes_perm _ _ _ Hperm).
    change (sizes ?els (e :: ?l)) with (size_at els e + sizes els l).
    assert (0 <= size_at (elements c) e); [|lia].
    apply size_at_nonneg. intros kv. apply Hnn. rewrite Hperm. by left. }
  split.
  - intros e' kv'. rewrite Hll1, elem_of_cons. intros [->|He'] Hkv'.
    + rewrite He in Hkv'. by injection Hkv' as <-.
    + rewrite Hrest in Hkv' by done. eapply Hnn; [|done]. by apply Hsub.
  - unfold total. rewrite Hll1.
    change (sizes ?els (e :: ?l)) with (size_at els e + sizes els l).
    rewrite (size_at_Some _ _ _ He). lia.
Qed.

Lemma evict_diverges (fuel : nat) (c : Cache A) :
  wf c → sane c → maxBytes c < 0 → evict fuel c = OutOfFuel.
Proof.
  revert c. induction fuel as [|fuel IH]; intros c Hwf Hsane Hmax.
  all: assert (¬ within c) as Hout
    by (pose proof (sane_total c Hsane) as Hin; apply int64_id in Hin;
        destruct Hsane as [Hnn _]; pose proof (sizes_nonneg _ _ Hnn);
        rewrite <- (wf_bytes c Hwf) in Hin; unfold within, total in *; lia).
  1: by rewrite evict_step.
  rewrite evict_step by done.
  destruct (snoc_cases (ll c)) as [Hll|(l0 & x & Hll)].
  - rewrite RemoveOldest_empty by done. by apply IH.
  - destruct (RemoveOldest_run c l0 x Hwf Hll)
      as (kv & c1 & _ & -> & Hwf1 & Hll1 & Hel1 & _ & _ & Hmax1 & _).
    apply IH; [done| |lia].
    eapply (sane_prefix c c1 [x]); [done| |done]. by rewrite Hll1.
Qed.

Lemma Len_size (c : Cache A) :
  wf c → Cache_Len c = Z.of_nat (size (cache c)).
Proof.
  intros Hwf. unfold Cache_Len. f_equal.
  rewrite <- length_map_to_list, <- (length_fmap snd).
  apply Permutation_length, NoDup_Permutation.
  - apply Hwf.
  - apply NoDup_fmap_2_strong; [|apply NoDup_map_to_list].
    intros [k1 e1] [k2 e2] H1 H2 Heq. cbn in Heq. subst e2.
    apply elem_of_map_to_list in H1, H2.
    destruct (wf_entry c k1 e1 Hwf H1) as (_ & kv1 & Hkv1 & <-).
    destruct (wf_entry c k2 e1 Hwf H2) as (_ & kv2 & Hkv2 & <-).
    congruence.
  - intros e. rewrite list_elem_of_fmap. split.
    + intros He. destruct (wf_elems c Hwf e He) as [kv Hkv].
      exists (key kv, e). split; [done|]. apply elem_of_map_to_list.
      apply (wf_index c Hwf). eauto.
    + intros ([k e'] & -> & Hk). apply elem_of_map_to_list in Hk.
      by destruct (wf_entry c k e' Hwf Hk).
Qed.

Lemma Add_put (fuel : nat) (k : string) (v : A) (c : Cache A) :
  wf c →
  ∃ c1 e rest,
    put k v c = Ok c1 ∧ Add fuel k v c = evict fuel c1
    ∧ wf c1
    ∧ ll c1 = e :: rest
    ∧ elements c1 !! e = Some {| key := k; value := v |}
    ∧ (length rest ≤ length (ll c))%nat
    ∧ maxBytes c1 = maxBytes c
    ∧ OnEvicted c1 = OnEvicted c
    ∧ evicted c1 = evicted c.
Proof.
  intros Hwf.
  destruct (put_run k v c Hwf)
    as (c1 & e & rest & Hput & Hwf1 & Hll1 & He & _ & Hcase & ? & ? & ?).
  exists c1, e, rest. unfold Add. rewrite Hput. split_and!; try done.
  destruct Hcase as [[-> _]|[Hperm _]]; [done|].
  apply Permutation_length in Hperm. rewrite Hperm. cbn. lia.
Qed.

Lemma wf_no_entries (c : Cache A) : wf c → ll c = [] → cache c = ∅.
Proof.
  intros Hwf Hll. apply map_eq. intros k. rewrite lookup_empty.
  destruct (cache c !! k) as [e|] eqn:Hk; [|done].
  destruct (wf_entry c k e Hwf Hk) as [He _]. rewrite Hll in He.
  by apply elem_of_nil in He.
Qed.

Lemma Remove_length (e : loc) (l : list loc) :
  NoDup l → e ∈ l → S (length (Remove e l)) = length l.
Proof.
  intros Hnd Hin. apply list_elem_of_split in Hin as (l1 & l2 & ->).
  rewrite Remove_middle by done. rewrite !length_app. cbn. lia.
Qed.

Lemma wf_Add (fuel : nat) (k : string) (v : A) (c c' : Cache A) :
  wf c → Add fuel k v c = Ok c' → wf c'.
Proof.
  intros Hwf Hadd.
  destruct (Add_put fuel k v c Hwf) as (c1 & e & rest & _ & Hev & Hwf1 & _).
  rewrite Hadd in Hev. symmetry in Hev.
  by destruct (evict_spec fuel c1 c' Hwf1 Hev) as (_ & _ & ? & _).
Qed.

(** *** The cache keeps its representation *)

(** X18. The representation of the cache.  A cache in which the list has
    no element twice, every element holds an entry, the map sends a key
    to the element of the list whose entry has that key and to nothing
    else, and [nbytes] is the sum, as an [int64], of the sizes of the
    entries of the list, is left in such a state by [Get], by
    [RemoveOldest] and by every [Add] that returns; none of them fails a
    type assertion, an [Add] that returns leaves the cache within its
    limit, and [Len] is the number of keys of the map.  [NewCache] makes
    such a cache. *)
Theorem Cache_invariant (c : Cache A) (k : string) (v : A) (fuel : nat) :
  wf c →
  (∃ r c', Get k c = Ok (r, c') ∧ wf c' ∧ cache c' = cache c)
  ∧ (∃ c', RemoveOldest c = Ok c' ∧ wf c')
  ∧ (Add fuel k v c = OutOfFuel
     ∨ ∃ c', Add fuel k v c = Ok c' ∧ wf c' ∧ within c')
  ∧ Cache_Len c = Z.of_nat (size (cache c))
  ∧ ∀ m f, wf (NewCache (A:=A) m f).
Proof.
  intros Hwf. split_and!.
  - destruct (Get_run k c Hwf) as (c' & Hget & Hwf' & _ & _ & Hc & _).
    eauto.
  - destruct (snoc_cases (ll c)) as [Hll|(l0 & x & Hll)].
    + exists c. by rewrite RemoveOldest_empty.
    + destruct (RemoveOldest_run c l0 x Hwf Hll)
        as (kv & c1 & _ & Hro & Hwf1 & _). eauto.
  - destruct (Add_put fuel k v c Hwf) as (c1 & e & rest & _ & -> & Hwf1 & _).
    destruct (evict fuel c1) as [c'| |] eqn:Hrun.
    + right. exists c'. split; [done|].
      by destruct (evict_spec fuel c1 c' Hwf1 Hrun) as (_ & _ & ? & ? & _).
    + exfalso. revert c1 Hwf1 Hrun. clear.
      induction fuel as [|fuel IH]; intros c1 Hwf1 Hrun.
      * destruct (within_dec c1);
          [by rewrite evict_stop in Hrun|by rewrite evict_step in Hrun].
      * destruct (within_dec c1); [by rewrite evict_stop in Hrun|].
        rewrite evict_step in Hrun by done.
        destruct (snoc_cases (ll c1)) as [Hll|(l0 & x & Hll)].
        -- rewrite RemoveOldest_empty in Hrun by done. by eapply IH.
        -- destruct (RemoveOldest_run c1 l0 x Hwf1 Hll)
             as (kv & c2 & _ & Hro & Hwf2 & _).
           rewrite Hro in Hrun. by eapply IH.
    + by left.
  - by apply Len_size.
  - apply wf_NewCache.
Qed.

(** *** The limit *)

(** X19. With a limit that is not negative, [Add] returns: its loop
    runs at most once for each entry of the list and once for the new
    one.  The cache it leaves is within the limit ([maxBytes] is 0, or
    [nbytes] is at most [maxBytes]), and has at most one entry more than
    before. *)
Theorem Add_keeps_the_limit (fuel : nat) (k : string) (v : A)
    (c : Cache A) :
  wf c → 0 <= maxBytes c → (length (ll c) < fuel)%nat →
  ∃ c', Add fuel k v c = Ok c' ∧ within c' ∧ maxBytes c' = maxBytes c
        ∧ Cache_Len c' <= Cache_Len c + 1.
Proof.
  intros Hwf Hmax Hfuel.
  destruct (Add_put fuel k v c Hwf)
    as (c1 & e & rest & _ & -> & Hwf1 & Hll1 & _ & Hlen & Hmax1 & _).
  destruct (evict_terminates fuel c1) as [c' Hrun]; [done|lia| |].
  { rewrite Hll1. cbn. lia. }
  destruct (evict_spec fuel c1 c' Hwf1 Hrun)
    as (gone & Hgone & _ & Hin & _ & Hmax' & _).
  exists c'. split_and!; [done|done|congruence|].
  unfold Cache_Len. apply (f_equal length) in Hgone.
  rewrite Hll1, length_app in Hgone. cbn in Hgone. lia.
Qed.

(** X20. With a negative limit, [Add] does not return.  When no value
    has a negative size and the sizes do not overflow, the condition of
    the loop holds however many entries [RemoveOldest] has removed, and
    on the empty list [RemoveOldest] does nothing: the loop runs out of
    any fuel. *)
Theorem Add_negative_limit_never_returns (k : string) (v : A)
    (c : Cache A) :
  wf c → sane c → 0 <= Len v →
  total c + size_of {| key := k; value := v |} <= maxDuration →
  maxBytes c < 0 →
  ∀ fuel, Add fuel k v c = OutOfFuel.
Proof.
  intros Hwf Hsane Hv Hfit Hmax fuel.
  destruct (Add_put fuel k v c Hwf)
    as (c1 & e & rest & Hput & -> & Hwf1 & _ & _ & _ & Hmax1 & _).
  apply evict_diverges; [done| |lia].
  exact (put_sane k v c c1 Hwf Hsane Hv Hfit Hput).
Qed.

(** *** Round trips *)

Lemma Add_front (fuel : nat) (k : string) (v : A) (c : Cache A) :
  wf c → sane c → 0 <= Len v →
  total c + size_of {| key := k; value := v |} <= maxDuration →
  0 <= maxBytes c → (length (ll c) < fuel)%nat →
  ∃ c1 c' e rest gone,
    put k v c = Ok c1 ∧ Add fuel k v c = Ok c'
    ∧ wf c1 ∧ sane c1 ∧ wf c' ∧ sane c' ∧ within c'
    ∧ ll c1 = e :: rest
    ∧ ll c1 = ll c' ++ gone
    ∧ elements c' = elements c1
    ∧ elements c1 !! e = Some {| key := k; value := v |}
    ∧ maxBytes c' = maxBytes c
    ∧ OnEvicted c1 = OnEvicted c
    ∧ evicted c' = evicted c ++ (reverse gone ≫= eviction c1)
    ∧ (ll c' = [] →
       maxBytes c ≠ 0
       ∧ maxBytes c < size_of {| key := k; value := v |})
    ∧ (ll c' ≠ [] →
       head (ll c') = Some e
       ∧ size_of {| key := k; value := v |} <= nbytes c').
Proof.
  intros Hwf Hsane Hv Hfit Hmax Hfuel.
  destruct (Add_put fuel k v c Hwf)
    as (c1 & e & rest & Hput & Hadd & Hwf1 & Hll1 & He & Hlen & Hmax1
        & Hon1 & Hev1).
  pose proof (put_sane k v c c1 Hwf Hsane Hv Hfit Hput) as Hsane1.
  destruct (evict_terminates fuel c1) as [c' Hrun]; [done|lia| |].
  { rewrite Hll1. cbn. lia. }
  destruct (evict_spec fuel c1 c' Hwf1 Hrun)
    as (gone & Hgone & Hwf' & Hin & Hel & Hmax' & Hon & Hev & Hmin).
  destruct (sane_prefix c1 c' gone Hsane1 Hgone Hel) as [Hsane' Hle].
  assert (0 <= size_of {| key := k; value := v |}) as Hsize
    by (unfold size_of; cbn; lia).
  exists c1, c', e, rest, gone.
  split_and!; try done; try congruence.
  - intros Hnil. rewrite Hnil, Hll1 in Hgone. cbn in Hgone. subst gone.
    destruct (Hmin [e] rest eq_refl) as [Hne Hlt]; [done|].
    rewrite Hnil in Hlt. cbn in Hlt. unfold sizes in Hlt. cbn in Hlt.
    rewrite (size_at_Some _ _ _ He), Z.add_0_r in Hlt.
    rewrite int64_id in Hlt; [split; congruence|].
    destruct Hsane1 as [Hnn Hmax1']. unfold total in Hmax1'.
    rewrite Hll1 in Hmax1'.
    change (sizes ?els (e :: ?l)) with (size_at els e + sizes els l)
      in Hmax1'.
    rewrite (size_at_Some _ _ _ He) in Hmax1'.
    assert (0 <= sizes (elements c1) rest).
    { apply sizes_nonneg. intros e' kv' He'. apply Hnn. rewrite Hll1.
      by right. }
    unfold in_int64, minDuration. lia.
  - intros Hne. destruct (ll c') as [|e' l'] eqn:Hll'; [done|].
    rewrite Hll1 in Hgone. cbn in Hgone. injection Hgone as <- Hrest.
    split; [done|].
    rewrite (wf_bytes c' Hwf'), int64_id by (by apply sane_total).
    unfold total. rewrite Hll'.
    change (sizes ?els (e :: ?l)) with (size_at els e + sizes els l).
    rewrite Hel, (size_at_Some _ _ _ He).
    assert (0 <= sizes (elements c1) l'); [|lia].
    apply sizes_nonneg. intros e' kv' He'. apply Hsane1. rewrite Hll1, Hrest.
    right. apply elem_of_app. by left.
Qed.

(** *** Round trips *)

(** X21. [Add], then [Get] of the same key.  When no value has a
    negative size, the sizes do not overflow, and the cache has no limit
    or the new entry alone is within it, [Add] returns and a [Get] of the
    key finds the value just added, whether the key was new or was
    overwritten; the [Get] leaves the number of entries as it is. *)
Theorem Add_then_Get (fuel : nat) (k : string) (v : A) (c : Cache A) :
  wf c → sane c → 0 <= Len v →
  total c + size_of {| key := k; value := v |} <= maxDuration →
  maxBytes c = 0 ∨ size_of {| key := k; value := v |} <= maxBytes c →
  (length (ll c) < fuel)%nat →
  ∃ c1 c2, Add fuel k v c = Ok c1 ∧ Get k c1 = Ok (Some v, c2)
           ∧ Cache_Len c2 = Cache_Len c1.
Proof.
  intros Hwf Hsane Hv Hfit Hroom Hfuel.
  assert (0 <= maxBytes c) as Hmax by (unfold size_of in Hroom; cbn in *; lia).
  destruct (Add_front fuel k v c Hwf Hsane Hv Hfit Hmax Hfuel)
    as (c1 & c' & e & rest & gone & _ & Hadd & _ & _ & Hwf' & _ & _ & _
        & _ & Hel & He & _ & _ & _ & Hnil & Hcons).
  destruct (decide (ll c' = [])) as [Hll|Hll]; [apply Hnil in Hll; lia|].
  destruct (Hcons Hll) as [Hhead _].
  assert (e ∈ ll c') as Hin.
  { destruct (ll c'); [done|]. injection Hhead as ->. by left. }
  assert (cache c' !! k = Some e) as Hk.
  { apply (wf_index c' Hwf'). split; [done|]. rewrite Hel. eauto. }
  destruct (Get_run k c' Hwf') as (c2 & Hget & _ & Hll2 & _).
  rewrite Hk in Hget, Hll2. cbn in Hget. rewrite Hel, He in Hget.
  exists c', c2. split_and!; [done|done|].
  unfold Cache_Len. rewrite Hll2. cbn [length].
  by rewrite (Remove_length e (ll c') (wf_nodup c' Hwf') Hin).
Qed.

(** X22. What [Add] evicts.  When [Add] returns, the list it leaves is
    the list after the insertion (the new or overwritten entry first)
    without some elements [gone] at its back; the map leaves out the keys
    of the elements gone; [OnEvicted], if set, has been called for the
    elements gone and no other, from the back of the list forward, with
    the key and the value of each; the cache is within its limit; and no
    fewer evictions would do: with any element of [gone] kept, [nbytes]
    would exceed a limit that is not 0. *)
Theorem Add_evicts_the_oldest (fuel : nat) (k : string) (v : A)
    (c c' : Cache A) :
  wf c → Add fuel k v c = Ok c' →
  ∃ c1 gone,
    put k v c = Ok c1
    ∧ ll c1 = ll c' ++ gone
    ∧ elements c' = elements c1
    ∧ (∀ k' e, cache c' !! k' = Some e
               ↔ cache c1 !! k' = Some e ∧ e ∈ ll c')
    ∧ evicted c' = evicted c ++ (reverse gone ≫= eviction c1)
    ∧ within c'
    ∧ ∀ g1 g2, gone = g1 ++ g2 → g1 ≠ [] →
        maxBytes c ≠ 0
        ∧ maxBytes c < int64 (sizes (elements c1) (ll c' ++ g1)).
Proof.
  intros Hwf Hadd.
  destruct (Add_put fuel k v c Hwf)
    as (c1 & e & rest & Hput & Hadd' & Hwf1 & _ & _ & _ & Hmax1 & _ & Hev1).
  rewrite Hadd in Hadd'. symmetry in Hadd'.
  destruct (evict_spec fuel c1 c' Hwf1 Hadd')
    as (gone & Hgone & Hwf' & Hin & Hel & _ & _ & Hev & Hmin).
  exists c1, gone. split_and!; try done.
  - intros k' e'. rewrite (wf_index c' Hwf'), (wf_index c1 Hwf1), Hel, Hgone.
    rewrite elem_of_app. tauto.
  - congruence.
  - intros g1 g2 Hsplit Hne. rewrite <- Hmax1. by apply (Hmin g1 g2).
Qed.

(** X23. A [Get] protects the entry from the next eviction.  In a cache
    of two entries or more, after a [Get] that finds the key,
    [RemoveOldest] removes another entry: the key is still mapped to its
    element, and the cache has one entry less. *)
Theorem Get_protects_from_eviction (k : string) (e : loc) (c : Cache A) :
  wf c → cache c !! k = Some e → (2 ≤ length (ll c))%nat →
  ∃ v c1 c2,
    Get k c = Ok (Some v, c1)
    ∧ RemoveOldest c1 = Ok c2
    ∧ cache c2 !! k = Some e
    ∧ Cache_Len c2 = Cache_Len c - 1.
Proof.
  intros Hwf Hk Hlen.
  destruct (wf_entry c k e Hwf Hk) as (Hin & kv & Hkv & Hkey).
  destruct (Get_run k c Hwf) as (c1 & Hget & Hwf1 & Hll1 & Hel1 & Hc1 & _).
  rewrite Hk in Hget, Hll1. cbn in Hget. rewrite Hkv in Hget. cbn in Hget.
  pose proof (Remove_length e (ll c) (wf_nodup c Hwf) Hin) as Hrem.
  destruct (snoc_cases (Remove e (ll c))) as [Hnil|(l0 & x & Hsnoc)].
  { rewrite Hnil in Hrem. cbn in Hrem. lia. }
  rewrite Hsnoc in Hll1, Hrem.
  destruct (RemoveOldest_run c1 (e :: l0) x Hwf1 Hll1)
    as (kvx & c2 & Hkvx & Hro & _ & Hll2 & _ & Hc2 & _).
  exists (value kv), c1, c2. split_and!; [done|done| |].
  - rewrite Hc2, Hc1. rewrite lookup_delete_ne; [done|].
    intros Heq. pose proof (wf_nodup c1 Hwf1) as Hnd. rewrite Hll1 in Hnd.
    assert (x = e) as ->.
    { apply (wf_unique c1 x e kvx kv Hwf1).
      - rewrite Hll1. right. apply elem_of_app. right. by left.
      - rewrite Hll1. by left.
      - done.
      - by rewrite Hel1.
      - congruence. }
    change (NoDup (e :: (l0 ++ [e]))) in Hnd.
    apply NoDup_cons in Hnd as [Hnd _]. apply Hnd.
    apply elem_of_app. right. by left.
  - unfold Cache_Len. rewrite Hll2. rewrite length_app in Hrem.
    cbn in *. lia.
Qed.

(** X24. An entry larger than the limit.  When the limit is positive
    and the new entry alone exceeds it, [Add] returns with the cache
    empty: every entry has been evicted, the new one included, whose
    eviction is the last call of [OnEvicted]; [nbytes] is 0 and a [Get]
    of the key just added misses. *)
Theorem Add_too_large (fuel : nat) (k : string) (v : A) (c : Cache A) :
  wf c → sane c → 0 <= Len v →
  total c + size_of {| key := k; value := v |} <= maxDuration →
  0 < maxBytes c < size_of {| key := k; value := v |} →
  (length (ll c) < fuel)%nat →
  ∃ c', Add fuel k v c = Ok c'
        ∧ Cache_Len c' = 0 ∧ cache c' = ∅ ∧ nbytes c' = 0
        ∧ Get k c' = Ok (None, c')
        ∧ ∀ f, OnEvicted c = Some f → last (evicted c') = Some (f, k, v).
Proof.
  intros Hwf Hsane Hv Hfit Hsmall Hfuel.
  destruct (Add_front fuel k v c Hwf Hsane Hv Hfit ltac:(lia) Hfuel)
    as (c1 & c' & e & rest & gone & _ & Hadd & _ & _ & Hwf' & _ & Hin & Hll1
        & Hgone & _ & He & Hmax' & Hon1 & Hev & _ & Hcons).
  assert (ll c' = []) as Hll.
  { destruct (decide (ll c' = [])) as [|Hne]; [done|].
    destruct (Hcons Hne) as [_ Hbig]. unfold within in Hin. lia. }
  pose proof (wf_no_entries c' Hwf' Hll) as Hempty.
  exists c'. split_and!; try done.
  - unfold Cache_Len. by rewrite Hll.
  - rewrite (wf_bytes c' Hwf'). unfold total. by rewrite Hll.
  - unfold Get. by rewrite Hempty, lookup_empty.
  - intros f Hf. rewrite Hll in Hgone. cbn in Hgone. subst gone.
    rewrite Hev, Hll1, reverse_cons, bind_app. cbn [mbind list_bind].
    unfold eviction at 2. rewrite Hon1, Hf, He. cbn.
    by rewrite !app_assoc, last_snoc.
Qed.

End properties.

(** *** lru_test.go *)

#[global] Instance String_Value : Value string :=
  λ d, Z.of_nat (String.length d).

(** The cache after a sequence of calls of [Add]. *)
Definition after (fuel : nat) (adds : list (string * string))
    (c : Cache string) : Cache string :=
  foldl (λ c kv, match Add fuel kv.1 kv.2 c with Ok c' => c' | _ => c end)
        c adds.

(** [TestOnEvicted], before its last [Add]. *)
Definition TestOnEvicted_cache : Cache string :=
  after 5 [("key1", "123456"); ("k2", "k2"); ("k3", "k3")]
        (NewCache 10 (Some 0%nat)).

Definition negative_limit : Cache string := NewCache (-1) None.

Lemma wf_after (fuel : nat) (adds : list (string * string))
    (c : Cache string) :
  wf c → wf (after fuel adds c).
Proof.
  revert c. induction adds as [|[k v] adds IH]; intros c Hwf; [done|].
  cbn. apply IH. destruct (Add fuel k v c) as [c'| |] eqn:Hadd; [|done..].
  by apply (wf_Add fuel k v c c').
Qed.

Lemma String_sane (c : Cache string) : total c <= maxDuration → sane c.
Proof.
  intros Hmax. split; [|done]. intros e kv _ _.
  unfold Len, String_Value. lia.
Qed.

Ltac test_wf := first [apply wf_after, wf_NewCache | apply wf_NewCache].
Ltac test_sane := apply String_sane; vm_compute; discriminate.
Ltac test_arith :=
  vm_compute; first [reflexivity | discriminate | lia | split; reflexivity].

Lemma Cache_invariant_witness :
  (wf TestOnEvicted_cache
   ∧ (∃ (r : option string) (c' : Cache string),
        Get "k4" TestOnEvicted_cache = Ok (r, c')
        ∧ wf c' ∧ cache c' = cache TestOnEvicted_cache)
     ∧ (∃ c' : Cache string, RemoveOldest TestOnEvicted_cache = Ok c' ∧ wf c')
       ∧ (Add 5 "k4" "k4" TestOnEvicted_cache = OutOfFuel
          ∨ ∃ c' : Cache string,
              Add 5 "k4" "k4" TestOnEvicted_cache = Ok c' ∧ wf c' ∧ within c')
         ∧ Cache_Len TestOnEvicted_cache =
           Z.of_nat (size (cache TestOnEvicted_cache))
           ∧ ∀ (m : Z) (f : option nat), wf (NewCache m f)).
Proof.
  split; [test_wf|].
  exact (Cache_invariant TestOnEvicted_cache "k4" "k4" 5
           ltac:(test_wf)).
Defined.

Lemma Add_keeps_the_limit_witness :
  (wf TestOnEvicted_cache
   ∧ 0 <= maxBytes TestOnEvicted_cache
     ∧ (length (ll TestOnEvicted_cache) < 5)%nat
       ∧ ∃ c' : Cache string,
           Add 5 "k4" "k4" TestOnEvicted_cache = Ok c'
           ∧ within c'
             ∧ maxBytes c' = maxBytes TestOnEvicted_cache
               ∧ Cache_Len c' <= Cache_Len TestOnEvicted_cache + 1).
Proof.
  split; [test_wf|].
  split; [test_arith|].
  split; [test_arith|].
  exact (Add_keeps_the_limit 5 "k4" "k4" TestOnEvicted_cache
           ltac:(test_wf)
           ltac:(test_arith)
           ltac:(test_arith)).
Defined.

Lemma Add_negative_limit_never_returns_witness :
  (wf negative_limit
   ∧ sane negative_limit
     ∧ 0 <= Len "1234"
       ∧ total negative_limit + size_of {| key := "key1"; value := "1234" |} <=
         maxDuration
         ∧ maxBytes negative_limit < 0
           ∧ ∀ fuel : nat, Add fuel "key1" "1234" negative_limit = OutOfFuel).
Proof.
  split; [test_wf|].
  split; [test_sane|].
  split; [test_arith|].
  split; [test_arith|].
  split; [test_arith|].
  exact (Add_negative_limit_never_returns "key1" "1234" negative_limit
           ltac:(test_wf)
           ltac:(test_sane)
           ltac:(test_arith)
           ltac:(test_arith)
           ltac:(test_arith)).
Defined.

Lemma Add_then_Get_witness :
  (wf TestOnEvicted_cache
   ∧ sane TestOnEvicted_cache
     ∧ 0 <= Len "k4"
       ∧ total TestOnEvicted_cache + size_of {| key := "k4"; value := "k4" |} <=
         maxDuration
         ∧ (maxBytes TestOnEvicted_cache = 0
            ∨ size_of {| key := "k4"; value := "k4" |} <=
              maxBytes TestOnEvicted_cache)
           ∧ (length (ll TestOnEvicted_cache) < 5)%nat
             ∧ ∃ c1 c2 : Cache string,
                 Add 5 "k4" "k4" TestOnEvicted_cache = Ok c1
                 ∧ Get "k4" c1 = Ok (Some "k4", c2)
                   ∧ Cache_Len c2 = Cache_Len c1).
Proof.
  split; [test_wf|].
  split; [test_sane|].
  split; [test_arith|].
  split; [test_arith|].
  split; [right; test_arith|].
  split; [test_arith|].
  exact (Add_then_Get 5 "k4" "k4" TestOnEvicted_cache
           ltac:(test_wf)
           ltac:(test_sane)
           ltac:(test_arith)
           ltac:(test_arith)
           ltac:(right; test_arith)
           ltac:(test_arith)).
Defined.

Lemma Add_evicts_the_oldest_witness :
  (wf TestOnEvicted_cache
   ∧ Add 5 "k4" "k4" TestOnEvicted_cache =
     Ok (after 5 [("k4", "k4")] TestOnEvicted_cache)
     ∧ ∃ (c1 : Cache string) (gone : list positive),
         put "k4" "k4" TestOnEvicted_cache = Ok c1
         ∧ ll c1 = ll (after 5 [("k4", "k4")] TestOnEvicted_cache) ++ gone
           ∧ elements (after 5 [("k4", "k4")] TestOnEvicted_cache) =
             elements c1
             ∧ (∀ (k' : string) (e : positive),
                  cache (after 5 [("k4", "k4")] TestOnEvicted_cache) !! k' =
                  Some e
                  ↔ cache c1 !! k' = Some e
                    ∧ e ∈ ll (after 5 [("k4", "k4")] TestOnEvicted_cache))
               ∧ evicted (after 5 [("k4", "k4")] TestOnEvicted_cache) =
                 evicted TestOnEvicted_cache ++ reverse gone ≫= eviction c1
                 ∧ within (after 5 [("k4", "k4")] TestOnEvicted_cache)
                   ∧ ∀ g1 g2 : list positive,
                       gone = g1 ++ g2
                       → g1 ≠ []
                         → maxBytes TestOnEvicted_cache ≠ 0
                           ∧ maxBytes TestOnEvicted_cache <
                             int64
                               (sizes (elements c1)
                                  (ll
                                     (after 5 [("k4", "k4")]
                                        TestOnEvicted_cache) ++
                                   g1))).
Proof.
  split; [test_wf|].
  split; [test_arith|].
  exact (Add_evicts_the_oldest 5 "k4" "k4" TestOnEvicted_cache (after 5 [("k4", "k4")] TestOnEvicted_cache)
           ltac:(test_wf)
           ltac:(test_arith)).
Defined.

Lemma Get_protects_from_eviction_witness :
  (wf TestOnEvicted_cache
   ∧ cache TestOnEvicted_cache !! "k2" = Some 2%positive
     ∧ (2 <= length (ll TestOnEvicted_cache))%nat
       ∧ ∃ (v : string) (c1 c2 : Cache string),
           Get "k2" TestOnEvicted_cache = Ok (Some v, c1)
           ∧ RemoveOldest c1 = Ok c2
             ∧ cache c2 !! "k2" = Some 2%positive
               ∧ Cache_Len c2 = Cache_Len TestOnEvicted_cache - 1).
Proof.
  split; [test_wf|].
  split; [test_arith|].
  split; [test_arith|].
  exact (Get_protects_from_eviction "k2" 2%positive TestOnEvicted_cache
           ltac:(test_wf)
           ltac:(test_arith)
           ltac:(test_arith)).
Defined.

Lemma Add_too_large_witness :
  (wf TestOnEvicted_cache
   ∧ sane TestOnEvicted_cache
     ∧ 0 <= Len "0123456789"
       ∧ total TestOnEvicted_cache +
         size_of {| key := "big"; value := "0123456789" |} <= maxDuration
         ∧ 0 < maxBytes TestOnEvicted_cache <
           size_of {| key := "big"; value := "0123456789" |}
           ∧ (length (ll TestOnEvicted_cache) < 5)%nat
             ∧ ∃ c' : Cache string,
                 Add 5 "big" "0123456789" TestOnEvicted_cache = Ok c'
                 ∧ Cache_Len c' = 0
                   ∧ cache c' = ∅
                     ∧ nbytes c' = 0
                       ∧ Get "big" c' = Ok (None, c')
                         ∧ ∀ f : nat,
                             OnEvicted TestOnEvicted_cache = Some f
                             → last (evicted c') =
                               Some (f, "big", "0123456789")).
Proof.
  split; [test_wf|].
  split; [test_sane|].
  split; [test_arith|].
  split; [test_arith|].
  split; [test_arith|].
  split; [test_arith|].
  exact (Add_too_large 5 "big" "0123456789" TestOnEvicted_cache
           ltac:(test_wf)
           ltac:(test_sane)
           ltac:(test_arith)
           ltac:(test_arith)
           ltac:(test_arith)
           ltac:(test_arith)).
Defined.

End lru.

(** * geecache: byte views and the cache guarded by a lock

    A shallow embedding of the [ByteView] of [byteview.go] and of the
    [cache] of [cache.go].  A slice is a window on an array of the
    memory, so that two slices on one array share their bytes; [make]
    allocates an array.  The lock of [cache] is left out of [add] and
    [get], which are run by one goroutine. *)

Module geecache.

(** ** Slices of bytes *)

Record slice : Type := mkSlice {
  array : option loc;
  offset : nat;
  len : nat;
}.

Abbreviation byte := Byte.byte (only parsing).
Abbreviation Mem := (gmap loc (list byte)) (only parsing).

(** The nil slice. *)
Definition nil : slice := {| array := None; offset := 0; len := 0 |}.

(** The bytes of a slice; [None] when the slice is no window of the
    memory. *)
Definition read (m : Mem) (s : slice) : option (list byte) :=
  match array s with
  | Some a =>
      arr ← m !! a;
      if decide (offset s + len s ≤ length arr)%nat
      then Some (take (len s) (drop (offset s) arr))
      else None
  | None => if decide (len s = 0%nat) then Some [] else None
  end.

(** [s[i] = x]; [None] is the panic of an index out of range. *)
Definition write (m : Mem) (s : slice) (i : nat) (x : byte) : option Mem :=
  if decide (i < len s)%nat then
    a ← array s;
    arr ← m !! a;
    Some (<[a := <[(offset s + i)%nat := x]> arr]> m)
  else None.

(** [make([]byte, n)] *)
Definition make (n : nat) (m : Mem) : slice * Mem :=
  let a := fresh (dom m) in
  ({| array := Some a; offset := 0; len := n |},
   <[a := replicate n Byte.x00]> m).

(** [copy(dst, src)]: the number of bytes copied, and the memory. *)
Definition copy (dst src : slice) (m : Mem) : option (nat * Mem) :=
  bs ← read m src;
  let n := (len dst `min` len src)%nat in
  match array dst with
  | Some a =>
      arr ← m !! a;
      Some (n, <[a := take (offset dst) arr ++ take n bs
                      ++ drop (offset dst + n) arr]> m)
  | None => Some (n, m)
  end.

(** ** byteview.go *)

Record ByteView : Type := mkByteView { b : slice }.

#[global] Instance ByteView_Value : lru.Value ByteView :=
  λ view, Z.of_nat (len (b view)).

Definition ByteView_String (view : ByteView) (m : Mem) : option string :=
  String.string_of_list_byte <$> read m (b view).

Definition cloneBytes (b : slice) (m : Mem) : option (slice * Mem) :=
  let '(res, m1) := make (len b) m in
  '(_, m2) ← copy res b m1;
  Some (res, m2).

Definition ByteSlice (view : ByteView) (m : Mem) : option (slice * Mem) :=
  cloneBytes (b view) m.

(** ** cache.go *)

Record cache : Type := mkCache {
  lru : option (lru.Cache ByteView);
  cacheBytes : Z;
}.

(** The lru of [add]: the one of the cache, or a new one. *)
Definition the_lru (c : cache) : lru.Cache ByteView :=
  match lru c with
  | Some l => l
  | None => lru.NewCache (cacheBytes c) None
  end.

Definition add (fuel : nat) (key : string) (value : ByteView) (c : cache)
  : lru.Result cache :=
  match lru.Add fuel key value (the_lru c) with
  | lru.Ok l' => lru.Ok {| lru := Some l'; cacheBytes := cacheBytes c |}
  | lru.Panic => lru.Panic
  | lru.OutOfFuel => lru.OutOfFuel
  end.

Definition get (key : string) (c : cache)
  : lru.Result (ByteView * bool * cache) :=
  match lru c with
  | None => lru.Ok ({| b := nil |}, false, c)
  | Some l =>
      match lru.Get key l with
      | lru.Ok (Some value, l') =>
          lru.Ok (value, true, {| lru := Some l'; cacheBytes := cacheBytes c |})
      | lru.Ok (None, l') =>
          lru.Ok ({| b := nil |}, false,
                  {| lru := Some l'; cacheBytes := cacheBytes c |})
      | lru.Panic => lru.Panic
      | lru.OutOfFuel => lru.OutOfFuel
      end
  end.

(** The lru of a cache, when it has one, is in a state that [add] and
    [get] reach. *)
Definition cache_ok (c : cache) : Prop :=
  ∀ l, lru c = Some l →
       lru.wf l ∧ lru.maxBytes l = cacheBytes c ∧ lru.OnEvicted l = None.

(** ** The lock of [cache]

    [add] runs between [Lock] and the deferred [Unlock], [get] between
    [RLock] and the deferred [RUnlock], of the [sync.RWMutex] of the
    cache: a writer is admitted when no goroutine holds the lock, a
    reader when no writer holds it. *)

Inductive call : Type :=
  | CallAdd (key : string) (value : ByteView)
  | CallGet (key : string).

Inductive pc : Type := Waiting | Inside | Returned.

Record goroutine : Type := mkGoroutine { what : call; at_pc : pc }.

Record system : Type := mkSystem {
  readers : nat;
  writer : bool;
  goroutines : list goroutine;
}.

Inductive step : system → system → Prop :=
  | step_Lock i key value s :
      goroutines s !! i = Some (mkGoroutine (CallAdd key value) Waiting) →
      writer s = false → readers s = 0%nat →
      step s {| readers := readers s; writer := true;
                goroutines :=
                  <[i := mkGoroutine (CallAdd key value) Inside]>
                    (goroutines s) |}
  | step_Unlock i key value s :
      goroutines s !! i = Some (mkGoroutine (CallAdd key value) Inside) →
      step s {| readers := readers s; writer := false;
                goroutines :=
                  <[i := mkGoroutine (CallAdd key value) Returned]>
                    (goroutines s) |}
  | step_RLock i key s :
      goroutines s !! i = Some (mkGoroutine (CallGet key) Waiting) →
      writer s = false →
      step s {| readers := S (readers s); writer := writer s;
                goroutines :=
                  <[i := mkGoroutine (CallGet key) Inside]> (goroutines s) |}
  | step_RUnlock i key s :
      goroutines s !! i = Some (mkGoroutine (CallGet key) Inside) →
      step s {| readers := pred (readers s); writer := writer s;
                goroutines :=
                  <[i := mkGoroutine (CallGet key) Returned]>
                    (goroutines s) |}.

(** Every goroutine is about to call, and the lock is free. *)
Definition initial (s : system) : Prop :=
  readers s = 0%nat ∧ writer s = false
  ∧ Forall (λ g, at_pc g = Waiting) (goroutines s).

Definition adding (g : goroutine) : bool :=
  match what g, at_pc g with
  | CallAdd _ _, Inside => true
  | _, _ => false
  end.

Definition getting (g : goroutine) : bool :=
  match what g, at_pc g with
  | CallGet _, Inside => true
  | _, _ => false
  end.

Definition count (P : goroutine → bool) (l : list goroutine) : nat :=
  length (filter (λ g, P g = true) l).

Definition lock_inv (s : system) : Prop :=
  count adding (goroutines s) = (if writer s then 1%nat else 0%nat)
  ∧ count getting (goroutines s) = readers s
  ∧ (writer s = true → readers s = 0%nat).

(** ** Properties *)

Lemma read_length (m : Mem) (s : slice) (bs : list byte) :
  read m s = Some bs → length bs = len s.
Proof.
  unfold read. destruct (array s) as [a|].
  - destruct (m !! a) as [arr|]; [|done]. cbn.
    destruct (decide _) as [Hle|]; [|done]. intros [= <-].
    rewrite length_take, length_drop. lia.
  - destruct (decide _) as [->|]; [|done]. by intros [= <-].
Qed.

Lemma read_frame (m : Mem) (a : loc) (arr : list byte) (s : slice) :
  array s ≠ Some a → read (<[a := arr]> m) s = read m s.
Proof.
  intros Hne. unfold read. destruct (array s) as [a'|]; [|done].
  rewrite lookup_insert_ne; [done|]. congruence.
Qed.

Lemma read_allocated (m : Mem) (s : slice) (bs : list byte) (a : loc) :
  read m s = Some bs → m !! a = None → array s ≠ Some a.
Proof.
  unfold read. intros Hread Hnone Heq. rewrite Heq in Hread.
  by rewrite Hnone in Hread.
Qed.

(** X25. [ByteSlice] returns a copy.  For a view whose slice is a window
    of the memory, [ByteSlice] returns a slice with the bytes of the
    view, on an array of its own: every array there was is as before, and
    a write at any index of the slice returned changes that byte of it
    and leaves the bytes and the [String] of the view as they were. *)
Theorem ByteSlice_is_a_copy (view : ByteView) (m : Mem) (bs : list byte) :
  read m (b view) = Some bs →
  ∃ s m',
    ByteSlice view m = Some (s, m')
    ∧ read m' s = Some bs
    ∧ read m' (b view) = Some bs
    ∧ (∀ a, a ∈ dom m → m' !! a = m !! a)
    ∧ ∀ i x,
        (i < length bs)%nat →
        ∃ m'', write m' s i x = Some m''
               ∧ read m'' s = Some (<[i := x]> bs)
               ∧ read m'' (b view) = Some bs
               ∧ ByteView_String view m'' = ByteView_String view m.
Proof.
  intros Hread. pose proof (read_length _ _ _ Hread) as Hlen.
  set (a := fresh (dom m)).
  assert (m !! a = None) as Hfresh by apply not_elem_of_dom, is_fresh.
  pose proof (read_allocated _ _ _ a Hread Hfresh) as Hne.
  unfold ByteSlice, cloneBytes, make, copy. fold a. cbn.
  rewrite read_frame, Hread by done. cbn.
  rewrite lookup_insert_eq. cbn.
  rewrite Nat.min_id, <- Hlen, firstn_all, drop_replicate, Nat.sub_diag.
  cbn. rewrite app_nil_r, insert_insert_eq.
  set (s := {| array := Some a; offset := 0; len := length bs |}).
  assert (∀ cs, length cs = length bs → read (<[a:=cs]> m) s = Some cs)
    as Hs.
  { intros cs Hcs. unfold read. cbn. rewrite lookup_insert_eq. cbn.
    rewrite decide_True by lia. by rewrite <- Hcs, firstn_all. }
  eexists s, _. split_and!; [done|by apply Hs|by rewrite read_frame| |].
  - intros a' Ha'. rewrite lookup_insert_ne; [done|]. intros <-.
    by apply not_elem_of_dom in Hfresh.
  - intros i x Hi. unfold write. cbn. rewrite decide_True by done.
    rewrite lookup_insert_eq. cbn. rewrite insert_insert_eq.
    eexists. split_and!; [done| |by rewrite read_frame|].
    + apply Hs. by rewrite length_insert.
    + unfold ByteView_String. by rewrite read_frame, Hread.
Qed.

Lemma the_lru_ok (c : cache) :
  cache_ok c →
  lru.wf (the_lru c) ∧ lru.maxBytes (the_lru c) = cacheBytes c
  ∧ lru.OnEvicted (the_lru c) = None.
Proof.
  intros Hok. unfold the_lru. destruct (lru c) as [l|] eqn:Hl; [by apply Hok|].
  split_and!; [apply lru.wf_NewCache|done..].
Qed.

Lemma ByteView_sane (l : lru.Cache ByteView) :
  lru.total l <= maxDuration → lru.sane l.
Proof.
  intros Hmax. split; [|done]. intros e kv _ _.
  unfold lru.Len, ByteView_Value. lia.
Qed.

(** X26. [add], then [get] of the same key.  On a cache whose lru, if it
    has one, is in a state [add] and [get] reach, when the sizes do not
    overflow, and the cache has no limit or the new entry alone is within
    it: [add] returns, creating the lru with the limit [cacheBytes] and
    no callback if there was none, and a [get] of the key then returns
    the view just added with [true].  A [get] on a cache that has no lru
    yet returns the empty view with [false] and creates none. *)
Theorem cache_add_then_get (fuel : nat) (key : string) (value : ByteView)
    (c : cache) :
  cache_ok c →
  lru.total (the_lru c)
  + lru.size_of {| lru.key := key; lru.value := value |} <= maxDuration →
  cacheBytes c = 0
  ∨ lru.size_of {| lru.key := key; lru.value := value |} <= cacheBytes c →
  (length (lru.ll (the_lru c)) < fuel)%nat →
  (∃ c1 c2,
     add fuel key value c = lru.Ok c1 ∧ cache_ok c1 ∧ is_Some (lru c1)
     ∧ get key c1 = lru.Ok (value, true, c2) ∧ cache_ok c2)
  ∧ (lru c = None → get key c = lru.Ok ({| b := nil |}, false, c)).
Proof.
  intros Hok Hfit Hroom Hfuel. split; [|unfold get; by intros ->].
  destruct (the_lru_ok c Hok) as (Hwf & Hmax & Hon).
  assert (0 <= lru.size_of {| lru.key := key; lru.value := value |}) as Hsize.
  { unfold lru.size_of, lru.Len, ByteView_Value. cbn. lia. }
  assert (0 <= lru.Len value) as Hv
    by (unfold lru.Len, ByteView_Value; lia).
  assert (lru.sane (the_lru c)) as Hsane by (apply ByteView_sane; lia).
  destruct (lru.Add_front fuel key value (the_lru c) Hwf Hsane Hv Hfit
              ltac:(lia) Hfuel)
    as (l1 & l' & e & rest & gone & _ & Hadd & Hwf1 & _ & Hwf' & _ & _ & _
        & _ & Hel & He & Hmax' & Hon1 & _ & Hnil & Hcons).
  assert (lru.OnEvicted l' = None) as Hon'.
  { destruct (lru.Add_put fuel key value (the_lru c) Hwf)
      as (l1' & _ & _ & _ & Hrun & Hwf1' & _ & _ & _ & _ & Hon1' & _).
    rewrite Hadd in Hrun. symmetry in Hrun.
    destruct (lru.evict_spec fuel l1' l' Hwf1' Hrun)
      as (_ & _ & _ & _ & _ & _ & Hon2 & _). congruence. }
  destruct (decide (lru.ll l' = [])) as [Hll|Hll]; [apply Hnil in Hll; lia|].
  destruct (Hcons Hll) as [Hhead _].
  assert (e ∈ lru.ll l') as Hin.
  { destruct (lru.ll l'); [done|]. injection Hhead as ->. by left. }
  assert (lru.cache l' !! key = Some e) as Hk.
  { apply (lru.wf_index l' Hwf'). split; [done|]. rewrite Hel. eauto. }
  destruct (lru.Get_run key l' Hwf')
    as (l2 & Hget & Hwf2 & _ & _ & _ & _ & Hmax2 & Hon2 & _).
  rewrite Hk in Hget. cbn in Hget. rewrite Hel, He in Hget. cbn in Hget.
  eexists _, _. unfold add. rewrite Hadd. split_and!; [done| |done| |].
  - intros l [= <-]. cbn. split_and!; [done|congruence|done].
  - unfold get. cbn. by rewrite Hget.
  - intros l [= <-]. cbn. split_and!; [done|congruence|congruence].
Qed.

Lemma count_insert (P : goroutine → bool) (l : list goroutine) (i : nat)
    (x y : goroutine) :
  l !! i = Some x →
  (count P (<[i:=y]> l) + (if P x then 1 else 0)
   = count P l + (if P y then 1 else 0))%nat.
Proof.
  intros Hi. pose proof (lookup_lt_Some _ _ _ Hi) as Hlt.
  rewrite insert_take_drop by done.
  rewrite <- (take_drop_middle l i x Hi) at 3.
  unfold count. rewrite !filter_app, !length_app, !filter_cons.
  destruct (P x), (P y).
  all: repeat case_decide; try done; cbn; lia.
Qed.

Lemma count_zero (P : goroutine → bool) (l : list goroutine) (i : nat)
    (x : goroutine) :
  count P l = 0%nat → l !! i = Some x → P x = false.
Proof.
  unfold count. intros Hc Hi. destruct (P x) eqn:HP; [|done].
  apply length_zero_iff_nil in Hc.
  assert (x ∈ filter (λ g, P g = true) l) as Hin.
  { apply list_elem_of_filter. split; [done|]. by eapply list_elem_of_lookup_2. }
  rewrite Hc in Hin. by apply elem_of_nil in Hin.
Qed.

Lemma count_one (P : goroutine → bool) (l : list goroutine) (i j : nat)
    (x y : goroutine) :
  (count P l ≤ 1)%nat → l !! i = Some x → l !! j = Some y →
  P x = true → P y = true → i = j.
Proof.
  unfold count. revert i j. induction l as [|g l IH]; intros i j Hc Hi Hj Hx Hy.
  { done. }
  rewrite filter_cons in Hc. destruct i as [|i], j as [|j]; cbn in Hi, Hj.
  - done.
  - exfalso. injection Hi as ->. rewrite decide_True in Hc by done.
    cbn in Hc. assert (count P l = 0%nat) as Hz by (unfold count; lia).
    pose proof (count_zero P l j y Hz Hj). congruence.
  - exfalso. injection Hj as ->. rewrite decide_True in Hc by done.
    cbn in Hc. assert (count P l = 0%nat) as Hz by (unfold count; lia).
    pose proof (count_zero P l i x Hz Hi). congruence.
  - f_equal. apply IH; try done. destruct (decide _); cbn in Hc; lia.
Qed.

Lemma count_waiting (P : goroutine → bool) (l : list goroutine) :
  (∀ g, P g = true → at_pc g = Inside) →
  Forall (λ g, at_pc g = Waiting) l → count P l = 0%nat.
Proof.
  intros HP. unfold count. induction 1 as [|g l Hg _ IH]; [done|].
  rewrite filter_cons. destruct (decide _) as [Hin|]; [|done].
  apply HP in Hin. congruence.
Qed.

Lemma lock_inv_initial (s : system) : initial s → lock_inv s.
Proof.
  intros (Hr & Hw & Hall). unfold lock_inv. rewrite Hr, Hw.
  split_and!; [| |done].
  - apply count_waiting; [|done]. intros [[] []]; by cbn.
  - apply count_waiting; [|done]. intros [[] []]; by cbn.
Qed.

Lemma lock_inv_step (s s' : system) : lock_inv s → step s s' → lock_inv s'.
Proof.
  intros (Ha & Hg & Hw) Hstep. unfold lock_inv.
  destruct Hstep as [i k v s Hi Hfree Hnone|i k v s Hi|i k s Hi Hfree
                     |i k s Hi]; cbn [readers writer goroutines].
  all: match goal with
       | |- context [<[?n := ?y]> _] =>
           pose proof (count_insert adding _ n _ y Hi) as Hadd;
           pose proof (count_insert getting _ n _ y Hi) as Hget
       end.
  all: cbn in Hadd, Hget.
  all: destruct (writer s); split_and!; try done; try lia.
  all: intros _; specialize (Hw eq_refl); lia.
Qed.

Lemma lock_inv_reachable (s0 s : system) :
  initial s0 → rtc step s0 s → lock_inv s.
Proof.
  intros Hinit Hrun. apply lock_inv_initial in Hinit.
  induction Hrun as [|s1 s2 s3 Hstep _ IH]; [done|].
  apply IH. by eapply lock_inv_step.
Qed.

(** X27. [get] does not exclude [get].  From a state in which the lock is
    free and every goroutine is about to call, two goroutines that call
    [get] can be between [RLock] and [RUnlock] at the same time, whereas a
    goroutine between [Lock] and [Unlock] of [add] is the only one inside,
    in every state the system reaches.  The [lru.Get] that [get] runs
    there moves the element to the front: when the key is found and is
    not first already, it leaves the list of the lru changed. *)
Theorem get_shares_the_lock (s0 : system) (i j : nat) (k1 k2 : string) :
  initial s0 → i ≠ j →
  goroutines s0 !! i = Some (mkGoroutine (CallGet k1) Waiting) →
  goroutines s0 !! j = Some (mkGoroutine (CallGet k2) Waiting) →
  (∃ s, rtc step s0 s
        ∧ goroutines s !! i = Some (mkGoroutine (CallGet k1) Inside)
        ∧ goroutines s !! j = Some (mkGoroutine (CallGet k2) Inside))
  ∧ (∀ s a b key value g,
       rtc step s0 s →
       goroutines s !! a = Some (mkGoroutine (CallAdd key value) Inside) →
       goroutines s !! b = Some g → at_pc g = Inside →
       a = b)
  ∧ ∀ (l : lru.Cache ByteView) key e,
      lru.wf l → lru.cache l !! key = Some e → head (lru.ll l) ≠ Some e →
      ∃ value l', lru.Get key l = lru.Ok (Some value, l')
                  ∧ lru.ll l' ≠ lru.ll l.
Proof.
  intros (Hr & Hw & Hall) Hij Hi Hj. split_and!.
  - eexists. split.
    + eapply rtc_l; [by apply (step_RLock i k1)|].
      eapply rtc_l; [|apply rtc_refl].
      apply (step_RLock j k2); [|done]. cbn.
      by rewrite list_lookup_insert_ne.
    + cbn. pose proof (lookup_lt_Some _ _ _ Hi).
      pose proof (lookup_lt_Some _ _ _ Hj). split.
      * rewrite list_lookup_insert_ne by done.
        by rewrite list_lookup_insert_eq.
      * rewrite list_lookup_insert_eq; [done|]. by rewrite length_insert.
  - intros s a b key value g Hrun Ha Hb Hg.
    destruct (lock_inv_reachable s0 s) as (Hadd & Hget & Hwr);
      [by split_and!|done|].
    assert (writer s = true) as Hwriter.
    { destruct (writer s); [done|].
      pose proof (count_zero adding _ a _ Hadd Ha). done. }
    rewrite Hwriter in Hadd. specialize (Hwr Hwriter). rewrite Hwr in Hget.
    pose proof (count_zero getting _ b g Hget Hb) as Hnot.
    eapply (count_one adding (goroutines s) a b); [lia|done|done|done|].
    destruct g as [[] []]; cbn in *; congruence.
  - intros l key e Hwf Hk Hhead.
    destruct (lru.wf_entry l key e Hwf Hk) as (_ & kv & Hkv & _).
    destruct (lru.Get_run key l Hwf) as (l' & Hget & _ & Hll & _).
    rewrite Hk in Hget, Hll. cbn in Hget. rewrite Hkv in Hget.
    exists (lru.value kv), l'. split; [done|]. intros Heq.
    apply Hhead. by rewrite <- Heq, Hll.
Qed.

Lemma cache_ok_add (fuel : nat) (key : string) (value : ByteView)
    (c c1 : cache) :
  cache_ok c → add fuel key value c = lru.Ok c1 → cache_ok c1.
Proof.
  intros Hok. destruct (the_lru_ok c Hok) as (Hwf & Hmax & Hon).
  unfold add. destruct (lru.Add _ _ _ _) as [l'| |] eqn:Hadd; [|done..].
  intros [= <-] l [= <-]. cbn.
  destruct (lru.Add_put fuel key value (the_lru c) Hwf)
    as (l1 & _ & _ & _ & Hrun & Hwf1 & _ & _ & _ & Hmax1 & Hon1 & _).
  rewrite Hadd in Hrun. symmetry in Hrun.
  destruct (lru.evict_spec fuel l1 l' Hwf1 Hrun)
    as (_ & _ & Hwf' & _ & _ & Hmax2 & Hon2 & _).
  split_and!; [done|congruence|congruence].
Qed.

(** *** A cache in use *)

Definition abcde : Mem :=
  {[ 1%positive := [Byte.x61; Byte.x62; Byte.x63; Byte.x64; Byte.x65] ]}.

Definition bcd : ByteView :=
  {| b := {| array := Some 1%positive; offset := 1; len := 3 |} |}.

Definition unused : cache := {| lru := None; cacheBytes := 2048 |}.

Definition used : cache :=
  match add 1 "Tom" bcd unused with
  | lru.Ok c => c
  | _ => unused
  end.

Definition three_calls : system :=
  {| readers := 0;
     writer := false;
     goroutines :=
       [mkGoroutine (CallGet "Tom") Waiting;
        mkGoroutine (CallGet "Tom") Waiting;
        mkGoroutine (CallAdd "Sam" bcd) Waiting] |}.

Ltac used_ok :=
  apply (cache_ok_add 1 "Tom" bcd unused); [by intros ? [=]|by vm_compute].
Ltac used_arith :=
  vm_compute; first [reflexivity | discriminate | lia].

Lemma ByteSlice_is_a_copy_witness :
  (read abcde (b bcd) = Some [Byte.x62; Byte.x63; Byte.x64]
   ∧ ∃ (s : slice) (m' : gmap positive (list Byte.byte)),
       ByteSlice bcd abcde = Some (s, m')
       ∧ read m' s = Some [Byte.x62; Byte.x63; Byte.x64]
         ∧ read m' (b bcd) = Some [Byte.x62; Byte.x63; Byte.x64]
           ∧ (∀ a : positive, a ∈ dom abcde → m' !! a = abcde !! a)
             ∧ ∀ (i : nat) (x : Byte.byte),
                 (i < length [Byte.x62; Byte.x63; Byte.x64])%nat
                 → ∃ m'' : gmap positive (list Byte.byte),
                     write m' s i x = Some m''
                     ∧ read m'' s =
                       Some (<[i:=x]> [Byte.x62; Byte.x63; Byte.x64])
                       ∧ read m'' (b bcd) = Some [Byte.x62; Byte.x63; Byte.x64]
                         ∧ ByteView_String bcd m'' = ByteView_String bcd abcde).
Proof.
  split; [reflexivity|].
  exact (ByteSlice_is_a_copy bcd abcde [Byte.x62; Byte.x63; Byte.x64]
           ltac:(reflexivity)).
Defined.

Lemma cache_add_then_get_witness :
  (cache_ok used
   ∧ lru.total (the_lru used) +
     lru.size_of {| lru.key := "Sam"; lru.value := bcd |} <= maxDuration
     ∧ (cacheBytes used = 0
        ∨ lru.size_of {| lru.key := "Sam"; lru.value := bcd |} <=
          cacheBytes used)
       ∧ (length (lru.ll (the_lru used)) < 2)%nat
         ∧ (∃ c1 c2 : cache,
              add 2 "Sam" bcd used = lru.Ok c1
              ∧ cache_ok c1
                ∧ is_Some (lru c1)
                  ∧ get "Sam" c1 = lru.Ok (bcd, true, c2) ∧ cache_ok c2)
           ∧ (lru used = None
              → get "Sam" used = lru.Ok ({| b := nil |}, false, used))).
Proof.
  split; [used_ok|].
  split; [used_arith|].
  split; [right; used_arith|].
  split; [used_arith|].
  exact (cache_add_then_get 2 "Sam" bcd used
           ltac:(used_ok)
           ltac:(used_arith)
           ltac:(right; used_arith)
           ltac:(used_arith)).
Defined.

Lemma get_shares_the_lock_witness :
  (initial three_calls
   ∧ 0%nat ≠ 1%nat
     ∧ goroutines three_calls !! 0%nat =
       Some {| what := CallGet "Tom"; at_pc := Waiting |}
       ∧ goroutines three_calls !! 1%nat =
         Some {| what := CallGet "Tom"; at_pc := Waiting |}
         ∧ (∃ s : system,
              rtc step three_calls s
              ∧ goroutines s !! 0%nat =
                Some {| what := CallGet "Tom"; at_pc := Inside |}
                ∧ goroutines s !! 1%nat =
                  Some {| what := CallGet "Tom"; at_pc := Inside |})
           ∧ (∀ (s : system) (a b : nat) (key : string) 
                (value : ByteView) (g : goroutine),
                rtc step three_calls s
                → goroutines s !! a =
                  Some {| what := CallAdd key value; at_pc := Inside |}
                  → goroutines s !! b = Some g → at_pc g = Inside → a = b)
             ∧ ∀ (l : lru.Cache ByteView) (key : string) (e : positive),
                 lru.wf l
                 → lru.cache l !! key = Some e
                   → head (lru.ll l) ≠ Some e
                     → ∃ (value : ByteView) (l' : lru.Cache ByteView),
                         lru.Get key l = lru.Ok (Some value, l')
                         ∧ lru.ll l' ≠ lru.ll l).
Proof.
  split; [split_and!; [reflexivity|reflexivity|repeat constructor]|].
  split; [discriminate|].
  split; [reflexivity|].
  split; [reflexivity|].
  exact (get_shares_the_lock three_calls 0 1 "Tom" "Tom"
           ltac:(split_and!; [reflexivity|reflexivity|repeat constructor])
           ltac:(discriminate)
           ltac:(reflexivity)
           ltac:(reflexivity)).
Defined.

End geecache.
